(** * Story Reader: the template parser, the inline markup renderer and
      the state of the application

    A shallow embedding of [parseTemplate] and [markdownToHtml] of
    [src/app.js], together with the part of JavaScript's string and regular
    expression semantics these two functions rely on, and of the event
    handlers of the same file that read and update the stories, the reader
    position and the theme.

    Strings are lists of UTF-16 code units, as in JavaScript.  Regular
    expressions are kept as syntax trees that mirror the literals of the
    source one to one; their meaning is the backtracking semantics of
    ECMAScript, given here as the list of all successful matches in priority
    order (the first element is the match the engine reports). *)

From Stdlib Require Import String Ascii List NArith ZArith Bool Arith Lia.
Import ListNotations.

Open Scope N_scope.
Open Scope list_scope.

(** ** JavaScript strings *)

Module JsString.

(** A UTF-16 code unit, and a string of them. *)
Abbreviation cu := N (only parsing).
Abbreviation jsstring := (list N) (only parsing).

(** Rocq string literals are sequences of bytes; the source file is UTF-8.
    [utf16_of_utf8] decodes the bytes to code points and encodes every code
    point above U+FFFF as a surrogate pair. *)
Fixpoint utf16_of_utf8 (bs : list N) : jsstring :=
  match bs with
  | [] => []
  | b0 :: r0 =>
    if b0 <? 0x80 then b0 :: utf16_of_utf8 r0
    else if b0 <? 0xE0 then
      match r0 with
      | b1 :: r1 => ((b0 mod 0x20) * 0x40 + b1 mod 0x40) :: utf16_of_utf8 r1
      | _ => []
      end
    else if b0 <? 0xF0 then
      match r0 with
      | b1 :: b2 :: r2 =>
        ((b0 mod 0x10) * 0x1000 + (b1 mod 0x40) * 0x40 + b2 mod 0x40)
          :: utf16_of_utf8 r2
      | _ => []
      end
    else
      match r0 with
      | b1 :: b2 :: b3 :: r3 =>
        let cp := (b0 mod 0x08) * 0x40000 + (b1 mod 0x40) * 0x1000
                  + (b2 mod 0x40) * 0x40 + b3 mod 0x40 in
        let v := cp - 0x10000 in
        (0xD800 + v / 0x400) :: (0xDC00 + v mod 0x400) :: utf16_of_utf8 r3
      | _ => []
      end
  end.

Definition utf16 (s : string) : jsstring :=
  utf16_of_utf8 (map N_of_ascii (list_ascii_of_string s)).

Definition LF : cu := 10.

(** ECMAScript LineTerminator: LF, CR, LS, PS. *)
Definition isLineTerminator (c : cu) : bool :=
  (c =? 0x0A) || (c =? 0x0D) || (c =? 0x2028) || (c =? 0x2029).

(** ECMAScript WhiteSpace and LineTerminator together: what [trim] strips
    and what the class escape [\s] matches. *)
Definition isWhiteSpace (c : cu) : bool :=
  (c =? 0x09) || (c =? 0x0B) || (c =? 0x0C) || (c =? 0x20) || (c =? 0xA0)
  || (c =? 0x1680) || ((0x2000 <=? c) && (c <=? 0x200A))
  || (c =? 0x202F) || (c =? 0x205F) || (c =? 0x3000) || (c =? 0xFEFF)
  || isLineTerminator c.

Definition isDigit (c : cu) : bool := (0x30 <=? c) && (c <=? 0x39).

Definition isEmpty (s : jsstring) : bool :=
  match s with [] => true | _ => false end.

(** [String.prototype.trim]. *)
Fixpoint trimStart (s : jsstring) : jsstring :=
  match s with
  | [] => []
  | c :: r => if isWhiteSpace c then trimStart r else s
  end.

Definition trimEnd (s : jsstring) : jsstring := rev (trimStart (rev s)).

Definition trim (s : jsstring) : jsstring := trimEnd (trimStart s).

(** [s.split(sep)] for a one-character separator string. *)
Fixpoint split_on (sep : cu) (s : jsstring) : list jsstring :=
  match s with
  | [] => [[]]
  | c :: r =>
    if c =? sep then [] :: split_on sep r
    else match split_on sep r with
         | l :: ls => (c :: l) :: ls
         | [] => [[c]]
         end
  end.

(** [parts.join(sep)]. *)
Fixpoint join (sep : jsstring) (parts : list jsstring) : jsstring :=
  match parts with
  | [] => []
  | [p] => p
  | p :: ps => p ++ sep ++ join sep ps
  end.

(** [parseInt] on a string of decimal digits.  The source compares the
    result with [1], [2], [3] and [4] only; rounding to a double is monotone
    and exact below 2^53, so the exact integer decides these comparisons the
    same way. *)
Definition parseInt (s : jsstring) : N :=
  fold_left (fun acc c => acc * 10 + (c - 0x30)) s 0.

End JsString.
Export JsString.

(** ** Regular expressions

    The fragment of ECMAScript's pattern syntax that [app.js] uses:
    literals, [.], character classes with [\s] and [\d], greedy and lazy
    bounded repetition of a single-character atom, capture groups, the [^]
    assertion (without the multiline flag) and negative look-around over a
    literal. *)

Module Regex.

Inductive class_item :=
| CChar (c : cu)      (* a literal member *)
| CSpace              (* \s *)
| CDigit.             (* \d *)

Inductive atom :=
| Dot                                          (* .      *)
| Ch (c : cu)                                  (* c      *)
| Cls (negated : bool) (items : list class_item). (* [...] and [^...] *)

Inductive regex :=
| Eps
| Atom (a : atom)
| Seq (r1 r2 : regex)
| Rep (greedy : bool) (min : nat) (max : option nat) (a : atom)
| Group (n : nat) (r : regex)
| Bol                                (* ^ *)
| NotBehind (s : jsstring)           (* (?<!s) *)
| NotAhead (s : jsstring).           (* (?!s)  *)

(** A literal string is the sequence of its characters. *)
Fixpoint lit (s : jsstring) : regex :=
  match s with
  | [] => Eps
  | c :: r => Seq (Atom (Ch c)) (lit r)
  end.

Declare Scope regex_scope.
Delimit Scope regex_scope with re.
Bind Scope regex_scope with regex.
Notation "r1 ;; r2" := (Seq r1 r2) (at level 61, right associativity) : regex_scope.

Definition space : atom := Cls false [CSpace].
Definition digit : atom := Cls false [CDigit].
Definition star (a : atom) : regex := Rep true 0 None a.             (* a*  *)
Definition plus (a : atom) : regex := Rep true 1 None a.             (* a+  *)
Definition plus_lazy (a : atom) : regex := Rep false 1 None a.       (* a+? *)

(** ECMAScript's Canonicalize for the [i] flag without the [u] flag maps a
    code unit to its upper-case form, except that a code unit of 128 or more
    is never mapped below 128.  Every pattern character of the source that is
    matched under [i] is ASCII, U+FF1A or a white-space character, and none
    of the latter is the upper-case form of another character, so mapping
    the ASCII letters alone decides every comparison the same way. *)
Definition canonicalize (ignoreCase : bool) (c : cu) : cu :=
  if ignoreCase && (0x61 <=? c) && (c <=? 0x7A) then c - 0x20 else c.

Section Matcher.

Variable ignoreCase : bool.

Definition item_matches (c : cu) (i : class_item) : bool :=
  match i with
  | CChar p => canonicalize ignoreCase c =? canonicalize ignoreCase p
  | CSpace => isWhiteSpace c
  | CDigit => isDigit c
  end.

Definition atom_matches (a : atom) (c : cu) : bool :=
  match a with
  | Dot => negb (isLineTerminator c)
  | Ch p => canonicalize ignoreCase c =? canonicalize ignoreCase p
  | Cls negated items => xorb negated (existsb (item_matches c) items)
  end.

(** The state of a match: the input before the current position (most
    recent character first), the input after it, and the captures made so
    far (most recent binding first). *)
Record mstate := MState {
  before : jsstring;
  after : jsstring;
  caps : list (nat * jsstring)
}.

Definition cap (n : nat) (x : mstate) : jsstring :=
  match find (fun p => Nat.eqb (fst p) n) (caps x) with
  | Some p => snd p
  | None => []
  end.

Fixpoint starts_with (p s : jsstring) : bool :=
  match p, s with
  | [], _ => true
  | a :: p', b :: s' =>
    (canonicalize ignoreCase b =? canonicalize ignoreCase a) && starts_with p' s'
  | _ :: _, [] => false
  end.

Definition max_allows (max : option nat) : bool :=
  match max with Some O => false | _ => true end.

(** RepeatMatcher for a one-character atom: every way to repeat it between
    [min] and [max] times, longest first when greedy and shortest first when
    lazy. *)
Fixpoint rep (greedy : bool) (a : atom) (min : nat) (max : option nat)
    (b af : jsstring) (cs : list (nat * jsstring)) : list mstate :=
  let stop := match min with O => [MState b af cs] | S _ => [] end in
  let more :=
    match af with
    | c :: r =>
      if max_allows max && atom_matches a c
      then rep greedy a (pred min) (option_map pred max) (c :: b) r cs
      else []
    | [] => []
    end in
  if greedy then more ++ stop else stop ++ more.

(** The characters consumed between two states of one match. *)
Definition consumed (x y : mstate) : jsstring :=
  firstn (length (after x) - length (after y))%nat (after x).

(** All matches of [r] that start in state [x], best first. *)
Fixpoint matches (r : regex) (x : mstate) : list mstate :=
  match r with
  | Eps => [x]
  | Atom a =>
    match after x with
    | c :: rest =>
      if atom_matches a c then [MState (c :: before x) rest (caps x)] else []
    | [] => []
    end
  | Seq r1 r2 => flat_map (matches r2) (matches r1 x)
  | Rep greedy min max a => rep greedy a min max (before x) (after x) (caps x)
  | Group n r1 =>
    map (fun y => MState (before y) (after y) ((n, consumed x y) :: caps y))
        (matches r1 x)
  | Bol => match before x with [] => [x] | _ => [] end
  | NotBehind s => if starts_with (rev s) (before x) then [] else [x]
  | NotAhead s => if starts_with s (after x) then [] else [x]
  end.

(** The match the engine reports at the position of [x], if any. *)
Definition match_at (r : regex) (b af : jsstring) : option mstate :=
  hd_error (matches r (MState b af [])).

(** [RegExp.prototype.exec] from index 0: the first position, scanning left
    to right and including the end of the input, at which the pattern
    matches.  The result is the text before the match and the final state. *)
Fixpoint exec_from (r : regex) (b af : jsstring) : option (jsstring * mstate) :=
  match match_at r b af with
  | Some y => Some (b, y)
  | None =>
    match af with
    | c :: rest => exec_from r (c :: b) rest
    | [] => None
    end
  end.

Definition exec (r : regex) (s : jsstring) : option mstate :=
  option_map snd (exec_from r [] s).

(** [re.test(s)], and the truthiness of [s.match(re)]. *)
Definition test (r : regex) (s : jsstring) : bool :=
  match exec r s with Some _ => true | None => false end.

(** Replacement templates: literal text and [$n]. *)
Inductive titem := TLit (s : jsstring) | TCap (n : nat).

Definition substitute (t : list titem) (y : mstate) : jsstring :=
  flat_map (fun i => match i with TLit s => s | TCap n => cap n y end) t.

(** [s.replace(re, t)] for a pattern without the [g] flag. *)
Definition replace_first (r : regex) (t : list titem) (s : jsstring) : jsstring :=
  match exec_from r [] s with
  | Some (b, y) => rev b ++ substitute t y ++ after y
  | None => s
  end.

(** [s.replace(re, t)] for a pattern with the [g] flag.  [skip] counts the
    characters of the current match that are still to be stepped over; after
    an empty match the engine advances by one code unit. *)
Fixpoint replace_go (r : regex) (t : list titem) (b af : jsstring) (skip : nat)
    : jsstring :=
  match af with
  | [] =>
    match skip with
    | O => match match_at r b [] with Some y => substitute t y | None => [] end
    | S _ => []
    end
  | c :: rest =>
    match skip with
    | S k => replace_go r t (c :: b) rest k
    | O =>
      match match_at r b af with
      | Some y =>
        substitute t y ++
        match (length af - length (after y))%nat with
        | O => c :: replace_go r t (c :: b) rest 0
        | S k => replace_go r t (c :: b) rest k
        end
      | None => c :: replace_go r t (c :: b) rest 0
      end
    end
  end.

Definition replace_all (r : regex) (t : list titem) (s : jsstring) : jsstring :=
  replace_go r t [] s 0.

(** [s.split(re)] for a pattern without capture groups.  [cur] is the piece
    being collected (most recent character first).  A match that ends where
    the current piece starts does not split. *)
Fixpoint split_go (r : regex) (b af : jsstring) (skip : nat) (cur : jsstring)
    : list jsstring :=
  match af with
  | [] => [rev cur]
  | c :: rest =>
    match skip with
    | S k => split_go r (c :: b) rest k cur
    | O =>
      match match_at r b af with
      | Some y =>
        match (length af - length (after y))%nat with
        | O =>
          match cur with
          | [] => split_go r (c :: b) rest 0 [c]
          | _ => rev cur :: split_go r (c :: b) rest 0 [c]
          end
        | S k => rev cur :: split_go r (c :: b) rest k []
        end
      | None => split_go r (c :: b) rest 0 (c :: cur)
      end
    end
  end.

Definition split (r : regex) (s : jsstring) : list jsstring :=
  match s with
  | [] => match match_at r [] [] with Some _ => [] | None => [[]] end
  | _ => split_go r [] s 0 []
  end.

End Matcher.

End Regex.
Export Regex.

(** ** The template parser ([parseTemplate], app.js lines 71-163) *)

Module Parser.

Open Scope regex_scope.

(** The pattern "/^#{2,3}\s*(\d+)\.\s*(.+)/i". *)
Definition header_re : regex := Eval vm_compute in
  Bol ;; Rep true 2 (Some 3%nat) (Ch 0x23) ;; star space ;; Group 1 (plus digit) ;;
  Atom (Ch 0x2E) ;; star space ;; Group 2 (plus Dot).

(** The pattern "/Title[:\s：]+(.+)/i". *)
Definition title_re : regex := Eval vm_compute in
  lit (utf16 "Title") ;; plus (Cls false [CChar 0x3A; CSpace; CChar 0xFF1A]) ;;
  Group 1 (plus Dot).

(** The pattern "/^#{2,3}\s*.*日本語訳/". *)
Definition translation_header_re : regex := Eval vm_compute in
  Bol ;; Rep true 2 (Some 3%nat) (Ch 0x23) ;; star space ;; star Dot ;;
  lit (utf16 "日本語訳").

(** The pattern "/^#{2,3}\s*.*重要単語/". *)
Definition vocab_header_re : regex := Eval vm_compute in
  Bol ;; Rep true 2 (Some 3%nat) (Ch 0x23) ;; star space ;; star Dot ;;
  lit (utf16 "重要単語").

(** The pattern "/^[\*\-]\s*\*\*(.+?)\*\*[:\s：]+(.+)/". *)
Definition vocab_re : regex := Eval vm_compute in
  Bol ;; Atom (Cls false [CChar 0x2A; CChar 0x2D]) ;; star space ;;
  lit (utf16 "**") ;; Group 1 (plus_lazy Dot) ;; lit (utf16 "**") ;;
  plus (Cls false [CChar 0x3A; CSpace; CChar 0xFF1A]) ;; Group 2 (plus Dot).

(** The pattern "/^#{2,3}\s/". *)
Definition subheader_re : regex := Eval vm_compute in
  Bol ;; Rep true 2 (Some 3%nat) (Ch 0x23) ;; Atom space.

(** The pattern "/^#{2,3}\s*/". *)
Definition marker_re : regex := Eval vm_compute in
  Bol ;; Rep true 2 (Some 3%nat) (Ch 0x23) ;; star space.

(** The pattern "/タイトル[：:]\s*/". *)
Definition label_re : regex := Eval vm_compute in
  lit (utf16 "タイトル") ;; Atom (Cls false [CChar 0xFF1A; CChar 0x3A]) ;; star space.

(** The values of [currentSection]; [SNone] is the initial [null]. *)
Inductive section := SNone | STitle | SEnglish | SVocab | STranslation.

Record vocab_item := VocabItem { word : jsstring; meaning : jsstring }.

(** The local variables of [parseTemplate] that the loop updates. *)
Record pstate := PState {
  title : jsstring;
  englishBody : jsstring;
  vocabItems : list vocab_item;
  translationText : jsstring;
  currentSection : section
}.

Definition initial : pstate := PState [] [] [] [] SNone.

Definition set_section (st : pstate) (s : section) : pstate :=
  PState (title st) (englishBody st) (vocabItems st) (translationText st) s.

Definition set_title (st : pstate) (t : jsstring) : pstate :=
  PState t (englishBody st) (vocabItems st) (translationText st) (currentSection st).

Definition add_english (st : pstate) (s : jsstring) : pstate :=
  PState (title st) (englishBody st ++ s) (vocabItems st) (translationText st)
         (currentSection st).

Definition push_vocab (st : pstate) (v : vocab_item) : pstate :=
  PState (title st) (englishBody st) (vocabItems st ++ [v]) (translationText st)
         (currentSection st).

Definition add_translation (st : pstate) (s : jsstring) : pstate :=
  PState (title st) (englishBody st) (vocabItems st) (translationText st ++ s)
         (currentSection st).

(** Lines 85-107: a numbered header selects a section and ends the
    iteration ([Some]); any other line, and a numbered header whose number
    is not 1 to 4, falls through ([None]). *)
Definition header_step (st : pstate) (trimmed : jsstring) : option pstate :=
  match exec true header_re trimmed with
  | Some headerMatch =>
    let sectionNum := parseInt (cap 1 headerMatch) in
    let sectionContent := trim (cap 2 headerMatch) in
    if sectionNum =? 1 then
      let t := match exec true title_re sectionContent with
               | Some titleMatch => trim (cap 1 titleMatch)
               | None => sectionContent
               end in
      Some (set_section (set_title st t) STitle)
    else if sectionNum =? 2 then Some (set_section st SEnglish)
    else if sectionNum =? 3 then Some (set_section st SVocab)
    else if sectionNum =? 4 then Some (set_section st STranslation)
    else None
  | None => None
  end.

(** Line 142: the sub-title of a header line inside the translation. *)
Definition subTitle_of (trimmed : jsstring) : jsstring :=
  replace_first false label_re [] (replace_first false marker_re [] trimmed).

(** Lines 121-149: a line that is no section boundary is collected into
    the current section. *)
Definition collect (st : pstate) (line trimmed : jsstring) : pstate :=
  match currentSection st with
  | SNone => st
  | STitle =>
    if negb (isEmpty trimmed) && isEmpty (title st) then set_title st trimmed else st
  | SEnglish => add_english st (line ++ [LF])
  | SVocab =>
    match exec false vocab_re trimmed with
    | Some vocabMatch =>
      push_vocab st (VocabItem (trim (cap 1 vocabMatch)) (trim (cap 2 vocabMatch)))
    | None => st
    end
  | STranslation =>
    if test false subheader_re trimmed then
      let subTitle := subTitle_of trimmed in
      if negb (isEmpty subTitle)
      then add_translation st (utf16 "**" ++ subTitle ++ utf16 "**" ++ [LF; LF])
      else st
    else add_translation st (line ++ [LF])
  end.

(** One iteration of the loop over the lines. *)
Definition step (st : pstate) (line : jsstring) : pstate :=
  let trimmed := trim line in
  match header_step st trimmed with
  | Some st' => st'
  | None =>
    if test false translation_header_re trimmed then set_section st STranslation
    else if test false vocab_header_re trimmed then set_section st SVocab
    else collect st line trimmed
  end.

(** The state after the loop. *)
Definition scan (text : jsstring) : pstate :=
  fold_left step (split_on LF text) initial.

(** The record [parseTemplate] returns. *)
Module Parsed.
Record t := Make {
  title : jsstring;
  english : jsstring;
  vocab : list vocab_item;
  translation : jsstring
}.
End Parsed.

(** [parseTemplate]: [None] is the source's [null]. *)
Definition parseTemplate (text : jsstring) : option Parsed.t :=
  let st := scan text in
  if isEmpty (title st) || isEmpty (trim (englishBody st)) then None
  else Some (Parsed.Make (title st) (trim (englishBody st)) (vocabItems st)
                         (trim (translationText st))).

End Parser.
Export Parser.

(** ** The renderer ([markdownToHtml], app.js lines 169-186) *)

Module Renderer.

Open Scope regex_scope.

(** The argument of [markdownToHtml]: a string, or [undefined]. *)
Inductive arg := Undefined | Str (s : jsstring).

(** The pattern "/\*\*(.+?)\*\*/g". *)
Definition bold_re : regex := Eval vm_compute in
  lit (utf16 "**") ;; Group 1 (plus_lazy Dot) ;; lit (utf16 "**").

(** The italic pattern of line 176, with the [g] flag: not preceded by an
    asterisk; an asterisk; group 1, one or more characters other than an
    asterisk, as few as possible; an asterisk; not followed by an asterisk. *)
Definition italic_re : regex := Eval vm_compute in
  NotBehind (utf16 "*") ;; Atom (Ch 0x2A) ;;
  Group 1 (plus_lazy (Cls true [CChar 0x2A])) ;; Atom (Ch 0x2A) ;;
  NotAhead (utf16 "*").

(** The pattern "/\n{2,}/". *)
Definition paragraph_re : regex := Rep true 2 None (Ch LF).

(** The pattern "/(?<!<\/p>)\n(?!<p>)/g". *)
Definition br_re : regex := Eval vm_compute in
  NotBehind (utf16 "</p>") ;; Atom (Ch LF) ;; NotAhead (utf16 "<p>").

Definition p_open : jsstring := Eval vm_compute in utf16 "<p>".
Definition p_close : jsstring := Eval vm_compute in utf16 "</p>".

Definition strong_tpl : list titem := Eval vm_compute in
  [TLit (utf16 "<strong>"); TCap 1; TLit (utf16 "</strong>")].
Definition em_tpl : list titem := Eval vm_compute in
  [TLit (utf16 "<em>"); TCap 1; TLit (utf16 "</em>")].
Definition br_tpl : list titem := Eval vm_compute in [TLit (utf16 "<br>")].

Definition paragraph (para : jsstring) : jsstring :=
  p_open ++ trim para ++ p_close.

Definition markdownToHtml (text : arg) : jsstring :=
  match text with
  | Undefined => []
  | Str [] => []
  | Str s =>
    let html :=
      join [LF]
        (map paragraph
           (split false paragraph_re
              (replace_all false italic_re em_tpl
                 (replace_all false bold_re strong_tpl s)))) in
    replace_all false br_re br_tpl html
  end.

End Renderer.
Export Renderer.

(** ** Section boundaries and inputs used in the statements *)

Module Statements.

(** The number of a numbered header line, if the line is one. *)
Definition header_num (trimmed : jsstring) : option N :=
  option_map (fun headerMatch => parseInt (cap 1 headerMatch))
             (exec true header_re trimmed).

(** The section a line switches to, if the loop treats it as a boundary
    (the [continue] statements of lines 96-118). *)
Definition switches_to (line : jsstring) : option section :=
  let trimmed := trim line in
  match header_step initial trimmed with
  | Some st' => Some (currentSection st')
  | None =>
    if test false translation_header_re trimmed then Some STranslation
    else if test false vocab_header_re trimmed then Some SVocab
    else None
  end.

Definition opens_vocab_or_translation (line : jsstring) : bool :=
  match switches_to line with
  | Some SVocab | Some STranslation => true
  | _ => false
  end.

(** Membership in the class "[:\s：]" of the vocabulary pattern. *)
Definition is_sep (c : cu) : bool :=
  atom_matches false (Cls false [CChar 0x3A; CSpace; CChar 0xFF1A]) c.

(** The marker that starts a sub-header. *)
Inductive marker : list N -> Prop :=
| marker2 : marker [35; 35]
| marker3 : marker [35; 35; 35].

(** The second replacement of line 142. *)
Definition strip_label (s : jsstring) : jsstring :=
  replace_first false label_re [] s.

(** What line 144 appends for a sub-title. *)
Definition bold_paragraph (s : jsstring) : jsstring :=
  utf16 "**" ++ s ++ utf16 "**" ++ [LF; LF].

(** No line that the loop reads while the vocabulary section is active
    matches the vocabulary pattern. *)
Fixpoint vocab_section_unmatched (st : pstate) (lines : list jsstring) : bool :=
  match lines with
  | [] => true
  | l :: ls =>
    match currentSection st with
    | SVocab => negb (test false vocab_re (trim l))
    | _ => true
    end && vocab_section_unmatched (step st l) ls
  end.

(** A string has no white space at either end. *)
Definition clean (s : jsstring) : Prop :=
  (forall c r, s = c :: r -> isWhiteSpace c = false) /\
  (forall r c, s = r ++ [c] -> isWhiteSpace c = false).

Definition lines_text (ls : list string) : jsstring := join [LF] (map utf16 ls).

(** Scenario A of the specification. *)
Definition scenario_A : jsstring := lines_text
  ["### 1. Title: The Lost Key";
   "### 2. English Short Story";
   "She found a **rusty** key.";
   "### 3. 重要単語ピックアップ";
   "* **rusty**: covered with rust";
   "### 4. 日本語訳";
   "彼女は錆びた鍵を見つけた。"]%string.

(** A template with a title and a body only. *)
Definition scenario_B : jsstring := lines_text
  ["### 1. Title: The Lost Key";
   "### 2. English Short Story";
   "She found a key."]%string.

(** A template whose vocabulary section has no bullet line. *)
Definition no_bullets : jsstring := lines_text
  ["### 1. Title: The Lost Key";
   "### 2. English Short Story";
   "She found a key.";
   "### 3. Vocabulary";
   "rusty - covered with rust"]%string.

(** A numbered header with an unknown number inside the body. *)
Definition extra_section : jsstring := lines_text
  ["### 1. Title: The Lost Key";
   "### 2. English Short Story";
   "She found a key.";
   "### 5. Notes";
   "It was old."]%string.

(** The loop state inside the body of a story. *)
Definition in_body : pstate :=
  PState (utf16 "The Lost Key") (utf16 "She found a key." ++ [LF]) [] [] SEnglish.

(** The loop state inside the translation. *)
Definition in_translation : pstate :=
  PState (utf16 "The Lost Key") (utf16 "She found a key." ++ [LF]) []
         (utf16 "彼女は鍵を見つけた。" ++ [LF]) STranslation.

(** The loop state inside the vocabulary. *)
Definition in_vocab : pstate :=
  PState (utf16 "The Lost Key") (utf16 "She found a key." ++ [LF]) [] [] SVocab.

(** A vocabulary line of the documented form without the bullet. *)
Definition no_bullet : jsstring := lines_text
  ["### 1. Title: The Lost Key";
   "### 2. English Short Story";
   "She found a key.";
   "### 3. Vocabulary";
   "**rusty**: covered with rust"]%string.

(** A vocabulary line whose bold markers enclose a blank. *)
Definition blank_word : jsstring := lines_text
  ["### 1. Title: The Lost Key";
   "### 2. English Short Story";
   "She found a key.";
   "### 3. Vocabulary";
   "* ** **: covered with rust"]%string.

(** What the vocabulary of a record is shown to satisfy. *)
Definition entry_trimmed (v : vocab_item) : Prop :=
  meaning v <> [] /\ clean (word v) /\ clean (meaning v).

(** A paragraph container around a body. *)
Definition container (body : jsstring) : jsstring := p_open ++ body ++ p_close.

(** Text that carries markup of its own. *)
Definition injected : jsstring := utf16 "<img src=x onerror=alert(1)>".

End Statements.
Export Statements.

(** ** Shapes of input used by the lemmas on the patterns *)

Module Shapes.

(** Every character of [w] is matched by the atom. *)
Definition run (ic : bool) (a : atom) (w : list N) : Prop :=
  Forall (fun c => atom_matches ic a c = true) w.

(** The remaining input does not continue a run of the atom. *)
Definition stops (ic : bool) (a : atom) (rest : list N) : Prop :=
  match rest with [] => True | c :: _ => atom_matches ic a c = false end.

(** No white space at the end. *)
Definition tidy_end (s : list N) : Prop :=
  forall r c, s = r ++ [c] -> isWhiteSpace c = false.

(** The parts of the vocabulary pattern: the bullet class, the bold
    markers, the word group, the separator class and the meaning group. *)
Definition bullet_class : atom := Cls false [CChar 0x2A; CChar 0x2D].
Definition bold_mark : regex := Seq (Atom (Ch 42)) (Seq (Atom (Ch 42)) Eps).
Definition word_group : regex := Group 1 (Rep false 1 None Dot).
Definition sep : atom := Cls false [CChar 0x3A; CSpace; CChar 0xFF1A].
Definition meaning_group : regex := Group 2 (plus Dot).
Definition meaning_tail : regex := Seq (plus sep) meaning_group.

(** The second capture starts with a character that is no white space. *)
Definition meaning_starts (z : mstate) : Prop :=
  exists c r, cap 2 z = c :: r /\ isWhiteSpace c = false.

(** The loop has seen neither the vocabulary nor the translation. *)
Definition outside_glossary (st : pstate) : Prop :=
  currentSection st <> SVocab /\ currentSection st <> STranslation /\
  vocabItems st = [] /\ translationText st = [].

End Shapes.
Export Shapes.

(** ** Further statements about the parser *)

Module ParserStatements.

(** The capture [n] of a match starts with a character that is no white
    space. *)
Definition starts_clean (n : nat) (z : mstate) : Prop :=
  exists c r, cap n z = c :: r /\ isWhiteSpace c = false.

(** The atom matches every white-space character. *)
Definition absorbs_space (ic : bool) (a : atom) : Prop :=
  forall c, isWhiteSpace c = true -> atom_matches ic a c = true.

(** The line is a numbered header with the number [k]. *)
Definition header_is (k : N) (line : jsstring) : bool :=
  match header_num (trim line) with
  | Some n => n =? k
  | None => false
  end.

(** What the loop has collected is trimmed where the source trims it: the
    title has no white space at its ends, and it is there whenever the title
    section is active. *)
Definition title_kept (st : pstate) : Prop :=
  clean (title st) /\ (currentSection st = STitle -> title st <> []).

(** Nothing has selected the title yet. *)
Definition no_title_yet (st : pstate) : Prop :=
  title st = [] /\ currentSection st <> STitle.

(** Nothing has selected the body yet. *)
Definition no_body_yet (st : pstate) : Prop :=
  englishBody st = [] /\ currentSection st <> SEnglish.

(** The text that the body section collects from a list of lines. *)
Definition with_terminators (lines : list jsstring) : jsstring :=
  flat_map (fun l => l ++ [LF]) lines.

(** The line is a numbered header with one of the numbers 1 to 4. *)
Definition numbered_boundary (line : jsstring) : bool :=
  header_is 1 line || header_is 2 line || header_is 3 line || header_is 4 line.

(** The line is no section boundary. *)
Definition plain_line (line : jsstring) : bool :=
  match switches_to line with None => true | Some _ => false end.

(** The line is no section boundary and no sub-header. *)
Definition plain_translation_line (line : jsstring) : bool :=
  plain_line line && negb (test false subheader_re (trim line)).

Definition no_line_feed (line : jsstring) : bool :=
  forallb (fun c => negb (c =? LF)) line.

(** A template with a title and a body only, and one that goes on with a
    vocabulary section. *)
Definition title_and_body (t : jsstring) (body : list jsstring) : list jsstring :=
  [utf16 "### 1. Title: " ++ t; utf16 "### 2. English Short Story"] ++ body.

Definition with_glossary (t : jsstring) (body glossary : list jsstring)
    : list jsstring :=
  title_and_body t body ++ [utf16 "### 3. 重要単語ピックアップ"] ++ glossary.

(** The line is no section boundary and does not match the vocabulary
    pattern. *)
Definition unmatched_line (line : jsstring) : bool :=
  plain_line line && negb (test false vocab_re (trim line)).

(** A template in the format that the comment of lines 62-69 and the
    message of line 479 document. *)
Definition entry_line (e : vocab_item) : jsstring :=
  utf16 "* **" ++ word e ++ utf16 "**: " ++ meaning e.

Definition template (t : jsstring) (body : list jsstring)
    (entries : list vocab_item) (translation : list jsstring) : list jsstring :=
  [utf16 "### 1. Title: " ++ t; utf16 "### 2. English Short Story"] ++ body ++
  [utf16 "### 3. 重要単語ピックアップ"] ++ map entry_line entries ++
  [utf16 "### 4. 日本語訳"] ++ translation.

(** A text that the parser returns as it is: no line terminator, a first
    character that is no separator, no white space at the end. *)
Definition field (s : jsstring) : Prop :=
  (exists c r, s = c :: r /\ is_sep c = false) /\
  Forall (fun d => isLineTerminator d = false) s /\
  tidy_end s.

(** A word that the parser returns as it is. *)
Definition plain_word (s : jsstring) : Prop :=
  s <> [] /\ clean s /\
  Forall (fun d => isLineTerminator d = false) s /\
  Forall (fun d => d <> 42) s.

Definition plain_entry (e : vocab_item) : Prop :=
  plain_word (word e) /\ field (meaning e).

End ParserStatements.
Export ParserStatements.

(** ** Further statements about the renderer *)

Module RendererStatements.

(** Text without asterisks and line feeds. *)
Definition plain_text (s : jsstring) : Prop :=
  Forall (fun c => c <> 42 /\ c <> LF) s.

Definition strong (w : jsstring) : jsstring :=
  utf16 "<strong>" ++ w ++ utf16 "</strong>".

Definition em (w : jsstring) : jsstring :=
  utf16 "<em>" ++ w ++ utf16 "</em>".



End RendererStatements.
Export RendererStatements.

(** ** The state of the application and its event handlers *)

Module App.

(** A chapter and a story, as the submit handler builds them (lines 483
    to 489 and 506 to 512).  The two [id] fields are strings made by
    [generateId]; the times are values of [Date.now()]. *)
Record chapter := Chapter {
  chapter_id : jsstring;
  english : jsstring;
  vocab : list vocab_item;
  translation : jsstring;
  addedAt : N
}.

Record story := Story {
  story_id : jsstring;
  title : jsstring;
  chapters : list chapter;
  createdAt : N;
  updatedAt : N
}.

(** The element that carries the class [active]. *)
Inductive view := ViewList | ViewReader | ViewAdd | ViewSettings.

(** The variables of the closure: [stories] and [addingToStoryId] (lines 7
    and 8), [currentStoryId] and [currentChapterIndex] (lines 240 and 241),
    and the active view.  [None] is [null]. *)
Record app := Make {
  stories : list story;
  addingToStoryId : option jsstring;
  currentStoryId : option jsstring;
  currentChapterIndex : Z;
  active : view
}.

(** Truthiness of a value that is [null] or a string. *)
Definition truthy (x : option jsstring) : bool :=
  match x with Some (_ :: _) => true | _ => false end.

(** [s.id === storyId]. *)
Definition same_id (storyId : option jsstring) (s : story) : bool :=
  match storyId with
  | Some i => if list_eq_dec N.eq_dec (story_id s) i then true else false
  | None => false
  end.

(** [stories.find(s => s.id === storyId)]. *)
Definition find_story (storyId : option jsstring) (l : list story) : option story :=
  find (same_id storyId) l.

(** [navigateTo]: the state it changes is the active view. *)
Definition navigateTo (v : view) (a : app) : app :=
  Make (stories a) (addingToStoryId a) (currentStoryId a) (currentChapterIndex a) v.

(** What [renderChapter] writes: the title, the numbers of the chapter
    line (absent when the line is emptied), the story text, the entries of
    the word list (absent when the placeholder is shown), the translation
    (likewise) and, when the chapter navigation is shown, whether the two
    buttons are disabled.  The markup around the entries of the word list
    is assembled with [escapeHtml], which the browser implements; it is not
    part of this record. *)
Record reader := Reader {
  reader_title : jsstring;
  reader_chapter_info : option (Z * Z);
  reader_text : jsstring;
  vocab_content : option (list vocab_item);
  translation_content : option jsstring;
  chapter_nav : option (bool * bool)
}.

(** [story.chapters[currentChapterIndex]]. *)
Definition chapter_at (s : story) (i : Z) : option chapter :=
  if (i <? 0)%Z then None else nth_error (chapters s) (Z.to_nat i).

(** [renderChapter]: [None] where the function returns before it writes
    anything. *)
Definition renderChapter (a : app) : option reader :=
  match find_story (currentStoryId a) (stories a) with
  | None => None
  | Some s =>
    match chapter_at s (currentChapterIndex a) with
    | None => None
    | Some c =>
      let i := currentChapterIndex a in
      let totalChapters := Z.of_nat (length (chapters s)) in
      Some (Reader
        (title s)
        (if (1 <? totalChapters)%Z then Some ((i + 1)%Z, totalChapters) else None)
        (markdownToHtml (Str (english c)))
        (match vocab c with [] => None | v => Some v end)
        (match translation c with
         | [] => None
         | t => Some (markdownToHtml (Str t))
         end)
        (if (1 <? totalChapters)%Z
         then Some ((i =? 0)%Z, (i =? totalChapters - 1)%Z)
         else None))
    end
  end.

(** [openReader]. *)
Definition openReader (storyId : option jsstring) (a : app) : app :=
  match find_story storyId (stories a) with
  | None => a
  | Some _ =>
    navigateTo ViewReader (Make (stories a) (addingToStoryId a) storyId 0%Z (active a))
  end.

(** The click handlers of the two chapter buttons (lines 312 to 325). *)
Definition prevChapter (a : app) : app :=
  if (0 <? currentChapterIndex a)%Z
  then Make (stories a) (addingToStoryId a) (currentStoryId a)
            (currentChapterIndex a - 1)%Z (active a)
  else a.

Definition nextChapter (a : app) : app :=
  match find_story (currentStoryId a) (stories a) with
  | Some s =>
    if (currentChapterIndex a <? Z.of_nat (length (chapters s)) - 1)%Z
    then Make (stories a) (addingToStoryId a) (currentStoryId a)
              (currentChapterIndex a + 1)%Z (active a)
    else a
  | None => a
  end.

(** The click handler of the delete button (lines 355 to 364);
    [confirmed] is the answer to the dialog. *)
Definition deleteStory (confirmed : bool) (a : app) : app :=
  if confirmed
  then navigateTo ViewList
         (Make (filter (fun s => negb (same_id (currentStoryId a) s)) (stories a))
               (addingToStoryId a) (currentStoryId a) (currentChapterIndex a)
               (active a))
  else a.

(** [openAddView]. *)
Definition openAddView (existingStoryId : option jsstring) (a : app) : app :=
  navigateTo ViewAdd
    (Make (stories a) existingStoryId (currentStoryId a) (currentChapterIndex a)
          (active a)).

(** The back button of the add view (lines 461 to 467). *)
Definition addBack (a : app) : app :=
  if truthy (addingToStoryId a)
  then openReader (addingToStoryId a) a
  else navigateTo ViewList a.

(** The first story for which [p] holds is replaced by its image under
    [f]: what a mutation of the object that [find] returns does to the
    array. *)
Fixpoint update_first (p : story -> bool) (f : story -> story) (l : list story)
    : list story :=
  match l with
  | [] => []
  | s :: r => if p s then f s :: r else s :: update_first p f r
  end.

(** [story.chapters.push(chapter); story.updatedAt = Date.now()]. *)
Definition push_chapter (c : chapter) (now : N) (s : story) : story :=
  Story (story_id s) (title s) (chapters s ++ [c]) (createdAt s) now.

(** The submit handler of the form (lines 470 to 516).  [value] is the
    content of the text area; [chapterId] and [storyId] are the results of
    the calls of [generateId], and [now1], [now2], [now3] those of the
    calls of [Date.now()], in the order of the calls. *)
Definition submit (value chapterId storyId : jsstring) (now1 now2 now3 : N)
    (a : app) : app :=
  let input := trim value in
  match input with
  | [] => a
  | _ =>
    match parseTemplate input with
    | None => a
    | Some parsed =>
      let chapter :=
        Chapter chapterId (Parsed.english parsed) (Parsed.vocab parsed)
                (Parsed.translation parsed) now1 in
      if truthy (addingToStoryId a) then
        match find_story (addingToStoryId a) (stories a) with
        | Some s =>
          openReader (addingToStoryId a)
            (Make (update_first (same_id (addingToStoryId a))
                                (push_chapter chapter now2) (stories a))
                  (addingToStoryId a) (currentStoryId a)
                  (Z.of_nat (length (chapters (push_chapter chapter now2 s))) - 1)%Z
                  (active a))
        | None => a
        end
      else
        let s := Story storyId (Parsed.title parsed) [chapter] now2 now3 in
        openReader (Some (story_id s))
          (Make (stories a ++ [s]) (addingToStoryId a) (currentStoryId a)
                (currentChapterIndex a) (active a))
    end
  end.

(** The import of a backup (lines 546 to 570), from the point where the
    file has been read and its [stories] array found; [confirmed] is the
    answer to the dialog. *)
Definition importBackup (data : list story) (confirmed : bool) (a : app) : app :=
  if confirmed
  then navigateTo ViewList
         (Make data (addingToStoryId a) (currentStoryId a) (currentChapterIndex a)
               (active a))
  else a.

(** The events of the page that reach these handlers. *)
Inductive event :=
| ClickCard (storyId : jsstring)
| ClickPrev
| ClickNext
| ClickBack
| ClickAddChapter
| ClickDelete (confirmed : bool)
| ClickFab
| ClickAddBack
| Submit (value chapterId storyId : jsstring) (now1 now2 now3 : N)
| ClickSettings
| ClickSettingsBack
| Import (data : list story) (confirmed : bool).

Definition handle (a : app) (e : event) : app :=
  match e with
  | ClickCard i => openReader (Some i) a
  | ClickPrev => prevChapter a
  | ClickNext => nextChapter a
  | ClickBack => navigateTo ViewList a
  | ClickAddChapter => openAddView (currentStoryId a) a
  | ClickDelete confirmed => deleteStory confirmed a
  | ClickFab => openAddView None a
  | ClickAddBack => addBack a
  | Submit value chapterId storyId now1 now2 now3 =>
    submit value chapterId storyId now1 now2 now3 a
  | ClickSettings => navigateTo ViewSettings a
  | ClickSettingsBack => navigateTo ViewList a
  | Import data confirmed => importBackup data confirmed a
  end.

(** The state after the page has loaded with the given stored stories. *)
Definition loaded (stored : list story) : app :=
  Make stored None None 0%Z ViewList.

(** *** The theme *)

(** The [data-theme] attribute of the document and the stored theme;
    [None] is [null]. *)
Record theme := Theme {
  data_theme : option jsstring;
  storyReader_theme : option jsstring
}.

Definition dark : jsstring := Eval vm_compute in utf16 "dark".
Definition light : jsstring := Eval vm_compute in utf16 "light".

Definition is_dark (x : option jsstring) : bool :=
  match x with
  | Some s => if list_eq_dec N.eq_dec s dark then true else false
  | None => false
  end.

(** [initTheme]. *)
Definition initTheme (t : theme) : theme :=
  let saved := if truthy (storyReader_theme t) then storyReader_theme t else Some dark in
  Theme saved (storyReader_theme t).

(** [toggleTheme]. *)
Definition toggleTheme (t : theme) : theme :=
  let next := if is_dark (data_theme t) then light else dark in
  Theme (Some next) (Some next).

(** *** Statements *)

(** Every story has a chapter. *)
Definition has_chapter (s : story) : Prop := chapters s <> [].

(** The events that install stories install stories with chapters. *)
Definition sound (e : event) : Prop :=
  match e with
  | Import data _ => Forall has_chapter data
  | _ => True
  end.

(** While the reader is the active view there is a chapter to show. *)
Definition reader_shows (a : app) : Prop :=
  active a = ViewReader -> exists r, renderChapter a = Some r.

(** What the handlers keep. *)
Definition kept (a : app) : Prop :=
  Forall has_chapter (stories a) /\ reader_shows a.

(** No story has the identifier. *)
Definition fresh (i : jsstring) (l : list story) : Prop :=
  Forall (fun s => story_id s <> i) l.

End App.

(** ** Proof steps that recur *)

(** Case analysis on the outcome of a look-around, or of the test of a
    conditional. *)
Ltac case_look :=
  match goal with
  | |- context [starts_with ?ic ?p ?s] => destruct (starts_with ic p s)
  | |- context [if ?c then _ else _] => destruct c
  end.

(** Case analysis on the scrutinee of a match in the goal. *)
Ltac break_match :=
  match goal with
  | |- context [match ?x with _ => _ end] => destruct x eqn:?
  end.

(** ** Facts about lists of matches *)

Module MatchFacts.

Lemma hd_error_app (A : Type) (l1 l2 : list A) :
  hd_error (l1 ++ l2) =
  match hd_error l1 with Some y => Some y | None => hd_error l2 end.
Proof. destruct l1; reflexivity. Qed.

Lemma hd_error_flat_map_cons (A B : Type) (f : A -> list B) (x : A) (l : list A) :
  hd_error (flat_map f (x :: l)) =
  match hd_error (f x) with Some y => Some y | None => hd_error (flat_map f l) end.
Proof. simpl. apply hd_error_app. Qed.

(** The first match of a sequence comes from some match of its first part. *)
Lemma hd_error_flat_map_in (A B : Type) (f : A -> list B) (l : list A) (z : B) :
  hd_error (flat_map f l) = Some z ->
  exists x, In x l /\ hd_error (f x) = Some z.
Proof.
  induction l as [|x l IH]; simpl; [discriminate|].
  rewrite hd_error_app.
  destruct (hd_error (f x)) eqn:E.
  - intros [= <-]. exists x. auto.
  - intros H. destruct (IH H) as (x' & Hin & Hx'). exists x'. auto.
Qed.

Lemma hd_error_nil_inv (A : Type) (l : list A) : hd_error l = None -> l = [].
Proof. destruct l; [reflexivity|discriminate]. Qed.

End MatchFacts.
Import MatchFacts.

(** ** Facts about the matcher *)

Module RegexFacts.

Section Engine.

Variable ic : bool.

Lemma flat_map_map (A B C : Type) (g : A -> B) (f : B -> list C) (l : list A) :
  flat_map f (map g l) = flat_map (fun x => f (g x)) l.
Proof. induction l as [|x l IH]; simpl; [reflexivity|]. now rewrite IH. Qed.

Lemma matches_seq r1 r2 x :
  matches ic (Seq r1 r2) x = flat_map (matches ic r2) (matches ic r1 x).
Proof. reflexivity. Qed.

Lemma matches_atom a b c af cs :
  matches ic (Atom a) (MState b (c :: af) cs) =
  if atom_matches ic a c then [MState (c :: b) af cs] else [].
Proof. reflexivity. Qed.

Lemma flat_map_assoc (A B C : Type) (g : A -> list B) (f : B -> list C) (l : list A) :
  flat_map f (flat_map g l) = flat_map (fun x => flat_map f (g x)) l.
Proof.
  induction l as [|x l IH]; simpl; [reflexivity|].
  now rewrite flat_map_app, IH.
Qed.

Lemma matches_seq_assoc r1 r2 r3 x :
  matches ic (Seq (Seq r1 r2) r3) x = matches ic (Seq r1 (Seq r2 r3)) x.
Proof. cbn [matches]. apply flat_map_assoc. Qed.

Lemma matches_seq_eps r x : matches ic (Seq Eps r) x = matches ic r x.
Proof. cbn [matches flat_map]. apply app_nil_r. Qed.

Lemma matches_seq_atom a r b c af cs :
  matches ic (Seq (Atom a) r) (MState b (c :: af) cs) =
  if atom_matches ic a c then matches ic r (MState (c :: b) af cs) else [].
Proof.
  cbn [matches after before caps]. destruct (atom_matches ic a c); cbn [flat_map];
    [apply app_nil_r|reflexivity].
Qed.

Lemma matches_seq_rep g mn mx a r b af cs :
  matches ic (Seq (Rep g mn mx a) r) (MState b af cs) =
  flat_map (matches ic r) (rep ic g a mn mx b af cs).
Proof. reflexivity. Qed.

Lemma matches_notbehind s x :
  matches ic (NotBehind s) x = if starts_with ic (rev s) (before x) then [] else [x].
Proof. reflexivity. Qed.

Lemma exec_from_here r b af y :
  match_at ic r b af = Some y -> exec_from ic r b af = Some (b, y).
Proof. intros H. destruct af; cbn [exec_from]; now rewrite H. Qed.

Lemma matches_rep g mn mx a b af cs :
  matches ic (Rep g mn mx a) (MState b af cs) = rep ic g a mn mx b af cs.
Proof. reflexivity. Qed.

Lemma matches_group n r x :
  matches ic (Group n r) x =
  map (fun y => MState (before y) (after y) ((n, consumed x y) :: caps y))
      (matches ic r x).
Proof. reflexivity. Qed.

(** A repetition only moves forward in the input and keeps the captures. *)
Lemma rep_after g a af : forall mn mx b cs y,
  In y (rep ic g a mn mx b af cs) ->
  exists w, af = w ++ after y /\ before y = rev w ++ b /\ caps y = cs.
Proof.
  induction af as [|c r IH]; intros mn mx b cs y; cbn [rep].
  - destruct mn; destruct g; cbn; try tauto;
      intros [<-|[]]; exists []; auto.
  - intros H.
    assert (Hstop : In y (match mn with O => [MState b (c :: r) cs] | S _ => [] end) ->
                    exists w, c :: r = w ++ after y /\ before y = rev w ++ b /\ caps y = cs).
    { destruct mn; cbn; [|tauto]. intros [<-|[]]. exists []. auto. }
    assert (Hmore : In y (if max_allows mx && atom_matches ic a c
                          then rep ic g a (pred mn) (option_map pred mx) (c :: b) r cs
                          else []) ->
                    exists w, c :: r = w ++ after y /\ before y = rev w ++ b /\ caps y = cs).
    { destruct (max_allows mx && atom_matches ic a c); cbn; [|tauto].
      intros Hin. apply IH in Hin as (w & -> & -> & ->).
      exists (c :: w). cbn. rewrite <- app_assoc. auto. }
    destruct g; apply in_app_or in H as [H|H]; auto.
Qed.

(** Every match consumes a prefix of the remaining input. *)
Lemma matches_after r : forall x y,
  In y (matches ic r x) -> exists w, after x = w ++ after y.
Proof.
  induction r as [|a|r1 IH1 r2 IH2|g mn mx a|n r IH| |s|s]; intros x y; cbn [matches].
  - intros [<-|[]]. now exists [].
  - destruct (after x) as [|c rest] eqn:E; [intros []|].
    destruct (atom_matches ic a c); [|intros []].
    intros [<-|[]]. now exists [c].
  - intros H. apply in_flat_map in H as (y1 & H1 & H2).
    apply IH1 in H1 as (w1 & ->). apply IH2 in H2 as (w2 & ->).
    exists (w1 ++ w2). now rewrite app_assoc.
  - intros H. apply rep_after in H as (w & -> & _). now exists w.
  - intros H. apply in_map_iff in H as (y1 & <- & H1). cbn. now apply IH.
  - destruct (before x); [|intros []]. intros [<-|[]]. now exists [].
  - destruct (starts_with ic (rev s) (before x)); [intros []|].
    intros [<-|[]]. now exists [].
  - destruct (starts_with ic s (after x)); [intros []|].
    intros [<-|[]]. now exists [].
Qed.

(** A pattern that starts with [^] matches at the start of the input or
    not at all. *)
Lemma exec_from_bol_later r af : forall b,
  b <> [] -> exec_from ic (Seq Bol r) b af = None.
Proof.
  induction af as [|c rest IH]; intros b Hb; cbn [exec_from];
    unfold match_at; cbn [matches before]; destruct b; try congruence; cbn.
  - reflexivity.
  - apply IH. discriminate.
Qed.

Lemma exec_from_bol r s :
  exec_from ic (Seq Bol r) [] s =
  option_map (fun y => ([], y)) (hd_error (matches ic r (MState [] s []))).
Proof.
  destruct s as [|c rest]; cbn [exec_from]; unfold match_at;
    cbn [matches before flat_map]; rewrite app_nil_r;
    destruct (hd_error (matches ic r _)); try reflexivity.
  rewrite exec_from_bol_later by discriminate. reflexivity.
Qed.

Lemma exec_bol r s :
  exec ic (Seq Bol r) s = hd_error (matches ic r (MState [] s [])).
Proof.
  unfold exec. rewrite exec_from_bol.
  now destruct (hd_error (matches ic r (MState [] s []))).
Qed.

Lemma replace_first_none r t s :
  exec ic r s = None -> replace_first ic r t s = s.
Proof.
  unfold exec, replace_first. destruct (exec_from ic r [] s) as [[b y]|];
    [discriminate|reflexivity].
Qed.

Lemma test_false_exec r s : test ic r s = false -> exec ic r s = None.
Proof. unfold test. destruct (exec ic r s); [discriminate|reflexivity]. Qed.

(** *** Repetition of an atom over a run of matching characters *)

Lemma rep_stop g a b rest cs :
  stops ic a rest -> rep ic g a 0 None b rest cs = [MState b rest cs].
Proof.
  destruct rest as [|c r]; cbn [rep stops]; [now destruct g|].
  intros ->. cbn. now destruct g.
Qed.

(** Greedy: the longest repetition comes first. *)
Lemma rep_greedy_run a w rest cs : forall mn b,
  run ic a w ->
  exists tl, rep ic true a mn None b (w ++ rest) cs =
             rep ic true a (mn - length w) None (rev w ++ b) rest cs ++ tl.
Proof.
  induction w as [|c w IH]; intros mn b Hw.
  - exists []. cbn [app rev length]. now rewrite Nat.sub_0_r, app_nil_r.
  - inversion Hw as [|? ? Hc Hw']; subst.
    destruct (IH (pred mn) (c :: b) Hw') as [tl Htl].
    cbn [app rep max_allows andb option_map]. rewrite Hc, Htl.
    eexists. rewrite <- app_assoc. cbn [rev length].
    replace (mn - S (length w))%nat with (pred mn - length w)%nat by lia.
    rewrite <- app_assoc. reflexivity.
Qed.

Lemma rep_greedy_first a w rest cs mn b :
  run ic a w -> stops ic a rest -> (mn <= length w)%nat ->
  exists tl, rep ic true a mn None b (w ++ rest) cs =
             MState (rev w ++ b) rest cs :: tl.
Proof.
  intros Hw Hs Hmn.
  destruct (rep_greedy_run a w rest cs mn b Hw) as [tl ->].
  replace (mn - length w)%nat with 0%nat by lia.
  rewrite (rep_stop true a _ rest cs Hs). cbn [app]. eauto.
Qed.

Lemma rep_greedy_head a w rest cs mn b (B : Type) (f : mstate -> list B) z :
  run ic a w -> stops ic a rest -> (mn <= length w)%nat ->
  hd_error (f (MState (rev w ++ b) rest cs)) = Some z ->
  hd_error (flat_map f (rep ic true a mn None b (w ++ rest) cs)) = Some z.
Proof.
  intros Hw Hs Hmn Hz.
  destruct (rep_greedy_run a w rest cs mn b Hw) as [tl ->].
  replace (mn - length w)%nat with 0%nat by lia.
  rewrite (rep_stop true a _ rest cs Hs). cbn [app flat_map].
  now rewrite hd_error_app, Hz.
Qed.

(** Lazy: the shortest repetition comes first; the repetitions after which
    the continuation fails are passed over. *)
Lemma rep_lazy_skip a w rest cs (B : Type) (f : mstate -> list B) : forall b,
  run ic a w ->
  (forall b' c' r', In c' w -> f (MState b' (c' :: r') cs) = []) ->
  flat_map f (rep ic false a 0 None b (w ++ rest) cs) =
  flat_map f (rep ic false a 0 None (rev w ++ b) rest cs).
Proof.
  induction w as [|c w IH]; intros b Hw Hf; [reflexivity|].
  inversion Hw as [|? ? Hc Hw']; subst.
  cbn [app rep max_allows andb option_map pred]. rewrite Hc.
  cbn [app flat_map]. rewrite Hf by (now left). cbn [app].
  rewrite IH; [|assumption|intros; apply Hf; now right].
  cbn [rev]. now rewrite <- app_assoc.
Qed.

Lemma rep_lazy_one a c af b cs :
  atom_matches ic a c = true ->
  rep ic false a 1 None b (c :: af) cs = rep ic false a 0 None (c :: b) af cs.
Proof. intros H. cbn [rep max_allows andb option_map pred]. now rewrite H. Qed.

Lemma rep_lazy_first a b af cs :
  exists tl, rep ic false a 0 None b af cs = MState b af cs :: tl.
Proof. destruct af; cbn [rep app]; eauto. Qed.

(** Either way, repeating the atom over a whole run is one of the matches. *)
Lemma rep_in_run g a w rest cs : forall mn b,
  run ic a w -> (mn <= length w)%nat ->
  In (MState (rev w ++ b) rest cs) (rep ic g a mn None b (w ++ rest) cs).
Proof.
  induction w as [|c w IH]; intros mn b Hw Hmn.
  - cbn in Hmn. replace mn with 0%nat by lia. cbn [app rev].
    destruct rest; cbn [rep]; destruct g; cbn; auto.
    apply in_or_app. right. now left.
  - inversion Hw as [|? ? Hc Hw']; subst.
    cbn [app rep max_allows andb option_map]. rewrite Hc.
    assert (In (MState (rev (c :: w) ++ b) rest cs)
               (rep ic g a (pred mn) None (c :: b) (w ++ rest) cs)) as Hin.
    { cbn [rev]. rewrite <- app_assoc. apply IH; [assumption|]. cbn in Hmn. lia. }
    destruct g; apply in_or_app; auto.
Qed.

Lemma consumed_app w rest b b' cs cs' :
  consumed (MState b (w ++ rest) cs) (MState b' rest cs') = w.
Proof.
  unfold consumed. cbn [after]. rewrite length_app.
  replace (length w + length rest - length rest)%nat with (length w) by lia.
  rewrite firstn_app, firstn_all, Nat.sub_diag. cbn. apply app_nil_r.
Qed.

End Engine.

Lemma atom_ch_self p : atom_matches false (Ch p) p = true.
Proof. cbn. apply N.eqb_refl. Qed.

End RegexFacts.

(** ** Facts about [trim] *)

Module TrimFacts.

Lemma trimStart_head s c r : trimStart s = c :: r -> isWhiteSpace c = false.
Proof.
  induction s as [|d s IH]; cbn [trimStart]; [discriminate|].
  destruct (isWhiteSpace d) eqn:E; [exact IH|]. now intros [= <- <-].
Qed.

Lemma trimStart_keeps l c r :
  isWhiteSpace c = false -> trimStart (l ++ c :: r) = trimStart l ++ c :: r.
Proof.
  intros Hc. induction l as [|d l IH]; cbn [app trimStart].
  - now rewrite Hc.
  - destruct (isWhiteSpace d); [exact IH|reflexivity].
Qed.

Lemma trimStart_fixed c r :
  isWhiteSpace c = false -> trimStart (c :: r) = c :: r.
Proof. intros Hc. cbn [trimStart]. now rewrite Hc. Qed.

Lemma trimEnd_head c r :
  isWhiteSpace c = false -> trimEnd (c :: r) = c :: trimEnd r.
Proof.
  intros Hc. unfold trimEnd. cbn [rev].
  rewrite (trimStart_keeps (rev r) c [] Hc), rev_app_distr.
  reflexivity.
Qed.

Lemma trimEnd_tidy s : tidy_end (trimEnd s).
Proof.
  intros r c H. unfold trimEnd in H.
  apply (f_equal (@rev N)) in H. rewrite rev_involutive, rev_app_distr in H.
  exact (trimStart_head _ _ _ H).
Qed.

Lemma trim_tidy s : tidy_end (trim s).
Proof. apply trimEnd_tidy. Qed.

Lemma trim_head c r :
  isWhiteSpace c = false -> trim (c :: r) = c :: trimEnd r.
Proof.
  intros Hc. unfold trim. rewrite (trimStart_fixed c r Hc).
  now apply trimEnd_head.
Qed.

Lemma trim_clean s : clean (trim s).
Proof.
  split; [|apply trim_tidy].
  unfold trim. destruct (trimStart s) as [|d t] eqn:E.
  - intros c r. unfold trimEnd. cbn. discriminate.
  - pose proof (trimStart_head _ _ _ E) as Hd.
    rewrite (trimEnd_head d t Hd). now intros c r [= <- <-].
Qed.

Lemma trim_nonempty c r : isWhiteSpace c = false -> trim (c :: r) <> [].
Proof. intros Hc. rewrite (trim_head c r Hc). discriminate. Qed.

Lemma tidy_end_suffix w s : tidy_end (w ++ s) -> tidy_end s.
Proof. intros H r c ->. apply (H (w ++ r) c). now rewrite app_assoc. Qed.

Lemma tidy_end_cons c s : tidy_end (c :: s) -> tidy_end s.
Proof. apply (tidy_end_suffix [c]). Qed.

Lemma tidy_end_single c : tidy_end [c] -> isWhiteSpace c = false.
Proof. intros H. now apply (H [] c). Qed.

Lemma lineTerminator_whiteSpace c :
  isLineTerminator c = true -> isWhiteSpace c = true.
Proof. unfold isWhiteSpace. intros ->. apply orb_true_r. Qed.

End TrimFacts.

(** ** The renderer: paragraphs *)

Module RendererFacts.

Lemma split_go_nonempty ic r af : forall b skip cur,
  split_go ic r b af skip cur <> [].
Proof.
  induction af as [|c rest IH]; intros b skip cur; cbn [split_go];
    [discriminate|].
  destruct skip; [|apply IH].
  destruct (match_at ic r b (c :: rest)) as [y|]; [|apply IH].
  destruct (length (c :: rest) - length (after y))%nat.
  - destruct cur; [apply IH|discriminate].
  - discriminate.
Qed.

Lemma split_paragraph_nonempty s : split false paragraph_re s <> [].
Proof.
  destruct s as [|c s]; [vm_compute; discriminate|].
  unfold split. apply split_go_nonempty.
Qed.

(** The line-break pattern matches nothing but a single line feed. *)
Lemma br_no_match b c af : c <> LF -> match_at false br_re b (c :: af) = None.
Proof.
  intros Hc. unfold match_at, br_re. cbn [matches].
  case_look; [reflexivity|].
  cbn. apply N.eqb_neq in Hc. unfold LF in Hc. rewrite Hc. reflexivity.
Qed.

Lemma br_no_match_end b : match_at false br_re b [] = None.
Proof.
  unfold match_at, br_re. cbn [matches].
  case_look; reflexivity.
Qed.

Lemma br_match_one b af y :
  match_at false br_re b (LF :: af) = Some y -> after y = af.
Proof.
  unfold match_at, br_re. cbn [matches].
  case_look; [discriminate|].
  cbn. case_look; [discriminate|].
  cbn. now intros [= <-].
Qed.

(** One step of the global replacement by the line-break pattern emits
    something for the current character and goes on with the next. *)
Lemma replace_go_br_cons b c af :
  exists pre,
    replace_go false br_re br_tpl b (c :: af) 0 =
    pre ++ replace_go false br_re br_tpl (c :: b) af 0.
Proof.
  cbn [replace_go].
  destruct (N.eq_dec c LF) as [->|Hc].
  - destruct (match_at false br_re b (LF :: af)) as [y|] eqn:E.
    + rewrite (br_match_one _ _ _ E). cbn [length].
      replace (S (length af) - length af)%nat with 1%nat by lia.
      exists (substitute br_tpl y). reflexivity.
    + exists [LF]. reflexivity.
  - rewrite (br_no_match _ _ _ Hc). exists [c]. reflexivity.
Qed.

Lemma replace_go_br_keep b c af :
  c <> LF ->
  replace_go false br_re br_tpl b (c :: af) 0 =
  c :: replace_go false br_re br_tpl (c :: b) af 0.
Proof. intros Hc. cbn [replace_go]. now rewrite (br_no_match _ _ _ Hc). Qed.

Lemma replace_go_br_close b :
  replace_go false br_re br_tpl b p_close 0 = p_close.
Proof.
  unfold p_close.
  rewrite !replace_go_br_keep by (unfold LF; discriminate).
  cbn [replace_go]. now rewrite br_no_match_end.
Qed.

Lemma replace_go_br_suffix mid : forall b,
  exists mid',
    replace_go false br_re br_tpl b (mid ++ p_close) 0 = mid' ++ p_close.
Proof.
  induction mid as [|c mid IH]; intros b.
  - exists []. apply replace_go_br_close.
  - destruct (replace_go_br_cons b c (mid ++ p_close)) as [pre Hpre].
    destruct (IH (c :: b)) as [mid' Hmid'].
    exists (pre ++ mid'). simpl app at 1. rewrite Hpre, Hmid'.
    now rewrite app_assoc.
Qed.

Lemma replace_go_br_open b rest :
  replace_go false br_re br_tpl b (p_open ++ rest) 0 =
  p_open ++ replace_go false br_re br_tpl (rev p_open ++ b) rest 0.
Proof.
  unfold p_open. cbn [app rev].
  now rewrite !replace_go_br_keep by (unfold LF; discriminate).
Qed.

(** The line feed between two containers stays. *)
Lemma br_no_match_after_close b af :
  match_at false br_re (rev p_close ++ b) (LF :: af) = None.
Proof. reflexivity. Qed.

Lemma replace_go_br_joint b rest :
  replace_go false br_re br_tpl b (p_close ++ LF :: rest) 0 =
  p_close ++ LF :: replace_go false br_re br_tpl (LF :: rev p_close ++ b) rest 0.
Proof.
  unfold p_close at 1 3. cbn [app].
  rewrite !replace_go_br_keep by (unfold LF; discriminate).
  cbn [replace_go].
  change (62 :: 112 :: 47 :: 60 :: b) with (rev p_close ++ b).
  now rewrite br_no_match_after_close.
Qed.

Lemma replace_go_br_body mid rest : forall b,
  exists mid' b',
    replace_go false br_re br_tpl b (mid ++ p_close ++ LF :: rest) 0 =
    mid' ++ p_close ++ LF :: replace_go false br_re br_tpl b' rest 0.
Proof.
  induction mid as [|c mid IH]; intros b.
  - exists [], (LF :: rev p_close ++ b). apply replace_go_br_joint.
  - destruct (replace_go_br_cons b c (mid ++ p_close ++ LF :: rest)) as [pre Hpre].
    destruct (IH (c :: b)) as (mid' & b' & Hmid').
    exists (pre ++ mid'), b'. cbn [app]. rewrite Hpre, Hmid'.
    now rewrite <- app_assoc.
Qed.

(** The line-break rewrite maps paragraph containers joined by line feeds
    to as many containers joined by line feeds. *)
Lemma replace_go_br_containers parts : forall b,
  parts <> [] ->
  exists bodies,
    bodies <> [] /\
    replace_go false br_re br_tpl b (join [LF] (map paragraph parts)) 0 =
    join [LF] (map container bodies).
Proof.
  induction parts as [|p ps IH]; intros b Hne; [congruence|].
  destruct ps as [|q ps].
  - cbn [map join]. unfold paragraph. rewrite replace_go_br_open.
    destruct (replace_go_br_suffix (trim p) (rev p_open ++ b)) as [mid' ->].
    exists [mid']. split; [discriminate|reflexivity].
  - change (join [LF] (map paragraph (p :: q :: ps)))
      with (paragraph p ++ [LF] ++ join [LF] (map paragraph (q :: ps))).
    change (paragraph p) with (p_open ++ trim p ++ p_close).
    rewrite <- !app_assoc. rewrite replace_go_br_open.
    cbn [app].
    destruct (replace_go_br_body (trim p) (join [LF] (map paragraph (q :: ps)))
                (rev p_open ++ b)) as (mid' & b' & ->).
    destruct (IH b') as (bodies & Hb & ->); [discriminate|].
    exists (mid' :: bodies). split; [discriminate|].
    destruct bodies as [|b0 bs]; [congruence|].
    change (join [LF] (map container (mid' :: b0 :: bs)))
      with (container mid' ++ [LF] ++ join [LF] (map container (b0 :: bs))).
    change (container mid') with (p_open ++ mid' ++ p_close).
    now rewrite <- !app_assoc.
Qed.

Lemma join_containers bodies :
  bodies <> [] ->
  exists mid, join [LF] (map container bodies) = p_open ++ mid ++ p_close.
Proof.
  induction bodies as [|p ps IH]; [congruence|]. intros _.
  destruct ps as [|q ps].
  - exists p. reflexivity.
  - destruct IH as [mid Hmid]; [discriminate|].
    exists (p ++ p_close ++ [LF] ++ p_open ++ mid).
    change (join [LF] (map container (p :: q :: ps)))
      with (container p ++ [LF] ++ join [LF] (map container (q :: ps))).
    rewrite Hmid. unfold container. now rewrite <- !app_assoc.
Qed.

(** *** Text without emphasis markers and line feeds *)

Section NoMatch.

Variables (ic : bool) (r : regex) (t : list titem) (s : list N).
Hypothesis Hcons : forall b c af, In c s -> match_at ic r b (c :: af) = None.
Hypothesis Hend : forall b, match_at ic r b [] = None.

(** Where the pattern matches nowhere, the global replacement changes
    nothing and there is nothing to split. *)
Lemma replace_go_no_match af : forall b,
  (forall c, In c af -> In c s) -> replace_go ic r t b af 0 = af.
Proof.
  induction af as [|c af IH]; intros b Hin; cbn [replace_go].
  - now rewrite Hend.
  - rewrite Hcons by (apply Hin; now left).
    f_equal. apply IH. intros d Hd. apply Hin. now right.
Qed.

Lemma replace_all_no_match : replace_all ic r t s = s.
Proof. unfold replace_all. now apply replace_go_no_match. Qed.

Lemma split_go_no_match af : forall b cur,
  (forall c, In c af -> In c s) -> split_go ic r b af 0 cur = [rev cur ++ af].
Proof.
  induction af as [|c af IH]; intros b cur Hin; cbn [split_go].
  - now rewrite app_nil_r.
  - rewrite Hcons by (apply Hin; now left).
    rewrite IH by (intros d Hd; apply Hin; now right).
    cbn [rev]. now rewrite <- app_assoc.
Qed.

End NoMatch.

Lemma split_no_match ic r s :
  (forall b c af, In c s -> match_at ic r b (c :: af) = None) ->
  s <> [] -> split ic r s = [s].
Proof.
  intros Hcons Hne. unfold split.
  pose proof (split_go_no_match ic r s Hcons s [] [] (fun c H => H)) as H.
  destruct s; [congruence|exact H].
Qed.

Lemma bold_no_match b c af : c <> 42 -> match_at false bold_re b (c :: af) = None.
Proof.
  intros Hc. unfold match_at, bold_re.
  rewrite !RegexFacts.matches_seq_assoc, RegexFacts.matches_seq_atom.
  cbn [atom_matches canonicalize andb]. apply N.eqb_neq in Hc. now rewrite Hc.
Qed.

Lemma italic_no_match b c af : c <> 42 -> match_at false italic_re b (c :: af) = None.
Proof.
  intros Hc. unfold match_at, italic_re.
  rewrite RegexFacts.matches_seq, RegexFacts.matches_notbehind.
  case_look; [reflexivity|].
  cbn [flat_map]. rewrite RegexFacts.matches_seq_atom.
  cbn [atom_matches canonicalize andb]. apply N.eqb_neq in Hc. now rewrite Hc.
Qed.

Lemma italic_no_match_end b : match_at false italic_re b [] = None.
Proof.
  unfold match_at, italic_re.
  rewrite RegexFacts.matches_seq, RegexFacts.matches_notbehind.
  case_look; reflexivity.
Qed.

Lemma paragraph_no_match b c af :
  c <> LF -> match_at false paragraph_re b (c :: af) = None.
Proof.
  intros Hc. unfold match_at, paragraph_re.
  cbn [matches rep before after caps max_allows andb atom_matches canonicalize].
  apply N.eqb_neq in Hc. now rewrite Hc.
Qed.

(** Text that has no asterisk, no line feed and no white space at its ends
    is wrapped in one paragraph container as it is. *)
Lemma markdownToHtml_plain s :
  s <> [] -> Forall (fun c => c <> 42 /\ c <> LF) s -> trim s = s ->
  markdownToHtml (Str s) = container s.
Proof.
  intros Hne Hs Htrim.
  assert (forall c, In c s -> c <> 42) as H42.
  { intros c Hc. exact (proj1 (proj1 (Forall_forall _ _) Hs c Hc)). }
  assert (forall c, In c s -> c <> LF) as HLF.
  { intros c Hc. exact (proj2 (proj1 (Forall_forall _ _) Hs c Hc)). }
  unfold markdownToHtml. destruct s as [|c0 s0] eqn:E; [congruence|].
  rewrite <- E in *.
  rewrite (replace_all_no_match false bold_re strong_tpl s)
    by (intros; (apply bold_no_match; auto) || reflexivity).
  rewrite (replace_all_no_match false italic_re em_tpl s)
    by (intros; (apply italic_no_match; auto) || apply italic_no_match_end).
  rewrite (split_no_match false paragraph_re s)
    by (intros; (apply paragraph_no_match; auto) || assumption).
  cbn [map join]. unfold paragraph. rewrite Htrim. fold (container s).
  apply replace_all_no_match; [|apply br_no_match_end].
  intros b c af Hin. apply br_no_match.
  unfold container, p_open, p_close in Hin.
  cbn [app In] in Hin.
  destruct Hin as [<-|[<-|[<-|Hin]]]; try (unfold LF; discriminate).
  apply in_app_or in Hin as [Hin|Hin]; [now apply HLF|].
  cbn [In] in Hin.
  destruct Hin as [<-|[<-|[<-|[<-|[]]]]]; unfold LF; discriminate.
Qed.

End RendererFacts.

(** C10: for every non-empty input the output of [markdownToHtml] is one
    or more paragraph containers joined by line feeds; it begins with the
    paragraph open marker and ends with the paragraph close marker. *)
Theorem markdownToHtml_paragraphs (c : cu) (s : jsstring) :
  exists bodies mid,
    bodies <> [] /\
    markdownToHtml (Str (c :: s)) = join [LF] (map container bodies) /\
    markdownToHtml (Str (c :: s)) = p_open ++ mid ++ p_close.
Proof.
  unfold markdownToHtml, replace_all.
  destruct (RendererFacts.replace_go_br_containers
              (split false paragraph_re
                 (replace_go false italic_re em_tpl []
                    (replace_go false bold_re strong_tpl [] (c :: s) 0) 0))
              [] (RendererFacts.split_paragraph_nonempty _))
    as (bodies & Hne & ->).
  destruct (RendererFacts.join_containers bodies Hne) as [mid Hmid].
  exists bodies, mid. auto.
Qed.

(** C8: [markdownToHtml] has no failure path: it yields a fragment for every
    argument, and the empty fragment for the empty string and for
    [undefined]. *)
Theorem markdownToHtml_total :
  (forall text, exists html, markdownToHtml text = html) /\
  markdownToHtml Undefined = [] /\
  markdownToHtml (Str []) = [].
Proof. repeat split. intros text. now exists (markdownToHtml text). Qed.

(** C1: markup-significant characters of the input reach the output as
    they are.  The element written in the input is an element of the
    output; more generally, text that has no asterisk, no line feed and no
    white space at its ends is wrapped in one paragraph container
    unchanged, whatever else it contains. *)
Theorem markdownToHtml_keeps_markup :
  markdownToHtml (Str injected) = p_open ++ injected ++ p_close /\
  (forall s, s <> [] -> Forall (fun c => c <> 42 /\ c <> LF) s -> trim s = s ->
             markdownToHtml (Str s) = p_open ++ s ++ p_close).
Proof.
  split; [vm_compute; reflexivity|].
  exact RendererFacts.markdownToHtml_plain.
Qed.

Lemma markdownToHtml_keeps_markup_witness :
  markdownToHtml (Str (utf16 "a < b && b > c")) =
  p_open ++ utf16 "a < b && b > c" ++ p_close.
Proof.
  apply (proj2 markdownToHtml_keeps_markup);
    [ vm_compute; discriminate
    | vm_compute; repeat constructor; discriminate
    | vm_compute; reflexivity ].
Defined.

(** ** The parser: the loop *)

Module ParserFacts.

Lemma header_step_fields st tr st' :
  header_step st tr = Some st' ->
  englishBody st' = englishBody st /\ vocabItems st' = vocabItems st /\
  translationText st' = translationText st /\
  (exists st0, header_step initial tr = Some st0 /\
               currentSection st0 = currentSection st') /\
  currentSection st' <> SNone.
Proof.
  unfold header_step.
  destruct (exec true header_re tr) as [y|]; [|discriminate].
  cbv zeta.
  destruct (parseInt (cap 1 y) =? 1).
  { intros [= <-]; cbn; repeat split; (congruence || eauto). }
  destruct (parseInt (cap 1 y) =? 2).
  { intros [= <-]; cbn; repeat split; (congruence || eauto). }
  destruct (parseInt (cap 1 y) =? 3).
  { intros [= <-]; cbn; repeat split; (congruence || eauto). }
  destruct (parseInt (cap 1 y) =? 4).
  { intros [= <-]; cbn; repeat split; (congruence || eauto). }
  discriminate.
Qed.

Lemma header_step_none st tr :
  header_step st tr = None -> header_step initial tr = None.
Proof.
  unfold header_step.
  destruct (exec true header_re tr) as [y|]; [|reflexivity].
  cbv zeta. repeat break_match; (discriminate || reflexivity).
Qed.

(** The section after one line: the one a boundary line selects, the
    current one otherwise. *)
Lemma step_section st line :
  currentSection (step st line) =
  match switches_to line with Some s => s | None => currentSection st end.
Proof.
  unfold step, switches_to. cbv zeta.
  destruct (header_step st (trim line)) as [st'|] eqn:E.
  - destruct (header_step_fields _ _ _ E) as (_ & _ & _ & (st0 & -> & ->) & _).
    reflexivity.
  - rewrite (header_step_none _ _ E).
    destruct (test false translation_header_re (trim line)); [reflexivity|].
    destruct (test false vocab_header_re (trim line)); [reflexivity|].
    unfold collect.
    destruct (currentSection st) eqn:Hs; repeat break_match; cbn; congruence.
Qed.

(** Only the vocabulary section adds entries, and only for a line that
    matches the vocabulary pattern. *)
Lemma step_vocab_same st line :
  match currentSection st with
  | SVocab => test false vocab_re (trim line) = false
  | _ => True
  end ->
  vocabItems (step st line) = vocabItems st.
Proof.
  intros H. unfold step. cbv zeta.
  destruct (header_step st (trim line)) as [st'|] eqn:E.
  - now destruct (header_step_fields _ _ _ E) as (_ & -> & _).
  - destruct (test false translation_header_re (trim line)); [reflexivity|].
    destruct (test false vocab_header_re (trim line)); [reflexivity|].
    unfold collect. unfold test in H.
    destruct (currentSection st); try reflexivity.
    + break_match; reflexivity.
    + destruct (exec false vocab_re (trim line)); [discriminate|reflexivity].
    + repeat break_match; reflexivity.
Qed.

Lemma step_translation_same st line :
  currentSection st <> STranslation ->
  translationText (step st line) = translationText st.
Proof.
  intros H. unfold step. cbv zeta.
  destruct (header_step st (trim line)) as [st'|] eqn:E.
  - now destruct (header_step_fields _ _ _ E) as (_ & _ & -> & _).
  - destruct (test false translation_header_re (trim line)); [reflexivity|].
    destruct (test false vocab_header_re (trim line)); [reflexivity|].
    unfold collect.
    destruct (currentSection st); try congruence; repeat break_match; reflexivity.
Qed.

Lemma scan_vocab_unmatched lines : forall st,
  vocab_section_unmatched st lines = true ->
  vocabItems (fold_left step lines st) = vocabItems st.
Proof.
  induction lines as [|l ls IH]; intros st H; [reflexivity|].
  cbn [vocab_section_unmatched] in H. apply andb_true_iff in H as [H1 H2].
  cbn [fold_left]. rewrite (IH _ H2). apply step_vocab_same.
  destruct (currentSection st); try exact I.
  now apply negb_true_iff in H1.
Qed.

Lemma step_outside_glossary st line :
  outside_glossary st -> opens_vocab_or_translation line = false ->
  outside_glossary (step st line).
Proof.
  intros (Hv & Ht & Hvi & Htt) Hl. unfold outside_glossary.
  rewrite step_section, step_translation_same by assumption.
  rewrite step_vocab_same by (destruct (currentSection st); congruence || exact I).
  unfold opens_vocab_or_translation in Hl.
  destruct (switches_to line) as [[]|]; repeat split; congruence.
Qed.

Lemma scan_outside_glossary lines : forall st,
  outside_glossary st ->
  forallb (fun l => negb (opens_vocab_or_translation l)) lines = true ->
  outside_glossary (fold_left step lines st).
Proof.
  induction lines as [|l ls IH]; intros st Hst H; [exact Hst|].
  cbn [forallb] in H. apply andb_true_iff in H as [H1 H2].
  cbn [fold_left]. apply IH; [|exact H2].
  apply step_outside_glossary; [exact Hst|]. now apply negb_true_iff in H1.
Qed.

Lemma isEmpty_false s : s <> [] -> isEmpty s = false.
Proof. destruct s; [congruence|reflexivity]. Qed.

Lemma isEmpty_true_iff s : isEmpty s = true <-> s = [].
Proof. destruct s; split; (reflexivity || discriminate). Qed.

Lemma parseTemplate_accepts text :
  title (scan text) <> [] -> trim (englishBody (scan text)) <> [] ->
  parseTemplate text =
  Some (Parsed.Make (title (scan text)) (trim (englishBody (scan text)))
                    (vocabItems (scan text)) (trim (translationText (scan text)))).
Proof.
  intros Ht Hb. unfold parseTemplate. cbv zeta.
  now rewrite (isEmpty_false _ Ht), (isEmpty_false _ Hb).
Qed.

End ParserFacts.

(** C5: scenario A of the specification parses to the expected record. *)
Theorem parseTemplate_scenario_A :
  parseTemplate scenario_A =
  Some (Parsed.Make (utf16 "The Lost Key")
                    (utf16 "She found a **rusty** key.")
                    [VocabItem (utf16 "rusty") (utf16 "covered with rust")]
                    (utf16 "彼女は錆びた鍵を見つけた。")).
Proof. vm_compute. reflexivity. Qed.

(** C2: [parseTemplate] rejects exactly when the extracted title is empty or
    the body is empty after trimming; the rejection is the result value
    [None], which carries no record, and an accepted input yields the
    complete record. *)
Theorem parseTemplate_rejects_iff (text : jsstring) :
  (parseTemplate text = None <->
   title (scan text) = [] \/ trim (englishBody (scan text)) = []) /\
  (parseTemplate text = None \/
   parseTemplate text =
   Some (Parsed.Make (title (scan text)) (trim (englishBody (scan text)))
                     (vocabItems (scan text)) (trim (translationText (scan text))))).
Proof.
  unfold parseTemplate. cbv zeta.
  destruct (isEmpty (title (scan text)) || isEmpty (trim (englishBody (scan text))))
    eqn:E.
  - split; [|now left]. split; [intros _|reflexivity].
    apply orb_true_iff in E as [E|E]; apply ParserFacts.isEmpty_true_iff in E; auto.
  - split; [|now right]. split; [discriminate|].
    apply orb_false_iff in E as [E1 E2].
    intros [H|H]; apply ParserFacts.isEmpty_true_iff in H; congruence.
Qed.


(** ** The vocabulary pattern *)

Module VocabFacts.

Import RegexFacts TrimFacts.

Lemma sep_whiteSpace c : isWhiteSpace c = true -> atom_matches false sep c = true.
Proof. intros H. cbn. rewrite H. now rewrite orb_true_r. Qed.

(** What a match of [(.+)] looks like. *)
Lemma meaning_group_in y z :
  In z (matches false meaning_group y) ->
  exists c r w, after y = c :: r /\ isLineTerminator c = false /\ cap 2 z = c :: w.
Proof.
  unfold meaning_group, plus. rewrite matches_group. intros H.
  apply in_map_iff in H as (z' & <- & H).
  destruct y as [b af cs]. rewrite matches_rep in H.
  destruct af as [|c r]; [contradiction|]. cbn [rep max_allows andb] in H.
  destruct (atom_matches false Dot c) eqn:Hc; [|contradiction].
  rewrite app_nil_r in H. apply rep_after in H as (w & -> & _ & _).
  exists c, (w ++ after z'), w. cbn in Hc. apply negb_true_iff in Hc.
  split; [reflexivity|split; [exact Hc|]].
  unfold cap. cbn [caps find fst snd Nat.eqb].
  change (c :: w ++ after z') with ((c :: w) ++ after z').
  destruct z' as [b' af' cs']. apply consumed_app.
Qed.

Lemma meaning_group_some b c r cs :
  isLineTerminator c = false ->
  matches false meaning_group (MState b (c :: r) cs) <> [].
Proof.
  intros Hc. unfold meaning_group, plus. rewrite matches_group, matches_rep.
  cbn [rep max_allows andb atom_matches]. rewrite Hc. cbn [negb].
  rewrite app_nil_r. cbn [option_map pred].
  pose proof (rep_in_run false true Dot [] r cs 0 (c :: b)
                         (Forall_nil _) (le_n 0)) as Hin.
  cbn [app rev] in Hin.
  destruct (rep false true Dot 0 None (c :: b) r cs); [contradiction|discriminate].
Qed.

Lemma flat_map_some (A B : Type) (f : A -> list B) (l1 l2 : list A) (x : A) :
  f x <> [] -> flat_map f (l1 ++ x :: l2) <> [].
Proof.
  intros Hx H. rewrite flat_map_app in H. apply app_eq_nil in H as [_ H].
  cbn in H. apply app_eq_nil in H as [H _]. contradiction.
Qed.

Lemma flat_map_some_l (A B : Type) (f : A -> list B) (l1 l2 : list A) :
  flat_map f l1 <> [] -> flat_map f (l1 ++ l2) <> [].
Proof.
  intros Hx H. rewrite flat_map_app in H. apply app_eq_nil in H as [H _].
  contradiction.
Qed.

(** Unfolding of the greedy repetition with no lower bound. *)
Lemma rep_greedy_cons a c r b cs :
  rep false true a 0 None b (c :: r) cs =
  (if atom_matches false a c then rep false true a 0 None (c :: b) r cs else [])
  ++ [MState b (c :: r) cs].
Proof. reflexivity. Qed.

(** After the separator run, [(.+)] finds something whenever input is
    left that does not end in white space. *)
Lemma meaning_after_sep_some r : forall b cs,
  r <> [] -> tidy_end r ->
  flat_map (matches false meaning_group) (rep false true sep 0 None b r cs) <> [].
Proof.
  induction r as [|c r IH]; intros b cs Hne Ht; [congruence|].
  rewrite rep_greedy_cons.
  destruct (isLineTerminator c) eqn:Hlt.
  - pose proof (lineTerminator_whiteSpace c Hlt) as Hws.
    rewrite (sep_whiteSpace c Hws).
    assert (r <> []) as Hr.
    { intros ->. apply tidy_end_single in Ht. congruence. }
    apply flat_map_some_l. apply IH; [exact Hr|]. exact (tidy_end_cons _ _ Ht).
  - apply flat_map_some. now apply meaning_group_some.
Qed.

(** The meaning that the first match of [\s... +(.+)] captures starts with a
    character that is no white space. *)
Lemma meaning_after_sep r : forall b cs z,
  tidy_end r ->
  hd_error (flat_map (matches false meaning_group) (rep false true sep 0 None b r cs))
  = Some z ->
  meaning_starts z.
Proof.
  induction r as [|c r IH]; intros b cs z Ht.
  - cbn. discriminate.
  - rewrite rep_greedy_cons, flat_map_app, hd_error_app.
    destruct (hd_error (flat_map _ (if atom_matches false sep c then _ else _)))
      as [z'|] eqn:E.
    + intros [= <-]. destruct (atom_matches false sep c); [|discriminate].
      apply (IH (c :: b) cs z'); [exact (tidy_end_cons _ _ Ht)|exact E].
    + cbn [flat_map]. rewrite app_nil_r. intros Hz.
      assert (In z (matches false meaning_group (MState b (c :: r) cs))) as Hin.
      { destruct (matches false meaning_group (MState b (c :: r) cs));
          [discriminate|]. cbn in Hz. injection Hz as ->. now left. }
      apply meaning_group_in in Hin as (c' & r' & w & [= <- <-] & Hlt & Hcap).
      exists c, w. split; [exact Hcap|].
      destruct (isWhiteSpace c) eqn:Hws; [|reflexivity]. exfalso.
      rewrite (sep_whiteSpace c Hws) in E.
      apply hd_error_nil_inv in E. revert E.
      apply meaning_after_sep_some; [|exact (tidy_end_cons _ _ Ht)].
      intros ->. apply tidy_end_single in Ht. congruence.
Qed.

Lemma meaning_tail_starts x z :
  tidy_end (after x) ->
  hd_error (matches false meaning_tail x) = Some z -> meaning_starts z.
Proof.
  destruct x as [b af cs]. cbn [after]. intros Ht.
  unfold meaning_tail, plus. rewrite matches_seq, matches_rep.
  destruct af as [|c r]; [cbn; discriminate|].
  cbn [rep max_allows andb option_map pred].
  destruct (atom_matches false sep c); [|cbn; discriminate].
  rewrite app_nil_r. apply meaning_after_sep. exact (tidy_end_cons _ _ Ht).
Qed.

(** A property of the first match of the end of a pattern is a property
    of the first match of the whole pattern. *)
Lemma seq_tail (P : mstate -> Prop) r1 r2 :
  (forall x z, tidy_end (after x) -> hd_error (matches false r2 x) = Some z -> P z) ->
  forall x z, tidy_end (after x) ->
              hd_error (matches false (Seq r1 r2) x) = Some z -> P z.
Proof.
  intros H2 x z Ht. rewrite matches_seq. intros H.
  apply hd_error_flat_map_in in H as (y & Hy & Hz).
  apply matches_after in Hy as (w & Hw). apply (H2 y z); [|exact Hz].
  apply (tidy_end_suffix w). now rewrite <- Hw.
Qed.

(** The meaning captured from a trimmed line starts with a character that
    is no white space. *)
Lemma vocab_meaning_starts s y :
  tidy_end s -> exec false vocab_re s = Some y -> meaning_starts y.
Proof.
  intros Ht. unfold vocab_re. rewrite exec_bol.
  revert y. generalize (MState [] s []) (Ht : tidy_end (after (MState [] s []))).
  intros x Hx y. revert x y Hx.
  do 5 apply seq_tail.
  exact meaning_tail_starts.
Qed.

(** *** A line of the documented form *)

Lemma vocab_re_parts :
  vocab_re =
  Seq Bol (Seq (Atom bullet_class) (Seq (Rep true 0 None space)
    (Seq bold_mark (Seq word_group (Seq bold_mark meaning_tail))))).
Proof. reflexivity. Qed.

Lemma bold_mark_step r b rest cs :
  matches false (Seq bold_mark r) (MState b (42 :: 42 :: rest) cs) =
  matches false r (MState (42 :: 42 :: b) rest cs).
Proof.
  unfold bold_mark.
  repeat (rewrite matches_seq_assoc || rewrite matches_seq_eps
          || rewrite matches_seq_atom; rewrite ?atom_ch_self).
  reflexivity.
Qed.

Lemma bold_mark_fails r b c rest cs :
  c <> 42 -> matches false (Seq bold_mark r) (MState b (c :: rest) cs) = [].
Proof.
  intros Hc. unfold bold_mark. rewrite !matches_seq_assoc, matches_seq_atom.
  cbn [atom_matches canonicalize andb]. apply N.eqb_neq in Hc. now rewrite Hc.
Qed.

Lemma bold_mark_half r b c rest cs :
  c <> 42 -> matches false (Seq bold_mark r) (MState b (42 :: c :: rest) cs) = [].
Proof.
  intros Hc. unfold bold_mark.
  rewrite matches_seq_assoc, matches_seq_atom, atom_ch_self.
  rewrite matches_seq_assoc, matches_seq_atom.
  cbn [atom_matches canonicalize andb]. apply N.eqb_neq in Hc. now rewrite Hc.
Qed.

(** Without a bullet the first bold marker is read as the bullet, and the
    pattern fails on what is left of it. *)
Lemma vocab_unbulleted c rest :
  c <> 42 -> exec false vocab_re (42 :: 42 :: c :: rest) = None.
Proof.
  intros Hc. rewrite vocab_re_parts, exec_bol, matches_seq_atom.
  change (atom_matches false bullet_class 42) with true. cbv iota.
  rewrite matches_seq_rep, (rep_stop false true space [42] (42 :: c :: rest) [] eq_refl).
  cbn [flat_map]. now rewrite bold_mark_half.
Qed.

Lemma flat_map_in_some (A B : Type) (f : A -> list B) (l : list A) (x : A) :
  In x l -> f x <> [] -> flat_map f l <> [].
Proof.
  intros Hin Hx. apply in_split in Hin as (l1 & l2 & ->). now apply flat_map_some.
Qed.

Section Line.

Variables (w seps mng : list N).
Hypothesis Hw : w <> [].
Hypothesis Hw_dot : run false Dot w.
Hypothesis Hseps : seps <> [].
Hypothesis Hseps_run : run false sep seps.
Hypothesis Hmng : mng <> [].

(** Some match exists, whatever the word and the meaning contain. *)

Lemma meaning_tail_some b cs :
  tidy_end mng -> matches false meaning_tail (MState b (seps ++ mng) cs) <> [].
Proof.
  intros Ht. unfold meaning_tail, plus. rewrite matches_seq_rep.
  destruct seps as [|s0 seps']; [congruence|].
  inversion Hseps_run as [|? ? Hs0 _]; subst.
  cbn [app rep max_allows andb option_map pred]. rewrite Hs0, app_nil_r.
  apply meaning_after_sep_some.
  - destruct seps'; [exact Hmng|discriminate].
  - intros r c Hr. apply (Ht (skipn (length seps') r) c).
    apply (f_equal (skipn (length seps'))) in Hr.
    rewrite skipn_app, skipn_all, Nat.sub_diag in Hr. cbn in Hr. rewrite Hr.
    destruct (Nat.le_gt_cases (length seps') (length r)) as [Hle|Hgt].
    + now rewrite skipn_app, (proj2 (Nat.sub_0_le _ _) Hle).
    + exfalso. apply (f_equal (@length N)) in Hr.
      rewrite length_skipn, length_app in Hr. cbn in Hr.
      destruct mng; [congruence|]. cbn in Hr. lia.
Qed.

Lemma word_group_some r b rest cs :
  matches false r (MState (42 :: 42 :: rev w ++ b) rest ((1%nat, w) :: cs)) <> [] ->
  matches false (Seq word_group (Seq bold_mark r))
          (MState b (w ++ 42 :: 42 :: rest) cs) <> [].
Proof.
  intros H. unfold word_group. rewrite matches_seq, matches_group, matches_rep.
  rewrite flat_map_map.
  apply (flat_map_in_some _ _ _ _ (MState (rev w ++ b) (42 :: 42 :: rest) cs)).
  - apply rep_in_run; [exact Hw_dot|]. destruct w; [congruence|cbn; lia].
  - cbn [before after caps]. rewrite consumed_app, bold_mark_step. exact H.
Qed.

(** With no asterisk in the word, a meaning that starts with no separator
    and no line terminator in the meaning, the first match captures the
    two. *)

Hypothesis Hw_plain : Forall (fun d => d <> 42) w.
Hypothesis Hmng_start : stops false sep mng.
Hypothesis Hmng_dot : run false Dot mng.

Lemma meaning_tail_first b cs :
  hd_error (matches false meaning_tail (MState b (seps ++ mng) cs)) =
  Some (MState (rev mng ++ rev seps ++ b) [] ((2%nat, mng) :: cs)).
Proof.
  unfold meaning_tail, plus. rewrite matches_seq_rep.
  apply rep_greedy_head; [exact Hseps_run|exact Hmng_start| |].
  { destruct seps; [congruence|cbn; lia]. }
  unfold meaning_group, plus. rewrite matches_group, matches_rep.
  destruct (rep_greedy_first false Dot mng [] cs 1 (rev seps ++ b) Hmng_dot I)
    as [tl Htl].
  { destruct mng; [congruence|cbn; lia]. }
  rewrite app_nil_r in Htl. rewrite Htl. cbn [map hd_error before after caps].
  assert (consumed (MState (rev seps ++ b) mng cs)
                   (MState (rev mng ++ rev seps ++ b) [] cs) = mng) as ->.
  { rewrite <- (app_nil_r mng) at 1. apply consumed_app. }
  reflexivity.
Qed.

Lemma word_group_first r b rest cs z :
  hd_error (matches false r (MState (42 :: 42 :: rev w ++ b) rest ((1%nat, w) :: cs)))
  = Some z ->
  hd_error (matches false (Seq word_group (Seq bold_mark r))
                    (MState b (w ++ 42 :: 42 :: rest) cs)) = Some z.
Proof.
  intros H. unfold word_group. rewrite matches_seq, matches_group, matches_rep.
  rewrite flat_map_map.
  destruct w as [|c0 w'] eqn:Ew; [congruence|].
  inversion Hw_dot as [|? ? Hc0 Hw']; subst.
  inversion Hw_plain as [|? ? _ Hp']; subst.
  cbn [app]. rewrite rep_lazy_one by exact Hc0.
  rewrite rep_lazy_skip; [|exact Hw'|].
  - destruct (rep_lazy_first false Dot (rev w' ++ c0 :: b) (42 :: 42 :: rest) cs)
      as [tl ->].
    rewrite hd_error_flat_map_cons. cbn [before after caps].
    change (c0 :: w' ++ 42 :: 42 :: rest) with ((c0 :: w') ++ 42 :: 42 :: rest).
    rewrite consumed_app, bold_mark_step.
    cbn [rev] in H. rewrite <- app_assoc in H. cbn [app] in H. now rewrite H.
  - intros b' c' r' Hin. cbn [before after caps].
    apply bold_mark_fails. exact (proj1 (Forall_forall _ _) Hp' c' Hin).
Qed.

End Line.

Lemma bullet_matches bullet :
  bullet = 42 \/ bullet = 45 -> atom_matches false bullet_class bullet = true.
Proof. intros [->| ->]; reflexivity. Qed.

End VocabFacts.

(** ** Header patterns *)

Module HeaderFacts.

Import RegexFacts.

(** Under the [i] flag a pattern character that is no letter still matches
    itself only. *)
Lemma atom_ch_nonletter ic p c :
  p < 65 \/ (90 < p /\ p < 97) \/ 122 < p ->
  atom_matches ic (Ch p) c = (c =? p).
Proof.
  intros Hp. cbn [atom_matches]. unfold canonicalize.
  destruct ic; cbn [andb]; [|reflexivity].
  destruct (97 <=? p) eqn:E1; destruct (p <=? 122) eqn:E2; cbn [andb];
    try (apply N.leb_le in E1); try (apply N.leb_le in E2); try lia;
    destruct (97 <=? c) eqn:E3; destruct (c <=? 122) eqn:E4; cbn [andb];
    try reflexivity;
    apply N.leb_le in E3; apply N.leb_le in E4;
    (destruct (N.eqb_spec (c - 32) p); destruct (N.eqb_spec c p); try reflexivity; lia).
Qed.

(** [#{2,3}] needs a [#]. *)
Lemma hashes_need_hash ic c r b cs :
  c <> 35 -> rep ic true (Ch 35) 2 (Some 3%nat) b (c :: r) cs = [].
Proof.
  intros Hc. cbn [rep max_allows andb].
  rewrite atom_ch_nonletter by lia.
  apply N.eqb_neq in Hc. now rewrite Hc.
Qed.

(** A pattern of the form [^#{2,3}...] matches only a string that starts
    with [#]. *)
Lemma hash_anchored ic r s y :
  exec ic (Seq Bol (Seq (Rep true 2 (Some 3%nat) (Ch 35)) r)) s = Some y ->
  exists t, s = 35 :: t.
Proof.
  rewrite exec_bol, matches_seq, matches_rep.
  destruct s as [|c t]; [cbn; discriminate|].
  destruct (N.eq_dec c 35) as [->|Hc]; [eauto|].
  rewrite hashes_need_hash by assumption. cbn. discriminate.
Qed.

Lemma hash_anchored_none ic r c t :
  c <> 35 ->
  exec ic (Seq Bol (Seq (Rep true 2 (Some 3%nat) (Ch 35)) r)) (c :: t) = None.
Proof.
  intros Hc.
  destruct (exec ic _ (c :: t)) as [y|] eqn:E; [|reflexivity].
  apply hash_anchored in E as (t' & [= -> _]). congruence.
Qed.

Lemma header_starts s y : exec true header_re s = Some y -> exists t, s = 35 :: t.
Proof. unfold header_re. apply hash_anchored. Qed.

(** The vocabulary pattern needs a bullet. *)
Lemma vocab_needs_bullet c t :
  c <> 42 -> c <> 45 -> exec false vocab_re (c :: t) = None.
Proof.
  intros H1 H2. unfold vocab_re. rewrite exec_bol, matches_seq, matches_atom.
  cbn [atom_matches existsb item_matches canonicalize andb xorb orb].
  apply N.eqb_neq in H1, H2. now rewrite H1, H2.
Qed.

Lemma header_num_step st tr n :
  header_num tr = Some n -> n <> 1 -> n <> 2 -> n <> 3 -> n <> 4 ->
  header_step st tr = None.
Proof.
  unfold header_num, header_step.
  destruct (exec true header_re tr) as [y|]; [|discriminate].
  cbn [option_map]. intros [= <-] H1 H2 H3 H4. cbv zeta.
  apply N.eqb_neq in H1, H2, H3, H4. now rewrite H1, H2, H3, H4.
Qed.

Lemma header_num_starts tr n : header_num tr = Some n -> exists t, tr = 35 :: t.
Proof.
  unfold header_num. destruct (exec true header_re tr) as [y|] eqn:E;
    [|discriminate].
  intros _. exact (header_starts tr y E).
Qed.

Lemma hash_matches ic : atom_matches ic (Ch 35) 35 = true.
Proof. rewrite atom_ch_nonletter by lia. reflexivity. Qed.

(** What [#{2,3}] consumes. *)
Lemma hashes_two ic b c r cs :
  c <> 35 ->
  rep ic true (Ch 35) 2 (Some 3%nat) b (35 :: 35 :: c :: r) cs =
  [MState (35 :: 35 :: b) (c :: r) cs].
Proof.
  intros Hc. cbn [rep max_allows andb option_map pred].
  rewrite hash_matches. rewrite (atom_ch_nonletter ic 35 c) by lia.
  apply N.eqb_neq in Hc. rewrite Hc. reflexivity.
Qed.

Lemma hashes_three ic b r cs :
  rep ic true (Ch 35) 2 (Some 3%nat) b (35 :: 35 :: 35 :: r) cs =
  [MState (35 :: 35 :: 35 :: b) r cs; MState (35 :: 35 :: b) (35 :: r) cs].
Proof.
  cbn [rep max_allows andb option_map pred]. rewrite hash_matches.
  destruct r; reflexivity.
Qed.

Lemma whiteSpace_not_hash c : isWhiteSpace c = true -> c <> 35.
Proof. intros H ->. discriminate. Qed.

Lemma space_run ws :
  Forall (fun d => isWhiteSpace d = true) ws -> run false space ws.
Proof.
  apply Forall_impl. intros d Hd. cbn. now rewrite Hd.
Qed.

Lemma space_stops c r : isWhiteSpace c = false -> stops false space (c :: r).
Proof. intros Hc. cbn. now rewrite Hc. Qed.

Section SubHeader.

Variables (hashes ws content : list N) (c : N).
Hypothesis Hhashes : marker hashes.
Hypothesis Hws : Forall (fun d => isWhiteSpace d = true) ws.
Hypothesis Hc : isWhiteSpace c = false.
Hypothesis Hne : ws <> [].

Lemma marker_then_space r :
  exists tl,
    flat_map (matches false r)
      (rep false true (Ch 35) 2 (Some 3%nat) [] (hashes ++ ws ++ c :: content) []) =
    matches false r (MState (rev hashes) (ws ++ c :: content) []) ++ tl.
Proof.
  assert (exists d t, ws ++ c :: content = d :: t /\ d <> 35) as (d & t & -> & Hd).
  { destruct ws as [|d ws']; [congruence|].
    exists d, (ws' ++ c :: content). split; [reflexivity|].
      apply whiteSpace_not_hash. now inversion Hws. }
  destruct Hhashes; cbn [app rev].
  - rewrite hashes_two by assumption. cbn [flat_map]. eauto.
  - rewrite hashes_three. cbn [flat_map]. eauto.
Qed.

Lemma strip_marker :
  replace_first false marker_re [] (hashes ++ ws ++ c :: content) = c :: content.
Proof.
  unfold replace_first, marker_re. change (Cls false [CSpace]) with space.
  rewrite exec_from_bol, matches_seq, matches_rep.
  destruct (marker_then_space (Rep true 0 None space)) as [tl ->].
  rewrite matches_rep.
  destruct (rep_greedy_first false space ws (c :: content) [] 0 (rev hashes)
              (space_run ws Hws) (space_stops c content Hc) (Nat.le_0_l _))
    as [tl' ->].
  reflexivity.
Qed.

Lemma subheader_test :
  test false subheader_re (hashes ++ ws ++ c :: content) = true.
Proof.
  unfold test, subheader_re. change (Cls false [CSpace]) with space.
  rewrite exec_bol, matches_seq, matches_rep.
  destruct (marker_then_space (Atom space)) as [tl ->].
  destruct ws as [|d ws']; [congruence|]. inversion Hws as [|? ? Hd _]; subst.
  cbn [app]. rewrite matches_atom.
  cbn [space atom_matches existsb item_matches xorb orb].
  rewrite Hd. reflexivity.
Qed.

End SubHeader.

(** The label, followed by white space, at the start of the text. *)
Lemma strip_label_prefix colon ws rest :
  colon = 0xFF1A \/ colon = 0x3A ->
  Forall (fun d => isWhiteSpace d = true) ws ->
  (forall d r, rest = d :: r -> isWhiteSpace d = false) ->
  strip_label (utf16 "タイトル" ++ colon :: ws ++ rest) = rest.
Proof.
  intros Hcolon Hws Hrest'.
  assert (stops false space rest) as Hrest.
  { destruct rest as [|d r]; [exact I|]. apply space_stops. now apply (Hrest' d r). }
  unfold strip_label, replace_first.
  change (utf16 "タイトル") with [12479; 12452; 12488; 12523]. cbn [app].
  rewrite (exec_from_here false label_re [] _
             (MState (rev ws ++ [colon; 12523; 12488; 12452; 12479]) rest []));
    [reflexivity|].
  unfold match_at, label_re. change (Cls false [CSpace]) with space.
  repeat (rewrite matches_seq_assoc || rewrite matches_seq_eps
          || rewrite matches_seq_atom; rewrite ?atom_ch_self).
  assert (atom_matches false (Cls false [CChar 65306; CChar 58]) colon = true) as ->.
  { destruct Hcolon as [->| ->]; reflexivity. }
  rewrite matches_rep.
  destruct (rep_greedy_first false space ws rest [] 0
              [colon; 12523; 12488; 12452; 12479]
              (space_run ws Hws) Hrest (Nat.le_0_l _)) as [tl ->].
  reflexivity.
Qed.

Lemma strip_label_absent s : test false label_re s = false -> strip_label s = s.
Proof.
  intros H. unfold strip_label. apply replace_first_none.
  now apply test_false_exec.
Qed.

(** Whether the loop treats a line as a boundary does not depend on the
    state. *)
Lemma header_step_none_any st1 st2 tr :
  header_step st1 tr = None -> header_step st2 tr = None.
Proof.
  unfold header_step.
  destruct (exec true header_re tr) as [y|]; [|reflexivity].
  cbv zeta.
  destruct (parseInt (cap 1 y) =? 1); [discriminate|].
  destruct (parseInt (cap 1 y) =? 2); [discriminate|].
  destruct (parseInt (cap 1 y) =? 3); [discriminate|].
  destruct (parseInt (cap 1 y) =? 4); [discriminate|reflexivity].
Qed.

Lemma not_a_boundary st line :
  switches_to line = None ->
  step st line = collect st line (trim line).
Proof.
  unfold switches_to, step. cbv zeta.
  destruct (header_step initial (trim line)) eqn:E; [discriminate|].
  rewrite (header_step_none_any initial st _ E).
  destruct (test false translation_header_re (trim line)); [discriminate|].
  destruct (test false vocab_header_re (trim line)); [discriminate|reflexivity].
Qed.

End HeaderFacts.

(** C6 (as amended): while the translation section is active, a line that
    is no section boundary keeps the section.  If its trimmed text is two or
    three [#], white space and content, the content with the first
    occurrence of the label removed is appended as a bold paragraph, and
    nothing is appended when nothing is left; a line that does not start with
    such a marker is appended as it is, followed by a line feed.  The label
    is the word for title followed by a colon of either width and white
    space; where it is absent the content is kept whole. *)
Theorem translation_section_lines (st : pstate) (line : jsstring) :
  currentSection st = STranslation -> switches_to line = None ->
  currentSection (step st line) = STranslation /\
  (forall hashes ws c content,
      trim line = hashes ++ ws ++ c :: content -> marker hashes -> ws <> [] ->
      Forall (fun d => isWhiteSpace d = true) ws -> isWhiteSpace c = false ->
      step st line =
      if isEmpty (strip_label (c :: content)) then st
      else add_translation st (bold_paragraph (strip_label (c :: content)))) /\
  (test false subheader_re (trim line) = false ->
   step st line = add_translation st (line ++ [LF])) /\
  (forall s, test false label_re s = false -> strip_label s = s) /\
  (forall colon ws rest,
      colon = 0xFF1A \/ colon = 0x3A ->
      Forall (fun d => isWhiteSpace d = true) ws ->
      (forall d r, rest = d :: r -> isWhiteSpace d = false) ->
      strip_label (utf16 "タイトル" ++ colon :: ws ++ rest) = rest).
Proof.
  intros Hs Hb.
  split; [rewrite ParserFacts.step_section, Hb; exact Hs|].
  rewrite (HeaderFacts.not_a_boundary st line Hb). unfold collect. rewrite Hs.
  split; [|split; [|split]].
  - intros hashes ws c content Heq Hm Hne Hws Hc. rewrite Heq.
    rewrite (HeaderFacts.subheader_test hashes ws content c Hm Hws Hne).
    unfold subTitle_of.
    rewrite (HeaderFacts.strip_marker hashes ws content c Hm Hws Hc Hne).
    fold (strip_label (c :: content)).
    now destruct (isEmpty (strip_label (c :: content))).
  - now intros ->.
  - exact HeaderFacts.strip_label_absent.
  - exact HeaderFacts.strip_label_prefix.
Qed.

Lemma translation_section_lines_witness :
  step in_translation (utf16 "### タイトル： 失われた鍵") =
  add_translation in_translation (bold_paragraph (utf16 "失われた鍵")).
Proof.
  destruct (translation_section_lines in_translation (utf16 "### タイトル： 失われた鍵"))
    as (_ & H & _); [reflexivity | vm_compute; reflexivity |].
  rewrite (H [35; 35; 35] [32] 12479 (utf16 "イトル： 失われた鍵"));
    [ vm_compute; reflexivity | vm_compute; reflexivity | constructor
    | discriminate | repeat constructor | reflexivity ].
Defined.

(** C6, as stated, fails: in the translation a numbered header does change
    the section, the label [Title] is kept, and the label is removed where it
    stands, not only at the start. *)
Lemma header_in_translation :
  currentSection (step in_translation (utf16 "### 2. Epilogue")) = SEnglish /\
  step in_translation (utf16 "### Title: The Key") =
  add_translation in_translation (bold_paragraph (utf16 "Title: The Key")) /\
  step in_translation (utf16 "### 第1章 タイトル：鍵") =
  add_translation in_translation (bold_paragraph (utf16 "第1章 鍵")).
Proof. vm_compute. repeat split. Qed.

(** C3 (as amended): a line that matches the numbered header pattern with
    a number other than 1, 2, 3 and 4 is no numbered boundary.  If its
    trimmed text matches the translation header pattern (two or three [#],
    optional white space, any characters other than line terminators, then
    the translation keyword) the translation section starts, otherwise if it
    matches the vocabulary header pattern (the same with the vocabulary
    keyword) the vocabulary section starts.  Otherwise, the keywords
    occurring elsewhere in the line or not at all, the section stays and the
    line is collected like any other line of the section: it is dropped in
    the vocabulary section and before the first section, it becomes the
    title in the title section when there is none yet, it is appended to the
    body in the body section, and in the translation it is re-emitted as a
    sub-title or appended. *)
Theorem unknown_number_falls_through (st : pstate) (line : jsstring) (n : N) :
  header_num (trim line) = Some n -> n <> 1 -> n <> 2 -> n <> 3 -> n <> 4 ->
  step st line =
  if test false translation_header_re (trim line) then set_section st STranslation
  else if test false vocab_header_re (trim line) then set_section st SVocab
  else match currentSection st with
       | SNone | SVocab => st
       | STitle => if isEmpty (title st) then set_title st (trim line) else st
       | SEnglish => add_english st (line ++ [LF])
       | STranslation =>
         if test false subheader_re (trim line) then
           if isEmpty (subTitle_of (trim line)) then st
           else add_translation st
                  (utf16 "**" ++ subTitle_of (trim line) ++ utf16 "**" ++ [LF; LF])
         else add_translation st (line ++ [LF])
       end.
Proof.
  intros Hn H1 H2 H3 H4. unfold step. cbv zeta.
  rewrite (HeaderFacts.header_num_step st _ n Hn H1 H2 H3 H4).
  destruct (test false translation_header_re (trim line)); [reflexivity|].
  destruct (test false vocab_header_re (trim line)); [reflexivity|].
  destruct (HeaderFacts.header_num_starts _ _ Hn) as [t Ht].
  unfold collect. rewrite Ht.
  destruct (currentSection st); try reflexivity.
  - rewrite HeaderFacts.vocab_needs_bullet by discriminate. reflexivity.
  - destruct (test false subheader_re (35 :: t)); [|reflexivity].
    now destruct (isEmpty (subTitle_of (35 :: t))).
Qed.

Lemma unknown_number_falls_through_witness :
  step in_body (utf16 "### 5. Notes") =
  add_english in_body (utf16 "### 5. Notes" ++ [LF]).
Proof.
  apply (unknown_number_falls_through in_body (utf16 "### 5. Notes") 5);
    [vm_compute; reflexivity | discriminate ..].
Defined.

(** C3, as stated, fails: the header line of an unknown number is collected
    into the body, and one that names the translation changes the section. *)
Lemma unknown_number_is_collected :
  header_num (trim (utf16 "### 5. Notes")) = Some 5 /\
  parseTemplate extra_section =
  Some (Parsed.Make (utf16 "The Lost Key")
          (join [LF] [utf16 "She found a key."; utf16 "### 5. Notes"; utf16 "It was old."])
          [] []) /\
  header_num (trim (utf16 "### 5. 日本語訳")) = Some 5 /\
  currentSection (step in_body (utf16 "### 5. 日本語訳")) = STranslation.
Proof. vm_compute. repeat split. Qed.

(** ** The vocabulary of an accepted record *)

Module VocabInvariant.

Import ParserFacts TrimFacts VocabFacts.

Lemma step_vocab_cases st line :
  vocabItems (step st line) = vocabItems st \/
  exists y, exec false vocab_re (trim line) = Some y /\
            vocabItems (step st line) =
            vocabItems st ++ [VocabItem (trim (cap 1 y)) (trim (cap 2 y))].
Proof.
  unfold step. cbv zeta.
  destruct (header_step st (trim line)) as [st'|] eqn:E.
  - left. now destruct (header_step_fields _ _ _ E) as (_ & -> & _).
  - destruct (test false translation_header_re (trim line)); [now left|].
    destruct (test false vocab_header_re (trim line)); [now left|].
    unfold collect.
    destruct (currentSection st); try (now left).
    + left. break_match; reflexivity.
    + destruct (exec false vocab_re (trim line)) as [y|]; [|now left].
      right. exists y. split; reflexivity.
    + left. repeat break_match; reflexivity.
Qed.

Lemma entry_of_match line y :
  exec false vocab_re (trim line) = Some y ->
  entry_trimmed (VocabItem (trim (cap 1 y)) (trim (cap 2 y))).
Proof.
  intros H. apply vocab_meaning_starts in H as (c & r & Hc & Hws);
    [|apply trim_tidy].
  unfold entry_trimmed. cbn [word meaning]. rewrite Hc.
  split; [now apply trim_nonempty|]. split; apply trim_clean.
Qed.

Lemma step_entries st line :
  Forall entry_trimmed (vocabItems st) ->
  Forall entry_trimmed (vocabItems (step st line)).
Proof.
  intros H. destruct (step_vocab_cases st line) as [->|(y & Hy & ->)];
    [exact H|].
  apply Forall_app. split; [exact H|].
  constructor; [|constructor]. exact (entry_of_match line y Hy).
Qed.

Lemma scan_entries lines : forall st,
  Forall entry_trimmed (vocabItems st) ->
  Forall entry_trimmed (vocabItems (fold_left step lines st)).
Proof.
  induction lines as [|l ls IH]; intros st H; [exact H|].
  cbn [fold_left]. apply IH. now apply step_entries.
Qed.

Import RegexFacts HeaderFacts.

Lemma bullet_not_hash bullet : bullet = 42 \/ bullet = 45 -> bullet <> 35.
Proof. intros [->| ->]; discriminate. Qed.

(** A line that starts with a bullet is no section boundary. *)
Lemma bullet_line_collected st line bullet t :
  bullet = 42 \/ bullet = 45 -> trim line = bullet :: t ->
  step st line = collect st line (bullet :: t).
Proof.
  intros Hb Heq. pose proof (bullet_not_hash bullet Hb) as Hh.
  unfold step. cbv zeta. rewrite Heq.
  unfold header_step, test, header_re, translation_header_re, vocab_header_re.
  now rewrite !hash_anchored_none by exact Hh.
Qed.

Lemma dot_run w :
  Forall (fun d => isLineTerminator d = false) w -> run false Dot w.
Proof. apply Forall_impl. intros d Hd. cbn. now rewrite Hd. Qed.

End VocabInvariant.

(** C4 (as amended): while the vocabulary section is active, a line whose
    trimmed text is a bullet ([*] or [-]), white space, a bold-wrapped
    non-empty word without line terminators, a non-empty run of colons and
    white space, and a non-empty meaning appends exactly one entry and
    changes nothing else.  When the word has no asterisk, the meaning starts
    with no separator and has no line terminator, the entry is the trimmed
    word with the trimmed meaning.  A line that is no boundary and does not
    match the pattern leaves the state as it is; so does a line that starts
    with the bold marker instead of a bullet, unless a third asterisk
    follows. *)
Theorem vocab_bullet_line (st : pstate) (line : jsstring) (bullet : N)
    (ws w seps mng : jsstring) :
  currentSection st = SVocab ->
  trim line = bullet :: ws ++ utf16 "**" ++ w ++ utf16 "**" ++ seps ++ mng ->
  bullet = 0x2A \/ bullet = 0x2D ->
  Forall (fun d => isWhiteSpace d = true) ws ->
  w <> [] -> Forall (fun d => isLineTerminator d = false) w ->
  seps <> [] -> Forall (fun d => is_sep d = true) seps ->
  mng <> [] ->
  (exists wd mg, step st line = push_vocab st (VocabItem wd mg)) /\
  (Forall (fun d => d <> 0x2A) w ->
   (forall d r, mng = d :: r -> is_sep d = false) ->
   Forall (fun d => isLineTerminator d = false) mng ->
   step st line = push_vocab st (VocabItem (trim w) (trim mng))) /\
  (forall other,
      switches_to other = None -> test false vocab_re (trim other) = false ->
      step st other = st) /\
  (forall other c rest,
      trim other = utf16 "**" ++ c :: rest -> c <> 0x2A -> step st other = st).
Proof.
  intros Hs Heq Hb Hws Hw Hwdot Hseps Hsepsrun Hmng.
  change (utf16 "**") with [42; 42] in Heq. cbn [app] in Heq.
  pose proof (VocabInvariant.dot_run w Hwdot) as Hwrun.
  assert (tidy_end mng) as Htidy.
  { pose proof (TrimFacts.trim_tidy line) as Ht. rewrite Heq in Ht.
    apply (TrimFacts.tidy_end_suffix (bullet :: ws ++ 42 :: 42 :: w ++ 42 :: 42 :: seps)).
    cbn [app]. repeat (rewrite <- app_assoc; cbn [app]). exact Ht. }
  rewrite (VocabInvariant.bullet_line_collected st line bullet _ Hb Heq).
  unfold collect. rewrite Hs.
  rewrite VocabFacts.vocab_re_parts, RegexFacts.exec_bol, RegexFacts.matches_seq_atom.
  rewrite (VocabFacts.bullet_matches bullet Hb), RegexFacts.matches_seq_rep.
  split; [|split; [|split]].
  - assert (flat_map
              (matches false
                 (Seq bold_mark
                    (Seq word_group
                       (Seq bold_mark meaning_tail))))
              (rep false true space 0 None [bullet]
                   (ws ++ 42 :: 42 :: w ++ 42 :: 42 :: seps ++ mng) []) <> []) as Hne.
    { apply (VocabFacts.flat_map_in_some _ _ _ _
               (MState (rev ws ++ [bullet]) (42 :: 42 :: w ++ 42 :: 42 :: seps ++ mng) [])).
      - apply RegexFacts.rep_in_run; [now apply HeaderFacts.space_run|apply Nat.le_0_l].
      - rewrite VocabFacts.bold_mark_step.
        apply (VocabFacts.word_group_some w Hw Hwrun).
        now apply VocabFacts.meaning_tail_some. }
    destruct (flat_map _ _) as [|y tl]; [congruence|]. cbn [hd_error]. eauto.
  - intros Hplain Hstart Hmdot.
    assert (stops false sep mng) as Hstops.
    { destruct mng as [|d r]; [exact I|]. exact (Hstart d r eq_refl). }
    rewrite (RegexFacts.rep_greedy_head false space ws
               (42 :: 42 :: w ++ 42 :: 42 :: seps ++ mng) [] 0 [bullet] _ _
               (MState (rev mng ++ rev seps ++ 42 :: 42 :: rev w ++ 42 :: 42 :: rev ws ++ [bullet])
                       [] [(2%nat, mng); (1%nat, w)])).
    + cbn [cap caps find fst snd Nat.eqb].
      reflexivity.
    + now apply HeaderFacts.space_run.
    + reflexivity.
    + apply Nat.le_0_l.
    + rewrite VocabFacts.bold_mark_step.
      apply (VocabFacts.word_group_first w Hw Hwrun Hplain).
      apply (VocabFacts.meaning_tail_first seps mng Hseps Hsepsrun Hmng Hstops).
      now apply VocabInvariant.dot_run.
  - intros other Hb' Ht.
    rewrite (HeaderFacts.not_a_boundary st other Hb'). unfold collect. rewrite Hs.
    now rewrite (RegexFacts.test_false_exec false vocab_re _ Ht).
  - intros other c rest Ho Hc. change (utf16 "**") with [42; 42] in Ho.
    cbn [app] in Ho.
    rewrite (VocabInvariant.bullet_line_collected st other 42 _ (or_introl eq_refl) Ho).
    unfold collect. rewrite Hs. now rewrite (VocabFacts.vocab_unbulleted c rest Hc).
Qed.

Lemma vocab_bullet_line_witness :
  step in_vocab (utf16 "* **rusty**: covered with rust") =
  push_vocab in_vocab (VocabItem (utf16 "rusty") (utf16 "covered with rust")).
Proof.
  destruct (vocab_bullet_line in_vocab (utf16 "* **rusty**: covered with rust")
              42 [32] (utf16 "rusty") [58; 32] (utf16 "covered with rust"))
    as (_ & H & _);
    [ reflexivity | vm_compute; reflexivity | now left
    | repeat constructor | vm_compute; discriminate | vm_compute; repeat constructor
    | discriminate | repeat constructor | vm_compute; discriminate | ].
  apply H.
  - vm_compute. repeat constructor; discriminate.
  - intros d r. vm_compute. now intros [= <- _].
  - vm_compute. repeat constructor.
Defined.

(** C4, as stated, fails: without the bullet a line of the documented form
    appends no entry. *)
Lemma vocab_line_needs_bullet :
  step in_vocab (utf16 "**rusty**: covered with rust") = in_vocab /\
  parseTemplate no_bullet =
  Some (Parsed.Make (utf16 "The Lost Key") (utf16 "She found a key.") [] []).
Proof. vm_compute. split; reflexivity. Qed.

(** C9 (as amended): in every accepted record each vocabulary entry has a
    non-empty meaning, and its word and its meaning have no white space at
    either end. *)
Theorem vocab_entries_trimmed (text : jsstring) (p : Parsed.t) :
  parseTemplate text = Some p -> Forall entry_trimmed (Parsed.vocab p).
Proof.
  unfold parseTemplate. cbv zeta.
  destruct (isEmpty (title (scan text)) || isEmpty (trim (englishBody (scan text))));
    [discriminate|].
  intros [= <-]. cbn [Parsed.vocab].
  unfold scan. apply VocabInvariant.scan_entries. constructor.
Qed.

Lemma vocab_entries_trimmed_witness :
  Forall entry_trimmed [VocabItem (utf16 "rusty") (utf16 "covered with rust")].
Proof.
  apply (vocab_entries_trimmed scenario_A
           (Parsed.Make (utf16 "The Lost Key")
                        (utf16 "She found a **rusty** key.")
                        [VocabItem (utf16 "rusty") (utf16 "covered with rust")]
                        (utf16 "彼女は錆びた鍵を見つけた。"))).
  vm_compute. reflexivity.
Defined.

(** C9, as stated, fails: the word of an entry can be empty. *)
Lemma vocab_word_can_be_empty :
  parseTemplate blank_word =
  Some (Parsed.Make (utf16 "The Lost Key") (utf16 "She found a key.")
                    [VocabItem [] (utf16 "covered with rust")] []).
Proof. vm_compute. reflexivity. Qed.

(** ** A greedy class that takes white space, followed by [(.+)] *)

Module TailFacts.

Import RegexFacts TrimFacts VocabFacts.

Section Tail.

Variables (ic : bool) (a : atom) (n : nat).
Hypothesis Ha : absorbs_space ic a.

Lemma not_absorbed c : atom_matches ic a c = false -> isWhiteSpace c = false.
Proof.
  intros H. destruct (isWhiteSpace c) eqn:E; [|reflexivity].
  now rewrite (Ha c E) in H.
Qed.

Lemma group_dot_in y z :
  In z (matches ic (Group n (plus Dot)) y) ->
  exists c r w, after y = c :: r /\ isLineTerminator c = false /\ cap n z = c :: w.
Proof.
  unfold plus. rewrite matches_group. intros H.
  apply in_map_iff in H as (z' & <- & H).
  destruct y as [b af cs]. rewrite matches_rep in H.
  destruct af as [|c r]; [contradiction|]. cbn [rep max_allows andb] in H.
  destruct (atom_matches ic Dot c) eqn:Hc; [|contradiction].
  rewrite app_nil_r in H. apply rep_after in H as (w & -> & _ & _).
  exists c, (w ++ after z'), w. cbn in Hc. apply negb_true_iff in Hc.
  split; [reflexivity|split; [exact Hc|]].
  unfold cap. cbn [caps find fst snd]. rewrite Nat.eqb_refl. cbn [snd].
  change (c :: w ++ after z') with ((c :: w) ++ after z').
  destruct z' as [b' af' cs']. apply consumed_app.
Qed.

Lemma group_dot_some b c r cs :
  isLineTerminator c = false ->
  matches ic (Group n (plus Dot)) (MState b (c :: r) cs) <> [].
Proof.
  intros Hc. unfold plus. rewrite matches_group, matches_rep.
  cbn [rep max_allows andb atom_matches]. rewrite Hc. cbn [negb].
  rewrite app_nil_r. cbn [option_map pred].
  pose proof (rep_in_run ic true Dot [] r cs 0 (c :: b)
                         (Forall_nil _) (le_n 0)) as Hin.
  cbn [app rev] in Hin.
  destruct (rep ic true Dot 0 None (c :: b) r cs); [contradiction|discriminate].
Qed.

Lemma rep_greedy_unfold c r b cs :
  rep ic true a 0 None b (c :: r) cs =
  (if atom_matches ic a c then rep ic true a 0 None (c :: b) r cs else [])
  ++ [MState b (c :: r) cs].
Proof. reflexivity. Qed.

Lemma after_class_some r : forall b cs,
  r <> [] -> tidy_end r ->
  flat_map (matches ic (Group n (plus Dot))) (rep ic true a 0 None b r cs) <> [].
Proof.
  induction r as [|c r IH]; intros b cs Hne Ht; [congruence|].
  rewrite rep_greedy_unfold.
  destruct (isLineTerminator c) eqn:Hlt.
  - pose proof (lineTerminator_whiteSpace c Hlt) as Hws.
    rewrite (Ha c Hws).
    assert (r <> []) as Hr.
    { intros ->. apply tidy_end_single in Ht. congruence. }
    apply flat_map_some_l. apply IH; [exact Hr|]. exact (tidy_end_cons _ _ Ht).
  - apply flat_map_some. now apply group_dot_some.
Qed.

(** Whatever the class leaves to [(.+)], the first match gives it a text
    that starts with no white space, provided the input ends with none. *)
Lemma after_class_starts r : forall b cs z,
  tidy_end r ->
  hd_error (flat_map (matches ic (Group n (plus Dot))) (rep ic true a 0 None b r cs))
  = Some z ->
  starts_clean n z.
Proof.
  induction r as [|c r IH]; intros b cs z Ht.
  - cbn. discriminate.
  - rewrite rep_greedy_unfold, flat_map_app, hd_error_app.
    destruct (hd_error (flat_map _ (if atom_matches ic a c then _ else _)))
      as [z'|] eqn:E.
    + intros [= <-]. destruct (atom_matches ic a c); [|discriminate].
      apply (IH (c :: b) cs z'); [exact (tidy_end_cons _ _ Ht)|exact E].
    + cbn [flat_map]. rewrite app_nil_r. intros Hz.
      assert (In z (matches ic (Group n (plus Dot)) (MState b (c :: r) cs))) as Hin.
      { destruct (matches ic (Group n (plus Dot)) (MState b (c :: r) cs));
          [discriminate|]. cbn in Hz. injection Hz as ->. now left. }
      apply group_dot_in in Hin as (c' & r' & w & [= <- <-] & Hlt & Hcap).
      exists c, w. split; [exact Hcap|].
      destruct (isWhiteSpace c) eqn:Hws; [|reflexivity]. exfalso.
      rewrite (Ha c Hws) in E.
      apply hd_error_nil_inv in E. revert E.
      apply after_class_some; [|exact (tidy_end_cons _ _ Ht)].
      intros ->. apply tidy_end_single in Ht. congruence.
Qed.

Lemma star_tail_starts x z :
  tidy_end (after x) ->
  hd_error (matches ic (Seq (star a) (Group n (plus Dot))) x) = Some z ->
  starts_clean n z.
Proof.
  destruct x as [b af cs]. cbn [after]. intros Ht.
  unfold star. rewrite matches_seq, matches_rep. now apply after_class_starts.
Qed.

Lemma plus_tail_starts x z :
  tidy_end (after x) ->
  hd_error (matches ic (Seq (plus a) (Group n (plus Dot))) x) = Some z ->
  starts_clean n z.
Proof.
  destruct x as [b af cs]. cbn [after]. intros Ht.
  unfold plus at 1. rewrite matches_seq, matches_rep.
  destruct af as [|c r]; [cbn; discriminate|].
  cbn [rep max_allows andb option_map pred].
  destruct (atom_matches ic a c); [|cbn; discriminate].
  rewrite app_nil_r. apply after_class_starts. exact (tidy_end_cons _ _ Ht).
Qed.

End Tail.

Lemma seq_tail_any ic (P : mstate -> Prop) r1 r2 :
  (forall x z, tidy_end (after x) -> hd_error (matches ic r2 x) = Some z -> P z) ->
  forall x z, tidy_end (after x) ->
              hd_error (matches ic (Seq r1 r2) x) = Some z -> P z.
Proof.
  intros H2 x z Ht. rewrite matches_seq. intros H.
  apply hd_error_flat_map_in in H as (y & Hy & Hz).
  apply matches_after in Hy as (w & Hw). apply (H2 y z); [|exact Hz].
  apply (tidy_end_suffix w). now rewrite <- Hw.
Qed.

(** Every reported match is the first match at some position of the
    input. *)
Lemma exec_from_suffix ic r af : forall b b' y,
  exec_from ic r b af = Some (b', y) ->
  exists pre suf, af = pre ++ suf /\
                  hd_error (matches ic r (MState b' suf [])) = Some y.
Proof.
  induction af as [|c rest IH]; intros b b' y; cbn [exec_from]; unfold match_at.
  - destruct (hd_error (matches ic r (MState b [] []))) eqn:E; [|discriminate].
    intros [= <- <-]. exists [], []. auto.
  - destruct (hd_error (matches ic r (MState b (c :: rest) []))) eqn:E.
    + intros [= <- <-]. exists [], (c :: rest). auto.
    + intros H. apply IH in H as (pre & suf & -> & Hm).
      exists (c :: pre), suf. auto.
Qed.

Lemma exec_suffix ic r s y :
  exec ic r s = Some y ->
  exists b pre suf, s = pre ++ suf /\
                    hd_error (matches ic r (MState b suf [])) = Some y.
Proof.
  unfold exec. destruct (exec_from ic r [] s) as [[b' y']|] eqn:E; [|discriminate].
  cbn. intros [= <-]. apply exec_from_suffix in E as (pre & suf & H1 & H2).
  exists b', pre, suf. auto.
Qed.

Lemma space_absorbs ic : absorbs_space ic space.
Proof. intros c Hc. cbn. now rewrite Hc. Qed.

Lemma sep_absorbs ic : absorbs_space ic sep.
Proof. intros c Hc. cbn. rewrite Hc. now rewrite orb_true_r. Qed.

(** The content of a numbered header starts with no white space. *)
Lemma header_content_starts s y :
  tidy_end s -> exec true header_re s = Some y -> starts_clean 2 y.
Proof.
  intros Ht. unfold header_re. rewrite exec_bol.
  revert y. generalize (MState [] s []) (Ht : tidy_end (after (MState [] s []))).
  intros x Hx y. revert x y Hx.
  do 4 apply seq_tail_any.
  exact (star_tail_starts true space 2 (space_absorbs true)).
Qed.

(** The title after the label starts with no white space. *)
Lemma title_label_starts s y :
  tidy_end s -> exec true title_re s = Some y -> starts_clean 1 y.
Proof.
  intros Ht H. apply exec_suffix in H as (b & pre & suf & -> & H).
  revert H. unfold title_re.
  assert (tidy_end (after (MState b suf []))) as Hx
      by exact (tidy_end_suffix pre suf Ht).
  revert Hx. generalize (MState b suf []). intros x Hx. revert x y Hx.
  apply seq_tail_any.
  exact (plus_tail_starts true sep 1 (sep_absorbs true)).
Qed.

End TailFacts.

(** ** What the loop keeps true *)

Module LoopFacts.

Import RegexFacts TrimFacts TailFacts ParserFacts.

Lemma clean_nil : clean [].
Proof. split; intros; [discriminate|]. now destruct r. Qed.

Lemma starts_clean_trim n z :
  starts_clean n z -> trim (cap n z) <> [] /\ clean (trim (cap n z)).
Proof.
  intros (c & r & -> & Hc). split; [now apply trim_nonempty|apply trim_clean].
Qed.

(** The title that a header with the number 1 yields. *)
Lemma header_title tr y :
  tidy_end tr -> exec true header_re tr = Some y ->
  let sectionContent := trim (cap 2 y) in
  let t := match exec true title_re sectionContent with
           | Some titleMatch => trim (cap 1 titleMatch)
           | None => sectionContent
           end in
  t <> [] /\ clean t.
Proof.
  intros Ht Hy. cbv zeta.
  destruct (starts_clean_trim 2 y (header_content_starts tr y Ht Hy)) as [Hne Hcl].
  destruct (exec true title_re (trim (cap 2 y))) as [tm|] eqn:E; [|auto].
  apply starts_clean_trim.
  apply (title_label_starts (trim (cap 2 y)) tm); [apply trim_tidy|exact E].
Qed.

Lemma header_step_title_kept st tr st' :
  tidy_end tr -> title_kept st -> header_step st tr = Some st' -> title_kept st'.
Proof.
  intros Ht [Hcl Hst]. unfold header_step.
  destruct (exec true header_re tr) as [y|] eqn:E; [|discriminate].
  destruct (header_title tr y Ht E) as [Hne Hc]. cbv zeta in *.
  destruct (parseInt (cap 1 y) =? 1).
  { intros [= <-]. split; cbn; auto. }
  destruct (parseInt (cap 1 y) =? 2).
  { intros [= <-]. split; cbn; [exact Hcl|discriminate]. }
  destruct (parseInt (cap 1 y) =? 3).
  { intros [= <-]. split; cbn; [exact Hcl|discriminate]. }
  destruct (parseInt (cap 1 y) =? 4).
  { intros [= <-]. split; cbn; [exact Hcl|discriminate]. }
  discriminate.
Qed.

Lemma collect_title_kept st line :
  title_kept st -> title_kept (collect st line (trim line)).
Proof.
  intros [Hcl Hst]. unfold collect.
  assert (forall st', title st' = title st -> currentSection st' = currentSection st ->
                      title_kept st') as Hsame.
  { intros st' Ht Hs. split; rewrite Ht; [exact Hcl|]. now rewrite Hs. }
  destruct (currentSection st) eqn:Hs.
  - now apply Hsame.
  - destruct (isEmpty (trim line)) eqn:E1; cbn [negb andb]; [now apply Hsame|].
    destruct (isEmpty (title st)) eqn:E2; [|now apply Hsame].
    split; cbn; [apply trim_clean|]. intros _ H. now rewrite H in E1.
  - now apply Hsame.
  - destruct (exec false vocab_re (trim line)); now apply Hsame.
  - destruct (test false subheader_re (trim line));
      [destruct (negb (isEmpty (subTitle_of (trim line))))|];
      now apply Hsame.
Qed.

Lemma step_title_kept st line : title_kept st -> title_kept (step st line).
Proof.
  intros H. unfold step. cbv zeta.
  destruct (header_step st (trim line)) as [st'|] eqn:E.
  - exact (header_step_title_kept st (trim line) st' (trim_tidy line) H E).
  - destruct H as [Hcl Hst].
    destruct (test false translation_header_re (trim line));
      [split; cbn; [exact Hcl|discriminate]|].
    destruct (test false vocab_header_re (trim line));
      [split; cbn; [exact Hcl|discriminate]|].
    apply collect_title_kept. now split.
Qed.

Lemma fold_title_kept lines : forall st,
  title_kept st -> title_kept (fold_left step lines st).
Proof.
  induction lines as [|l ls IH]; intros st H; [exact H|].
  cbn [fold_left]. apply IH. now apply step_title_kept.
Qed.

Lemma initial_title_kept : title_kept initial.
Proof. split; [apply clean_nil|discriminate]. Qed.

(** Without a header of the number, its section is never entered. *)
Lemma header_step_number st tr st' :
  header_step st tr = Some st' ->
  exists n, header_num tr = Some n /\
            match currentSection st' with
            | STitle => n = 1
            | SEnglish => n = 2 /\ title st' = title st
            | SVocab => n = 3 /\ title st' = title st
            | STranslation => n = 4 /\ title st' = title st
            | SNone => False
            end.
Proof.
  unfold header_step, header_num.
  destruct (exec true header_re tr) as [y|]; [|discriminate].
  cbn [option_map]. cbv zeta. exists (parseInt (cap 1 y)). split; [reflexivity|].
  destruct (N.eqb_spec (parseInt (cap 1 y)) 1).
  { injection H as <-. cbn. assumption. }
  destruct (N.eqb_spec (parseInt (cap 1 y)) 2).
  { injection H as <-. cbn. auto. }
  destruct (N.eqb_spec (parseInt (cap 1 y)) 3).
  { injection H as <-. cbn. auto. }
  destruct (N.eqb_spec (parseInt (cap 1 y)) 4).
  { injection H as <-. cbn. auto. }
  discriminate.
Qed.

Lemma step_no_title_yet st line :
  header_is 1 line = false -> no_title_yet st -> no_title_yet (step st line).
Proof.
  intros Hl [Ht Hs]. unfold no_title_yet, step. cbv zeta.
  destruct (header_step st (trim line)) as [st'|] eqn:E.
  - destruct (header_step_number st _ st' E) as (n & Hn & Hsec).
    unfold header_is in Hl. rewrite Hn in Hl. apply N.eqb_neq in Hl.
    destruct (header_step_fields _ _ _ E) as (_ & _ & _ & _ & Hne).
    destruct (currentSection st') eqn:Hs';
      [ contradiction | exfalso; congruence
      | destruct Hsec as [_ ->]; split; [exact Ht|discriminate] .. ].
  - destruct (test false translation_header_re (trim line));
      [split; cbn; [exact Ht|discriminate]|].
    destruct (test false vocab_header_re (trim line));
      [split; cbn; [exact Ht|discriminate]|].
    unfold collect.
    destruct (currentSection st) eqn:Hs0; try congruence;
      repeat break_match; split; cbn; congruence.
Qed.

Lemma fold_no_title_yet lines : forall st,
  forallb (fun l => negb (header_is 1 l)) lines = true ->
  no_title_yet st -> no_title_yet (fold_left step lines st).
Proof.
  induction lines as [|l ls IH]; intros st H Hst; [exact Hst|].
  cbn [forallb] in H. apply andb_true_iff in H as [H1 H2].
  cbn [fold_left]. apply IH; [exact H2|].
  apply step_no_title_yet; [now apply negb_true_iff in H1|exact Hst].
Qed.

Lemma step_no_body_yet st line :
  header_is 2 line = false -> no_body_yet st -> no_body_yet (step st line).
Proof.
  intros Hl [Hb Hs]. unfold no_body_yet, step. cbv zeta.
  destruct (header_step st (trim line)) as [st'|] eqn:E.
  - destruct (header_step_number st _ st' E) as (n & Hn & Hsec).
    unfold header_is in Hl. rewrite Hn in Hl. apply N.eqb_neq in Hl.
    destruct (header_step_fields _ _ _ E) as (Hbody & _).
    split; [now rewrite Hbody|].
    intros Hs'. rewrite Hs' in Hsec. destruct Hsec as [-> _]. congruence.
  - destruct (test false translation_header_re (trim line));
      [split; cbn; [exact Hb|discriminate]|].
    destruct (test false vocab_header_re (trim line));
      [split; cbn; [exact Hb|discriminate]|].
    unfold collect.
    destruct (currentSection st) eqn:Hs0; try congruence;
      repeat break_match; split; cbn; congruence.
Qed.

Lemma fold_no_body_yet lines : forall st,
  forallb (fun l => negb (header_is 2 l)) lines = true ->
  no_body_yet st -> no_body_yet (fold_left step lines st).
Proof.
  induction lines as [|l ls IH]; intros st H Hst; [exact Hst|].
  cbn [forallb] in H. apply andb_true_iff in H as [H1 H2].
  cbn [fold_left]. apply IH; [exact H2|].
  apply step_no_body_yet; [now apply negb_true_iff in H1|exact Hst].
Qed.

End LoopFacts.

(** X1: every accepted record has a non-empty title and a non-empty body,
    and its title, body and translation have no white space at either
    end. *)
Theorem accepted_record_trimmed (text : jsstring) (p : Parsed.t) :
  parseTemplate text = Some p ->
  Parsed.title p <> [] /\ clean (Parsed.title p) /\
  Parsed.english p <> [] /\ clean (Parsed.english p) /\
  clean (Parsed.translation p).
Proof.
  unfold parseTemplate. cbv zeta.
  destruct (isEmpty (title (scan text))) eqn:E1; [discriminate|].
  destruct (isEmpty (trim (englishBody (scan text)))) eqn:E2; [discriminate|].
  cbn [orb]. intros [= <-].
  cbn [Parsed.title Parsed.english Parsed.translation].
  destruct (LoopFacts.fold_title_kept (split_on LF text) initial
              LoopFacts.initial_title_kept) as [Hcl _].
  fold (scan text) in Hcl.
  split; [intros H; now rewrite H in E1|].
  split; [exact Hcl|].
  split; [intros H; now rewrite H in E2|].
  split; apply TrimFacts.trim_clean.
Qed.

Lemma accepted_record_trimmed_witness :
  utf16 "The Lost Key" <> [] /\ clean (utf16 "The Lost Key") /\
  utf16 "She found a key." <> [] /\ clean (utf16 "She found a key.") /\
  clean [].
Proof.
  apply (accepted_record_trimmed scenario_B
           (Parsed.Make (utf16 "The Lost Key") (utf16 "She found a key.") [] [])).
  vm_compute. reflexivity.
Defined.

(** X2: the title section never waits for a title.  Whenever the loop is in
    the title section the title is already there, taken from the header
    line, so the branch of line 124 that reads the title from a following
    line never assigns: every line that is no boundary leaves the state as
    it is. *)
Theorem title_section_is_settled (lines : list jsstring) (line : jsstring) :
  currentSection (fold_left step lines initial) = STitle ->
  title (fold_left step lines initial) <> [] /\
  (switches_to line = None ->
   step (fold_left step lines initial) line = fold_left step lines initial).
Proof.
  intros Hs.
  destruct (LoopFacts.fold_title_kept lines initial LoopFacts.initial_title_kept)
    as [_ Ht].
  specialize (Ht Hs). split; [exact Ht|].
  intros Hb. rewrite (HeaderFacts.not_a_boundary _ line Hb).
  unfold collect. rewrite Hs.
  rewrite (ParserFacts.isEmpty_false _ Ht). now rewrite andb_false_r.
Qed.

Lemma title_section_is_settled_witness :
  title (fold_left step [utf16 "### 1. Title"] initial) <> [] /\
  step (fold_left step [utf16 "### 1. Title"] initial) (utf16 "The Lost Key") =
  fold_left step [utf16 "### 1. Title"] initial.
Proof.
  destruct (title_section_is_settled [utf16 "### 1. Title"] (utf16 "The Lost Key"))
    as [H1 H2]; [vm_compute; reflexivity|].
  split; [exact H1|]. apply H2. vm_compute. reflexivity.
Defined.

(** X3: a text without a header line numbered 1 is rejected, whatever else
    it contains. *)
Theorem no_title_header_rejected (text : jsstring) :
  forallb (fun l => negb (header_is 1 l)) (split_on LF text) = true ->
  parseTemplate text = None.
Proof.
  intros H. unfold parseTemplate, scan. cbv zeta.
  destruct (LoopFacts.fold_no_title_yet (split_on LF text) initial H) as [-> _];
    [split; [reflexivity|discriminate]|].
  reflexivity.
Qed.

Lemma no_title_header_rejected_witness :
  parseTemplate (lines_text ["Title: The Lost Key"; "### 2. English Short Story";
                             "She found a key."]%string) = None.
Proof. apply no_title_header_rejected. vm_compute. reflexivity. Defined.

(** X4: a text without a header line numbered 2 is rejected, whatever else
    it contains. *)
Theorem no_body_header_rejected (text : jsstring) :
  forallb (fun l => negb (header_is 2 l)) (split_on LF text) = true ->
  parseTemplate text = None.
Proof.
  intros H. unfold parseTemplate, scan. cbv zeta.
  destruct (LoopFacts.fold_no_body_yet (split_on LF text) initial H) as [-> _];
    [split; [reflexivity|discriminate]|].
  cbn [trim trimStart trimEnd rev isEmpty]. now rewrite orb_true_r.
Qed.

Lemma no_body_header_rejected_witness :
  parseTemplate (lines_text ["### 1. Title: The Lost Key"; "She found a key.";
                             "### 3. 重要単語ピックアップ";
                             "* **rusty**: covered with rust"]%string) = None.
Proof. apply no_body_header_rejected. vm_compute. reflexivity. Defined.

(** ** Numbered header lines *)

Module NumberedFacts.

Import RegexFacts TrimFacts HeaderFacts.

Lemma hd_error_app_some (A : Type) (l1 l2 : list A) (z : A) :
  hd_error l1 = Some z -> hd_error (l1 ++ l2) = Some z.
Proof. intros H. now rewrite hd_error_app, H. Qed.

Lemma digit_not_space d : isDigit d = true -> isWhiteSpace d = false.
Proof.
  unfold isDigit. intros H. apply andb_true_iff in H as [H1 H2].
  apply N.leb_le in H1, H2.
  unfold isWhiteSpace, isLineTerminator.
  repeat match goal with
         | |- context [?x =? ?y] =>
           destruct (N.eqb_spec x y); [lia|]
         end.
  destruct (N.leb_spec 0x2000 d); [lia|]. reflexivity.
Qed.

Lemma digit_run ic ds :
  Forall (fun d => isDigit d = true) ds -> run ic digit ds.
Proof. apply Forall_impl. intros d Hd. cbn. now rewrite Hd. Qed.

Lemma space_run_any ic ws :
  Forall (fun d => isWhiteSpace d = true) ws -> run ic space ws.
Proof. apply Forall_impl. intros d Hd. cbn. now rewrite Hd. Qed.

Lemma dot_run_any ic w :
  Forall (fun d => isLineTerminator d = false) w -> run ic Dot w.
Proof. apply Forall_impl. intros d Hd. cbn. now rewrite Hd. Qed.

Lemma space_stops_any ic c r : isWhiteSpace c = false -> stops ic space (c :: r).
Proof. intros Hc. cbn. now rewrite Hc. Qed.

Lemma trimEnd_tidy_fixed s : tidy_end s -> trimEnd s = s.
Proof.
  intros H. unfold trimEnd.
  destruct (rev s) as [|c r] eqn:E.
  - apply (f_equal (@rev N)) in E. rewrite rev_involutive in E. now subst.
  - assert (s = rev r ++ [c]) as Hs.
    { apply (f_equal (@rev N)) in E. now rewrite rev_involutive in E. }
    rewrite (trimStart_fixed c r (H _ _ Hs)). now rewrite Hs.
Qed.

(** A string that starts and ends with no white space is its own trim. *)
Lemma trim_fixed c r :
  isWhiteSpace c = false -> tidy_end (c :: r) -> trim (c :: r) = c :: r.
Proof.
  intros Hc Ht. unfold trim. rewrite (trimStart_fixed c r Hc).
  now apply trimEnd_tidy_fixed.
Qed.

(** After the marker, the match goes on from where the marker ends. *)
Lemma marker_then ic hashes d t (B : Type) (f : mstate -> list B) :
  marker hashes -> d <> 35 ->
  exists tl,
    flat_map f (rep ic true (Ch 35) 2 (Some 3%nat) [] (hashes ++ d :: t) []) =
    f (MState (rev hashes) (d :: t) []) ++ tl.
Proof.
  intros Hm Hd. destruct Hm; cbn [app rev].
  - rewrite hashes_two by assumption. cbn [flat_map]. eauto.
  - rewrite hashes_three. cbn [flat_map]. eauto.
Qed.

(** [(.+)] takes a whole line that has no line terminator. *)
Lemma group_dot_all ic n b c content cs :
  isLineTerminator c = false ->
  Forall (fun d => isLineTerminator d = false) content ->
  hd_error (matches ic (Group n (plus Dot)) (MState b (c :: content) cs)) =
  Some (MState (rev (c :: content) ++ b) [] ((n, c :: content) :: cs)).
Proof.
  intros Hc Hcontent. unfold plus. rewrite matches_group, matches_rep.
  destruct (rep_greedy_first ic Dot (c :: content) [] cs 1 b) as [tl Htl].
  - apply dot_run_any. now constructor.
  - exact I.
  - cbn. lia.
  - rewrite app_nil_r in Htl. rewrite Htl. cbn [map hd_error before after caps].
    assert (consumed (MState b (c :: content) cs)
                     (MState (rev (c :: content) ++ b) [] cs) = c :: content) as ->.
    { rewrite <- (app_nil_r (c :: content)) at 1. apply consumed_app. }
    reflexivity.
Qed.

Section Shape.

Variables (hashes ws1 digits ws2 content : list N) (c : N).
Hypothesis Hhashes : marker hashes.
Hypothesis Hws1 : Forall (fun d => isWhiteSpace d = true) ws1.
Hypothesis Hdigits : digits <> [].
Hypothesis Hdigit : Forall (fun d => isDigit d = true) digits.
Hypothesis Hws2 : Forall (fun d => isWhiteSpace d = true) ws2.
Hypothesis Hc : isWhiteSpace c = false.
Hypothesis Hcontent : Forall (fun d => isLineTerminator d = false) content.

Lemma content_first_dot : isLineTerminator c = false.
Proof.
  destruct (isLineTerminator c) eqn:E; [|reflexivity].
  apply lineTerminator_whiteSpace in E. congruence.
Qed.

(** The first match of the header pattern on a line of the shape takes the
    digits as the number and the rest of the line as the content. *)
Lemma header_exec :
  exists b,
    exec true header_re (hashes ++ ws1 ++ digits ++ 46 :: ws2 ++ c :: content) =
    Some (MState b [] [(2%nat, c :: content); (1%nat, digits)]).
Proof.
  eexists. unfold header_re. rewrite exec_bol, matches_seq_rep.
  assert (exists d t, ws1 ++ digits ++ 46 :: ws2 ++ c :: content = d :: t /\ d <> 35)
    as (d & t & Hdt & Hd).
  { destruct ws1 as [|w0 ws1'].
    - destruct digits as [|d0 ds]; [congruence|].
      exists d0, (ds ++ 46 :: ws2 ++ c :: content). split; [reflexivity|].
      inversion Hdigit as [|? ? H0 _]; subst. intros ->. discriminate.
    - exists w0, (ws1' ++ digits ++ 46 :: ws2 ++ c :: content).
      split; [reflexivity|]. inversion Hws1 as [|? ? H0 _]; subst.
      intros ->. discriminate. }
  rewrite Hdt.
  match goal with
  | |- hd_error (flat_map ?f _) = _ =>
    destruct (marker_then true hashes d t _ f Hhashes Hd) as [tl ->]
  end.
  apply hd_error_app_some. rewrite <- Hdt.
  change (Cls false [CSpace]) with space. change (Cls false [CDigit]) with digit.
  rewrite matches_seq_rep.
  apply rep_greedy_head;
    [ now apply space_run_any | | apply Nat.le_0_l | ].
  { destruct digits as [|d0 ds]; [congruence|].
    inversion Hdigit as [|? ? H0 _]; subst.
    apply space_stops_any. now apply digit_not_space. }
  rewrite matches_seq, matches_group, matches_rep, flat_map_map.
  apply rep_greedy_head;
    [ now apply digit_run | reflexivity | destruct digits; [congruence|cbn; lia] | ].
  cbn [before after caps]. rewrite consumed_app.
  rewrite matches_seq_atom, (atom_ch_nonletter true 46 46) by lia.
  rewrite N.eqb_refl, matches_seq_rep.
  apply rep_greedy_head;
    [ now apply space_run_any | now apply space_stops_any | apply Nat.le_0_l | ].
  rewrite (group_dot_all true 2 _ c content _ content_first_dot Hcontent).
  reflexivity.
Qed.

Lemma header_num_shape :
  header_num (hashes ++ ws1 ++ digits ++ 46 :: ws2 ++ c :: content) =
  Some (parseInt digits).
Proof.
  unfold header_num. destruct header_exec as [b ->]. reflexivity.
Qed.

End Shape.

(** Under the [i] flag the separator class matches what it matches
    without. *)
Lemma sep_any_case c : atom_matches true sep c = atom_matches false sep c.
Proof.
  unfold sep. cbn [atom_matches existsb item_matches xorb].
  change (canonicalize true c =? canonicalize true 58)
    with (atom_matches true (Ch 58) c).
  change (canonicalize true c =? canonicalize true 65306)
    with (atom_matches true (Ch 65306) c).
  change (canonicalize false c =? canonicalize false 58)
    with (atom_matches false (Ch 58) c).
  change (canonicalize false c =? canonicalize false 65306)
    with (atom_matches false (Ch 65306) c).
  now rewrite !atom_ch_nonletter by lia.
Qed.

Lemma sep_run_any_case seps :
  Forall (fun d => is_sep d = true) seps -> run true sep seps.
Proof.
  apply Forall_impl. intros d Hd. rewrite sep_any_case. exact Hd.
Qed.

(** The title pattern on a content that starts with the label. *)
Lemma title_exec label seps c t :
  map (canonicalize true) label = map (canonicalize true) [84; 105; 116; 108; 101] ->
  seps <> [] -> Forall (fun d => is_sep d = true) seps -> is_sep c = false ->
  Forall (fun d => isLineTerminator d = false) t ->
  exists b,
    exec true title_re (label ++ seps ++ c :: t) =
    Some (MState b [] [(1%nat, c :: t)]).
Proof.
  intros Hlabel Hseps Hrun Hc Ht.
  destruct label as [|l1 [|l2 [|l3 [|l4 [|l5 [|l6 label]]]]]]; try discriminate.
  cbn [map] in Hlabel. injection Hlabel as H1 H2 H3 H4 H5.
  assert (isLineTerminator c = false) as Hlt.
  { destruct (isLineTerminator c) eqn:E; [|reflexivity].
    apply lineTerminator_whiteSpace in E.
    unfold is_sep in Hc. fold sep in Hc.
    now rewrite (VocabFacts.sep_whiteSpace c E) in Hc. }
  eexists. unfold exec. erewrite exec_from_here; [reflexivity|].
  unfold match_at, title_re. cbn [app].
  change (Cls false [CChar 58; CSpace; CChar 65306]) with sep.
  repeat (rewrite matches_seq_assoc || rewrite matches_seq_eps
          || (rewrite matches_seq_atom; cbn [atom_matches];
              rewrite ?H1, ?H2, ?H3, ?H4, ?H5, ?N.eqb_refl)).
  rewrite matches_seq_rep.
  apply rep_greedy_head.
  - now apply sep_run_any_case.
  - cbn [stops]. rewrite sep_any_case. exact Hc.
  - destruct seps; [congruence|cbn; lia].
  - apply (group_dot_all true 1 _ c t _ Hlt Ht).
Qed.

End NumberedFacts.

(** X5: a line whose trimmed text is two or three [#], optional white
    space, decimal digits, a period, optional white space and a content
    without line terminators is a numbered header with the value of the
    digits as its number; leading zeros do not matter, and neither does what
    the content says: the numbers 2, 3 and 4 select the body, the vocabulary
    and the translation and change nothing else. *)
Theorem numbered_header_selects (st : pstate) (line : jsstring)
    (hashes ws1 digits ws2 content : jsstring) (c : N) :
  trim line = hashes ++ ws1 ++ digits ++ 46 :: ws2 ++ c :: content ->
  marker hashes ->
  Forall (fun d => isWhiteSpace d = true) ws1 ->
  digits <> [] -> Forall (fun d => isDigit d = true) digits ->
  Forall (fun d => isWhiteSpace d = true) ws2 ->
  isWhiteSpace c = false ->
  Forall (fun d => isLineTerminator d = false) content ->
  header_num (trim line) = Some (parseInt digits) /\
  (parseInt digits = 2 -> step st line = set_section st SEnglish) /\
  (parseInt digits = 3 -> step st line = set_section st SVocab) /\
  (parseInt digits = 4 -> step st line = set_section st STranslation).
Proof.
  intros Heq Hm Hws1 Hd Hdigit Hws2 Hc Hcontent.
  split.
  { rewrite Heq. now apply NumberedFacts.header_num_shape. }
  destruct (NumberedFacts.header_exec hashes ws1 digits ws2 content c
              Hm Hws1 Hd Hdigit Hws2 Hc Hcontent) as [b Hexec].
  unfold step, header_step. cbv zeta. rewrite Heq, Hexec.
  change (cap 1 (MState b [] [(2%nat, c :: content); (1%nat, digits)])) with digits.
  repeat split; intros ->; reflexivity.
Qed.

Lemma numbered_header_selects_witness :
  step in_vocab (utf16 "##02.x") = set_section in_vocab SEnglish.
Proof.
  destruct (numbered_header_selects in_vocab (utf16 "##02.x")
              [35; 35] [] [48; 50] [] [] 120) as (_ & H & _);
    [ reflexivity | constructor | constructor | discriminate
    | repeat constructor | constructor | reflexivity | constructor | ].
  apply H. reflexivity.
Defined.



(** ** Lines collected one after the other *)

Module AccumulateFacts.

Import RegexFacts TrimFacts HeaderFacts ParserFacts.

Lemma add_english_nil st : add_english st [] = st.
Proof. destruct st. unfold add_english. cbn. now rewrite app_nil_r. Qed.

Lemma add_english_twice st a b :
  add_english (add_english st a) b = add_english st (a ++ b).
Proof. unfold add_english. cbn. now rewrite app_assoc. Qed.

Lemma add_translation_nil st : add_translation st [] = st.
Proof. destruct st. unfold add_translation. cbn. now rewrite app_nil_r. Qed.

Lemma add_translation_twice st a b :
  add_translation (add_translation st a) b = add_translation st (a ++ b).
Proof. unfold add_translation. cbn. now rewrite app_assoc. Qed.

Lemma plain_line_step st line :
  plain_line line = true -> step st line = collect st line (trim line).
Proof.
  unfold plain_line. intros H. apply not_a_boundary.
  destruct (switches_to line); [discriminate|reflexivity].
Qed.

Lemma fold_body lines : forall st,
  currentSection st = SEnglish ->
  forallb plain_line lines = true ->
  fold_left step lines st = add_english st (with_terminators lines).
Proof.
  induction lines as [|l ls IH]; intros st Hs H.
  - cbn. now rewrite add_english_nil.
  - cbn [forallb] in H. apply andb_true_iff in H as [H1 H2].
    cbn [fold_left]. rewrite (plain_line_step st l H1).
    unfold collect. rewrite Hs. rewrite IH by assumption.
    rewrite add_english_twice. unfold with_terminators. cbn [flat_map].
    now rewrite <- app_assoc.
Qed.

Lemma fold_translation lines : forall st,
  currentSection st = STranslation ->
  forallb plain_translation_line lines = true ->
  fold_left step lines st = add_translation st (with_terminators lines).
Proof.
  induction lines as [|l ls IH]; intros st Hs H.
  - cbn. now rewrite add_translation_nil.
  - cbn [forallb] in H. apply andb_true_iff in H as [H1 H2].
    unfold plain_translation_line in H1. apply andb_true_iff in H1 as [H1 H3].
    apply negb_true_iff in H3.
    cbn [fold_left]. rewrite (plain_line_step st l H1).
    unfold collect. rewrite Hs, H3. rewrite IH by assumption.
    rewrite add_translation_twice. unfold with_terminators. cbn [flat_map].
    now rewrite <- app_assoc.
Qed.

Lemma fold_preamble lines : forall st,
  currentSection st = SNone ->
  forallb plain_line lines = true ->
  fold_left step lines st = st.
Proof.
  induction lines as [|l ls IH]; intros st Hs H; [reflexivity|].
  cbn [forallb] in H. apply andb_true_iff in H as [H1 H2].
  cbn [fold_left]. rewrite (plain_line_step st l H1).
  unfold collect. rewrite Hs. now apply IH.
Qed.

(** *** Splitting what was joined *)

Lemma split_on_plain l :
  no_line_feed l = true -> split_on LF l = [l].
Proof.
  induction l as [|c l IH]; [reflexivity|].
  cbn [no_line_feed forallb]. intros H. apply andb_true_iff in H as [H1 H2].
  apply negb_true_iff in H1. cbn [split_on]. rewrite H1.
  unfold no_line_feed in IH. now rewrite (IH H2).
Qed.

Lemma split_on_app l rest :
  no_line_feed l = true ->
  split_on LF (l ++ LF :: rest) = l :: split_on LF rest.
Proof.
  induction l as [|c l IH].
  - intros _. cbn [app split_on]. now rewrite N.eqb_refl.
  - cbn [no_line_feed forallb]. intros H. apply andb_true_iff in H as [H1 H2].
    apply negb_true_iff in H1. cbn [app split_on]. rewrite H1.
    unfold no_line_feed in IH. now rewrite (IH H2).
Qed.

Lemma split_join lines :
  lines <> [] -> forallb no_line_feed lines = true ->
  split_on LF (join [LF] lines) = lines.
Proof.
  induction lines as [|l ls IH]; [congruence|]. intros _ H.
  cbn [forallb] in H. apply andb_true_iff in H as [H1 H2].
  destruct ls as [|l' ls].
  - cbn [join]. now apply split_on_plain.
  - change (join [LF] (l :: l' :: ls)) with (l ++ LF :: join [LF] (l' :: ls)).
    rewrite split_on_app by assumption. f_equal. apply IH; [discriminate|exact H2].
Qed.

End AccumulateFacts.

(** X7: the body and the translation are collected verbatim and in order.
    From a state in the body section, lines that are no section boundary
    are appended to the body one after the other, each followed by a line
    feed, blank lines included; from a state in the translation section the
    same holds for lines that are neither a boundary nor a sub-header.
    Nothing else of the state changes. *)
Theorem sections_collect_verbatim (st : pstate) (lines : list jsstring) :
  (currentSection st = SEnglish -> forallb plain_line lines = true ->
   fold_left step lines st = add_english st (with_terminators lines)) /\
  (currentSection st = STranslation ->
   forallb plain_translation_line lines = true ->
   fold_left step lines st = add_translation st (with_terminators lines)).
Proof.
  split; intros Hs H.
  - now apply AccumulateFacts.fold_body.
  - now apply AccumulateFacts.fold_translation.
Qed.

Lemma sections_collect_verbatim_witness :
  fold_left step [utf16 "It was old."; []; utf16 "  It was rusty."] in_body =
  add_english in_body
    (with_terminators [utf16 "It was old."; []; utf16 "  It was rusty."]) /\
  fold_left step [utf16 "それは古かった。"; utf16 "##x"] in_translation =
  add_translation in_translation
    (with_terminators [utf16 "それは古かった。"; utf16 "##x"]).
Proof.
  split.
  - apply (proj1 (sections_collect_verbatim in_body _));
      [reflexivity|vm_compute; reflexivity].
  - apply (proj2 (sections_collect_verbatim in_translation _));
      [reflexivity|vm_compute; reflexivity].
Defined.

(** X8: what stands before the first section boundary never reaches the
    record: a text and the same text without its leading lines that are no
    boundary parse alike. *)
Theorem preamble_is_dropped (pre rest : list jsstring) :
  rest <> [] ->
  forallb no_line_feed pre = true -> forallb no_line_feed rest = true ->
  forallb plain_line pre = true ->
  parseTemplate (join [LF] (pre ++ rest)) = parseTemplate (join [LF] rest).
Proof.
  intros Hne Hpre Hrest Hplain.
  unfold parseTemplate, scan.
  rewrite !AccumulateFacts.split_join; try assumption.
  - rewrite fold_left_app.
    now rewrite (AccumulateFacts.fold_preamble pre initial eq_refl Hplain).
  - destruct pre; [exact Hne|discriminate].
  - rewrite forallb_app. now rewrite Hpre, Hrest.
Qed.

Lemma preamble_is_dropped_witness :
  parseTemplate (join [LF] ([utf16 "Here is your story:"; []] ++
                            map utf16 ["### 1. Title: The Lost Key";
                                       "### 2. English Short Story";
                                       "She found a key."]%string)) =
  parseTemplate (join [LF] (map utf16 ["### 1. Title: The Lost Key";
                                       "### 2. English Short Story";
                                       "She found a key."]%string)).
Proof.
  apply preamble_is_dropped;
    [discriminate | vm_compute; reflexivity ..].
Defined.

(** ** Keyword headers *)

Module KeywordFacts.

Import RegexFacts TrimFacts HeaderFacts VocabFacts.

Lemma numbered_boundary_none st line :
  numbered_boundary line = false -> header_step st (trim line) = None.
Proof.
  unfold numbered_boundary, header_is, header_num, header_step.
  destruct (exec true header_re (trim line)) as [y|]; [|reflexivity].
  cbn [option_map]. cbv zeta. intros H.
  apply orb_false_iff in H as [H H4]. apply orb_false_iff in H as [H H3].
  apply orb_false_iff in H as [H1 H2]. now rewrite H1, H2, H3, H4.
Qed.

(** Two [#] are enough for the marker. *)
Lemma hashes_in ic b rest cs :
  In (MState (35 :: 35 :: b) rest cs)
     (rep ic true (Ch 35) 2 (Some 3%nat) b (35 :: 35 :: rest) cs).
Proof.
  cbn [rep max_allows andb option_map pred]. rewrite hash_matches.
  rewrite app_nil_r, app_nil_r.
  destruct rest as [|c r]; [now left|].
  destruct (atom_matches ic (Ch 35) c); apply in_or_app; right; now left.
Qed.

(** A line that starts with two [#] and holds the keyword after text
    without line terminators matches the keyword pattern. *)
Lemma keyword_test k1 k2 k3 k4 pre post :
  Forall (fun d => isLineTerminator d = false) pre ->
  test false
       (Seq Bol (Seq (Rep true 2 (Some 3%nat) (Ch 35))
          (Seq (Rep true 0 None space) (Seq (Rep true 0 None Dot)
             (lit [k1; k2; k3; k4])))))
       (35 :: 35 :: pre ++ [k1; k2; k3; k4] ++ post) = true.
Proof.
  intros Hpre. unfold test. rewrite exec_bol, matches_seq_rep.
  assert (flat_map
            (matches false (Seq (Rep true 0 None space)
                              (Seq (Rep true 0 None Dot) (lit [k1; k2; k3; k4]))))
            (rep false true (Ch 35) 2 (Some 3%nat) []
                 (35 :: 35 :: pre ++ [k1; k2; k3; k4] ++ post) []) <> []) as Hne.
  { apply (flat_map_in_some _ _ _ _ _ (hashes_in false [] _ [])).
    rewrite matches_seq_rep.
    apply (flat_map_in_some _ _ _ _
             (MState [35; 35] (pre ++ [k1; k2; k3; k4] ++ post) [])).
    { apply (rep_in_run false true space [] _ [] 0 [35; 35]);
        [constructor|apply Nat.le_0_l]. }
    rewrite matches_seq_rep.
    apply (flat_map_in_some _ _ _ _
             (MState (rev pre ++ [35; 35]) ([k1; k2; k3; k4] ++ post) [])).
    { apply rep_in_run; [|apply Nat.le_0_l].
      revert Hpre. apply Forall_impl. intros d Hd. cbn. now rewrite Hd. }
    cbn [lit app].
    repeat (rewrite matches_seq_atom, atom_ch_self).
    cbn. discriminate. }
  destruct (hd_error _) eqn:E; [reflexivity|].
  apply hd_error_nil_inv in E. congruence.
Qed.

End KeywordFacts.

(** X9: a header line that carries none of the numbers 1 to 4 starts the
    translation when its trimmed text is two [#], a text without line
    terminators, the translation keyword and anything after it, whatever
    else the line says; it starts the vocabulary when its trimmed text is
    two [#], a text without line terminators, the vocabulary keyword and
    anything after it, and the translation pattern does not match.  Nothing
    else of the state changes. *)
Theorem keyword_header_selects (st : pstate) (line : jsstring) :
  numbered_boundary line = false ->
  (forall pre post,
      trim line = utf16 "##" ++ pre ++ utf16 "日本語訳" ++ post ->
      Forall (fun d => isLineTerminator d = false) pre ->
      step st line = set_section st STranslation) /\
  (forall pre post,
      trim line = utf16 "##" ++ pre ++ utf16 "重要単語" ++ post ->
      Forall (fun d => isLineTerminator d = false) pre ->
      test false translation_header_re (trim line) = false ->
      step st line = set_section st SVocab).
Proof.
  intros Hn. unfold step. cbv zeta.
  rewrite (KeywordFacts.numbered_boundary_none st line Hn).
  split.
  - intros pre post Heq Hpre. rewrite Heq.
    change (test false translation_header_re
                 (utf16 "##" ++ pre ++ utf16 "日本語訳" ++ post))
      with (test false
              (Seq Bol (Seq (Rep true 2 (Some 3%nat) (Ch 35))
                 (Seq (Rep true 0 None space) (Seq (Rep true 0 None Dot)
                    (lit [26085; 26412; 35486; 35379])))))
              (35 :: 35 :: pre ++ [26085; 26412; 35486; 35379] ++ post)).
    now rewrite KeywordFacts.keyword_test.
  - intros pre post Heq Hpre Ht. rewrite Ht. rewrite Heq.
    change (test false vocab_header_re
                 (utf16 "##" ++ pre ++ utf16 "重要単語" ++ post))
      with (test false
              (Seq Bol (Seq (Rep true 2 (Some 3%nat) (Ch 35))
                 (Seq (Rep true 0 None space) (Seq (Rep true 0 None Dot)
                    (lit [37325; 35201; 21336; 35486])))))
              (35 :: 35 :: pre ++ [37325; 35201; 21336; 35486] ++ post)).
    now rewrite KeywordFacts.keyword_test.
Qed.

Lemma keyword_header_selects_witness :
  step in_body (utf16 "#### 5. 日本語訳 (Japanese)") = set_section in_body STranslation /\
  step in_body (utf16 "## 重要単語") = set_section in_body SVocab.
Proof.
  split.
  - apply (proj1 (keyword_header_selects in_body (utf16 "#### 5. 日本語訳 (Japanese)")
                    ltac:(vm_compute; reflexivity))
             (utf16 "## 5. ") (utf16 " (Japanese)"));
      [vm_compute; reflexivity | vm_compute; repeat constructor].
  - apply (proj2 (keyword_header_selects in_body (utf16 "## 重要単語")
                    ltac:(vm_compute; reflexivity))
             (utf16 " ") []);
      [vm_compute; reflexivity | vm_compute; repeat constructor
      | vm_compute; reflexivity].
Defined.

(** ** Templates in the documented format *)

Module TemplateFacts.

Import RegexFacts TrimFacts HeaderFacts VocabFacts NumberedFacts AccumulateFacts.

Lemma tidy_end_app x m : m <> [] -> tidy_end m -> tidy_end (x ++ m).
Proof.
  intros Hne Ht r c H.
  destruct (rev m) as [|d rm] eqn:E.
  { apply (f_equal (@rev N)) in E. rewrite rev_involutive in E. now subst. }
  assert (m = rev rm ++ [d]) as Hm.
  { apply (f_equal (@rev N)) in E. now rewrite rev_involutive in E. }
  rewrite Hm, app_assoc in H. apply app_inj_tail in H as [_ <-].
  exact (Ht _ _ Hm).
Qed.

Lemma not_sep_not_space c : is_sep c = false -> isWhiteSpace c = false.
Proof.
  intros H. destruct (isWhiteSpace c) eqn:E; [|reflexivity].
  unfold is_sep in H. fold sep in H. now rewrite (sep_whiteSpace c E) in H.
Qed.

Lemma field_trim s : field s -> trim s = s.
Proof.
  intros ((c & r & -> & Hc) & _ & Ht).
  apply trim_fixed; [now apply not_sep_not_space|exact Ht].
Qed.

Lemma no_terminator_no_line_feed s :
  Forall (fun d => isLineTerminator d = false) s -> no_line_feed s = true.
Proof.
  intros H. unfold no_line_feed. apply forallb_forall. intros c Hc.
  apply (proj1 (Forall_forall _ _) H) in Hc.
  destruct (N.eqb_spec c LF) as [->|]; [discriminate|reflexivity].
Qed.

(** The title line. *)
Lemma title_line_step st t :
  field t ->
  step st (utf16 "### 1. Title: " ++ t) = set_section (set_title st t) STitle.
Proof.
  intros ((c & r & -> & Hc) & Hdot & Ht).
  assert (isWhiteSpace c = false) as Hws by now apply not_sep_not_space.
  inversion Hdot as [|? ? Hcdot Hrdot]; subst.
  assert (tidy_end (utf16 "### 1. Title: " ++ c :: r)) as Hline.
  { apply tidy_end_app; [discriminate|exact Ht]. }
  assert (trim (utf16 "### 1. Title: " ++ c :: r) = utf16 "### 1. Title: " ++ c :: r)
    as Htrim.
  { change (utf16 "### 1. Title: " ++ c :: r)
      with (35 :: (utf16 "## 1. Title: " ++ c :: r)) in *.
    now apply trim_fixed. }
  destruct (header_exec [35; 35; 35] [32] [49] [32] (utf16 "itle: " ++ c :: r) 84)
    as [b Hexec];
    [ constructor | repeat constructor | discriminate | repeat constructor
    | repeat constructor | reflexivity | | ].
  { change (utf16 "itle: ") with [105; 116; 108; 101; 58; 32]. cbn [app].
    repeat (constructor; [reflexivity|]). now constructor. }
  destruct (title_exec (utf16 "Title") [58; 32] c r)
    as [b' Hexec'];
    [ reflexivity | discriminate | repeat constructor | exact Hc | exact Hrdot | ].
  unfold step, header_step. cbv zeta. rewrite Htrim.
  change (utf16 "### 1. Title: " ++ c :: r)
    with ([35; 35; 35] ++ [32] ++ [49] ++ 46 :: [32] ++ 84 :: utf16 "itle: " ++ c :: r).
  rewrite Hexec.
  change (cap 1 (MState b [] [(2%nat, 84 :: utf16 "itle: " ++ c :: r); (1%nat, [49])]))
    with [49].
  change (cap 2 (MState b [] [(2%nat, 84 :: utf16 "itle: " ++ c :: r); (1%nat, [49])]))
    with (84 :: utf16 "itle: " ++ c :: r).
  change (parseInt [49] =? 1) with true. cbv iota.
  assert (trim (84 :: utf16 "itle: " ++ c :: r) = 84 :: utf16 "itle: " ++ c :: r)
    as ->.
  { apply trim_fixed; [reflexivity|].
    change (84 :: utf16 "itle: " ++ c :: r) with (utf16 "Title: " ++ c :: r).
    apply tidy_end_app; [discriminate|exact Ht]. }
  change (84 :: utf16 "itle: " ++ c :: r) with (utf16 "Title" ++ [58; 32] ++ c :: r).
  rewrite Hexec'.
  change (cap 1 (MState b' [] [(1%nat, c :: r)])) with (c :: r).
  now rewrite (trim_fixed c r Hws Ht).
Qed.

Lemma body_header_step st :
  step st (utf16 "### 2. English Short Story") = set_section st SEnglish.
Proof. vm_compute. reflexivity. Qed.

Lemma vocab_header_step st :
  step st (utf16 "### 3. 重要単語ピックアップ") = set_section st SVocab.
Proof. vm_compute. reflexivity. Qed.

Lemma translation_header_step st :
  step st (utf16 "### 4. 日本語訳") = set_section st STranslation.
Proof. vm_compute. reflexivity. Qed.

(** A line of the vocabulary in the documented format adds its entry. *)
Lemma entry_line_step st e :
  currentSection st = SVocab -> plain_entry e ->
  step st (entry_line e) = push_vocab st e.
Proof.
  intros Hs [(Hw & [Hwhead Hwtidy] & Hwdot & Hwplain) Hm].
  destruct e as [w m]. cbn [word meaning] in *.
  pose proof (field_trim m Hm) as Hmtrim.
  destruct Hm as ((c & r & -> & Hc) & Hmdot & Hmtidy).
  assert (trim w = w) as Hwtrim.
  { destruct w as [|w0 w']; [congruence|].
    apply trim_fixed; [exact (Hwhead w0 w' eq_refl)|exact Hwtidy]. }
  unfold entry_line. cbn [word meaning].
  change (utf16 "* **") with [42; 32; 42; 42].
  change (utf16 "**: ") with [42; 42; 58; 32]. cbn [app].
  assert (trim (42 :: 32 :: 42 :: 42 :: w ++ 42 :: 42 :: 58 :: 32 :: c :: r) =
          42 :: 32 :: 42 :: 42 :: w ++ 42 :: 42 :: 58 :: 32 :: c :: r) as Htrim.
  { apply trim_fixed; [reflexivity|].
    assert (42 :: 32 :: 42 :: 42 :: w ++ 42 :: 42 :: 58 :: 32 :: c :: r =
            (42 :: 32 :: 42 :: 42 :: w ++ [42; 42; 58; 32]) ++ c :: r) as ->.
    { cbn [app]. now rewrite <- app_assoc. }
    apply tidy_end_app; [discriminate|exact Hmtidy]. }
  rewrite (VocabInvariant.bullet_line_collected st _ 42
             (32 :: 42 :: 42 :: w ++ 42 :: 42 :: 58 :: 32 :: c :: r)
             (or_introl eq_refl) Htrim).
  unfold collect. rewrite Hs.
  rewrite vocab_re_parts, exec_bol, matches_seq_atom.
  change (atom_matches false bullet_class 42) with true. cbv iota.
  rewrite matches_seq_rep.
  rewrite (rep_greedy_head false space [32]
             (42 :: 42 :: w ++ 42 :: 42 :: [58; 32] ++ c :: r) [] 0 [42] _ _
             (MState (rev (c :: r) ++ rev [58; 32] ++ 42 :: 42 :: rev w ++ 42 :: 42 :: rev [32] ++ [42])
                     [] [(2%nat, c :: r); (1%nat, w)])).
  - change (cap 1 (MState _ [] [(2%nat, c :: r); (1%nat, w)])) with w.
    change (cap 2 (MState _ [] [(2%nat, c :: r); (1%nat, w)])) with (c :: r).
    now rewrite Hwtrim, Hmtrim.
  - repeat constructor.
  - reflexivity.
  - apply Nat.le_0_l.
  - rewrite bold_mark_step.
    apply (word_group_first w Hw (VocabInvariant.dot_run w Hwdot) Hwplain).
    apply (meaning_tail_first [58; 32] (c :: r)).
    + discriminate.
    + repeat constructor.
    + discriminate.
    + exact Hc.
    + now apply VocabInvariant.dot_run.
Qed.

Lemma entry_line_no_line_feed e :
  plain_entry e -> no_line_feed (entry_line e) = true.
Proof.
  intros [(_ & _ & Hw & _) (_ & Hm & _)].
  apply no_terminator_no_line_feed. unfold entry_line.
  repeat (apply Forall_app; split); try assumption; repeat constructor.
Qed.

Lemma fold_entries entries : forall st,
  currentSection st = SVocab -> Forall plain_entry entries ->
  fold_left step (map entry_line entries) st =
  PState (title st) (englishBody st) (vocabItems st ++ entries)
         (translationText st) SVocab.
Proof.
  induction entries as [|e es IH]; intros st Hs H.
  - cbn. rewrite app_nil_r. destruct st. cbn in Hs. now subst.
  - inversion H as [|? ? He Hes]; subst.
    cbn [map fold_left]. rewrite (entry_line_step st e Hs He).
    rewrite IH by assumption. cbn. now rewrite <- app_assoc.
Qed.

End TemplateFacts.

(** X10: a template in the documented format parses to its parts.  For a
    title, body lines, vocabulary entries and translation lines written out
    as the format comment shows, [parseTemplate] returns the title, the body
    lines joined and trimmed, the entries in their order and the translation
    lines joined and trimmed.  The title and the meanings have no line
    terminator, start with no separator and end with no white space; the
    words have no asterisk, no line terminator and no white space at their
    ends; the body and translation lines are no section boundaries (nor
    sub-headers, in the translation) and the body shows some text. *)
Theorem template_parses (t : jsstring) (body : list jsstring)
    (entries : list vocab_item) (translation : list jsstring) :
  field t ->
  forallb no_line_feed body = true -> forallb plain_line body = true ->
  trim (with_terminators body) <> [] ->
  Forall plain_entry entries ->
  forallb no_line_feed translation = true ->
  forallb plain_translation_line translation = true ->
  parseTemplate (join [LF] (template t body entries translation)) =
  Some (Parsed.Make t (trim (with_terminators body)) entries
                    (trim (with_terminators translation))).
Proof.
  intros Ht Hbody_lf Hbody Hshown Hentries Htr_lf Htr.
  assert (t <> []) as Htne.
  { destruct Ht as ((c & r & -> & _) & _). discriminate. }
  unfold parseTemplate, scan, template.
  rewrite AccumulateFacts.split_join; [|discriminate|].
  - cbn [app fold_left].
    rewrite (TemplateFacts.title_line_step initial t Ht).
    rewrite TemplateFacts.body_header_step.
    rewrite fold_left_app.
    rewrite (AccumulateFacts.fold_body body); [|reflexivity|exact Hbody].
    cbn [fold_left]. rewrite TemplateFacts.vocab_header_step, fold_left_app.
    rewrite (TemplateFacts.fold_entries entries); [|reflexivity|exact Hentries].
    cbn [fold_left]. rewrite TemplateFacts.translation_header_step.
    rewrite (AccumulateFacts.fold_translation translation);
      [|reflexivity|exact Htr].
    cbn [title englishBody vocabItems translationText currentSection
         set_section set_title add_english add_translation initial app].
    rewrite (ParserFacts.isEmpty_false _ Htne), (ParserFacts.isEmpty_false _ Hshown).
    reflexivity.
  - cbn [app]. repeat (rewrite forallb_app || cbn [forallb]).
    rewrite Hbody_lf, Htr_lf.
    assert (no_line_feed (utf16 "### 1. Title: " ++ t) = true) as ->.
    { apply TemplateFacts.no_terminator_no_line_feed.
      apply Forall_app. split; [vm_compute; repeat constructor|].
      now destruct Ht as (_ & Hdot & _). }
    assert (forallb no_line_feed (map entry_line entries) = true) as ->.
    { apply forallb_forall. intros l Hl. apply in_map_iff in Hl as (e & <- & He).
      apply TemplateFacts.entry_line_no_line_feed.
      exact (proj1 (Forall_forall _ _) Hentries e He). }
    reflexivity.
Qed.

Lemma template_parses_witness :
  parseTemplate
    (join [LF]
       (template (utf16 "The Lost Key")
          [utf16 "She found a **rusty** key."; []; utf16 "It was old."]
          [VocabItem (utf16 "rusty") (utf16 "covered with rust");
           VocabItem (utf16 "key") (utf16 "鍵")]
          [utf16 "彼女は錆びた鍵を見つけた。"])) =
  Some (Parsed.Make (utf16 "The Lost Key")
          (trim (with_terminators
                   [utf16 "She found a **rusty** key."; []; utf16 "It was old."]))
          [VocabItem (utf16 "rusty") (utf16 "covered with rust");
           VocabItem (utf16 "key") (utf16 "鍵")]
          (trim (with_terminators [utf16 "彼女は錆びた鍵を見つけた。"]))).
Proof.
  apply template_parses.
  - split; [exists 84, (utf16 "he Lost Key"); split; reflexivity|].
    split; [vm_compute; repeat constructor|].
    intros r c H. apply (f_equal (@rev N)) in H. rewrite rev_app_distr in H.
    vm_compute in H. now injection H as <- _.
  - vm_compute. reflexivity.
  - vm_compute. reflexivity.
  - vm_compute. discriminate.
  - repeat constructor; cbn [word meaning]; try discriminate;
      try (vm_compute; repeat constructor; discriminate);
      try (intros c r H; vm_compute in H; now injection H as <- _);
      try (intros r c H; apply (f_equal (@rev N)) in H; rewrite rev_app_distr in H;
           vm_compute in H; now injection H as <- _);
      try (eexists _, _; split; reflexivity).
  - vm_compute. reflexivity.
  - vm_compute. reflexivity.
Defined.

(** ** Templates without vocabulary entries *)

Module MinimalFacts.

Import RegexFacts ParserFacts AccumulateFacts TemplateFacts.

Lemma title_line_no_line_feed t :
  field t -> no_line_feed (utf16 "### 1. Title: " ++ t) = true.
Proof.
  intros (_ & Hdot & _). apply no_terminator_no_line_feed.
  apply Forall_app. split; [vm_compute; repeat constructor|exact Hdot].
Qed.

Lemma title_and_body_no_line_feed t body :
  field t -> forallb no_line_feed body = true ->
  forallb no_line_feed (title_and_body t body) = true.
Proof.
  intros Ht Hbody. unfold title_and_body. cbn [app forallb].
  now rewrite (title_line_no_line_feed t Ht), Hbody.
Qed.

(** The state after the title line, the body header and the body. *)
Lemma fold_title_and_body t body :
  field t -> forallb plain_line body = true ->
  fold_left step (title_and_body t body) initial =
  PState t (with_terminators body) [] [] SEnglish.
Proof.
  intros Ht Hbody. unfold title_and_body. cbn [app fold_left].
  rewrite (title_line_step initial t Ht), body_header_step.
  rewrite (fold_body body); [reflexivity|reflexivity|exact Hbody].
Qed.

(** In the vocabulary section a line that is no boundary and does not match
    the vocabulary pattern changes nothing. *)
Lemma fold_unmatched glossary : forall st,
  currentSection st = SVocab -> forallb unmatched_line glossary = true ->
  fold_left step glossary st = st.
Proof.
  induction glossary as [|l ls IH]; intros st Hs H; [reflexivity|].
  cbn [forallb] in H. apply andb_true_iff in H as [H1 H2].
  unfold unmatched_line in H1. apply andb_true_iff in H1 as [Hplain Hno].
  apply negb_true_iff in Hno.
  cbn [fold_left]. rewrite (plain_line_step st l Hplain).
  unfold collect. rewrite Hs, (test_false_exec false vocab_re _ Hno).
  now apply IH.
Qed.

Lemma scan_title_and_body t body :
  field t -> forallb no_line_feed body = true -> forallb plain_line body = true ->
  scan (join [LF] (title_and_body t body)) =
  PState t (with_terminators body) [] [] SEnglish.
Proof.
  intros Ht Hlf Hbody. unfold scan.
  rewrite split_join; [|discriminate|now apply title_and_body_no_line_feed].
  now apply fold_title_and_body.
Qed.

Lemma scan_with_glossary t body glossary :
  field t -> forallb no_line_feed body = true -> forallb plain_line body = true ->
  forallb no_line_feed glossary = true -> forallb unmatched_line glossary = true ->
  scan (join [LF] (with_glossary t body glossary)) =
  PState t (with_terminators body) [] [] SVocab.
Proof.
  intros Ht Hlf Hbody Hglf Hg. unfold scan, with_glossary.
  rewrite split_join.
  - rewrite fold_left_app, (fold_title_and_body t body Ht Hbody).
    cbn [app fold_left]. rewrite vocab_header_step.
    now apply fold_unmatched.
  - unfold title_and_body. discriminate.
  - rewrite forallb_app, (title_and_body_no_line_feed t body Ht Hlf).
    cbn [app forallb andb]. rewrite Hglf. reflexivity.
Qed.

End MinimalFacts.

(** C7: an input whose extracted title and trimmed body are non-empty is
    accepted, and the record carries that title and that body.  If no line
    of its vocabulary section matches the vocabulary pattern the vocabulary
    of the record is empty, and if no line opens the vocabulary or the
    translation section both the vocabulary and the translation are empty.
    In particular, for a template that consists of the title line, the body
    header and body lines, followed or not by a vocabulary header and lines
    that match no entry, the record is the title of the title line, the body
    lines joined and trimmed, no vocabulary and no translation. *)
Theorem parseTemplate_minimal (text : jsstring) :
  title (scan text) <> [] -> trim (englishBody (scan text)) <> [] ->
  exists p,
    parseTemplate text = Some p /\
    Parsed.title p = title (scan text) /\
    Parsed.english p = trim (englishBody (scan text)) /\
    (vocab_section_unmatched initial (split_on LF text) = true ->
     Parsed.vocab p = []) /\
    (forallb (fun l => negb (opens_vocab_or_translation l)) (split_on LF text) = true ->
     Parsed.vocab p = [] /\ Parsed.translation p = []) /\
    (forall t body glossary,
        text = join [LF] (with_glossary t body glossary) ->
        field t ->
        forallb no_line_feed body = true -> forallb plain_line body = true ->
        forallb no_line_feed glossary = true ->
        forallb unmatched_line glossary = true ->
        p = Parsed.Make t (trim (with_terminators body)) [] []) /\
    (forall t body,
        text = join [LF] (title_and_body t body) ->
        field t ->
        forallb no_line_feed body = true -> forallb plain_line body = true ->
        p = Parsed.Make t (trim (with_terminators body)) [] []).
Proof.
  intros Ht Hb. rewrite (ParserFacts.parseTemplate_accepts _ Ht Hb).
  eexists. split; [reflexivity|].
  cbn [Parsed.title Parsed.english Parsed.vocab Parsed.translation].
  split; [reflexivity|]. split; [reflexivity|].
  split; [|split; [|split]].
  - intros H. unfold scan. now rewrite (ParserFacts.scan_vocab_unmatched _ _ H).
  - intros H.
    destruct (ParserFacts.scan_outside_glossary (split_on LF text) initial)
      as (_ & _ & Hv & Htr); [repeat split; discriminate|exact H|].
    unfold scan. now rewrite Hv, Htr.
  - intros t body glossary -> Hfield Hlf Hbody Hglf Hg.
    now rewrite (MinimalFacts.scan_with_glossary t body glossary
                   Hfield Hlf Hbody Hglf Hg).
  - intros t body -> Hfield Hlf Hbody.
    now rewrite (MinimalFacts.scan_title_and_body t body Hfield Hlf Hbody).
Qed.

Lemma parseTemplate_minimal_witness :
  parseTemplate
    (join [LF] (with_glossary (utf16 "The Lost Key") [utf16 "She found a key."]
                              [utf16 "rusty - covered with rust"])) =
  Some (Parsed.Make (utf16 "The Lost Key") (utf16 "She found a key.") [] []) /\
  parseTemplate scenario_B =
  Some (Parsed.Make (utf16 "The Lost Key") (utf16 "She found a key.") [] []).
Proof.
  split.
  - destruct (parseTemplate_minimal
                (join [LF] (with_glossary (utf16 "The Lost Key")
                              [utf16 "She found a key."]
                              [utf16 "rusty - covered with rust"])))
      as (p & Hp & _ & _ & _ & _ & Hshape & _);
      [vm_compute; discriminate ..|].
    rewrite Hp. f_equal.
    apply (Hshape (utf16 "The Lost Key") [utf16 "She found a key."]
                  [utf16 "rusty - covered with rust"]);
      try (vm_compute; reflexivity).
    split; [exists 84, (utf16 "he Lost Key"); split; reflexivity|].
    split; [vm_compute; repeat constructor|].
    intros r c H. apply (f_equal (@rev N)) in H. rewrite rev_app_distr in H.
    vm_compute in H. now injection H as <- _.
  - destruct (parseTemplate_minimal scenario_B)
      as (p & Hp & _ & _ & _ & _ & _ & Hshape);
      [vm_compute; discriminate ..|].
    rewrite Hp. f_equal.
    apply (Hshape (utf16 "The Lost Key") [utf16 "She found a key."]);
      try (vm_compute; reflexivity).
    split; [exists 84, (utf16 "he Lost Key"); split; reflexivity|].
    split; [vm_compute; repeat constructor|].
    intros r c H. apply (f_equal (@rev N)) in H. rewrite rev_app_distr in H.
    vm_compute in H. now injection H as <- _.
Defined.

(** ** The renderer: emphasis, paragraphs and line breaks *)

Module EmphasisFacts.

Import RegexFacts TrimFacts VocabFacts RendererFacts.

Section Replace.

Variables (ic : bool) (r : regex) (t : list titem).

(** The characters of a match are stepped over. *)
Lemma replace_go_skip m rest : forall b,
  replace_go ic r t b (m ++ rest) (length m) = replace_go ic r t (rev m ++ b) rest 0.
Proof.
  induction m as [|c m IH]; intros b; [reflexivity|].
  cbn [app length replace_go rev]. rewrite IH. now rewrite <- app_assoc.
Qed.

Lemma replace_go_keep b c af :
  match_at ic r b (c :: af) = None ->
  replace_go ic r t b (c :: af) 0 = c :: replace_go ic r t (c :: b) af 0.
Proof. intros H. cbn [replace_go]. now rewrite H. Qed.

Lemma replace_go_match b c m rest y :
  match_at ic r b (c :: m ++ rest) = Some y -> after y = rest ->
  replace_go ic r t b (c :: m ++ rest) 0 =
  substitute t y ++ replace_go ic r t (rev m ++ c :: b) rest 0.
Proof.
  intros Hy Hafter. cbn [replace_go]. rewrite Hy, Hafter.
  cbn [length]. rewrite length_app.
  replace (S (length m + length rest) - length rest)%nat with (S (length m)) by lia.
  now rewrite replace_go_skip.
Qed.

(** A stretch on which the pattern cannot start is copied. *)
Lemma replace_go_prefix pre rest :
  (forall b c af, In c pre -> match_at ic r b (c :: af) = None) ->
  forall b,
    replace_go ic r t b (pre ++ rest) 0 =
    pre ++ replace_go ic r t (rev pre ++ b) rest 0.
Proof.
  induction pre as [|c pre IH]; intros H b; [reflexivity|].
  cbn [app rev]. rewrite replace_go_keep by (apply H; now left).
  rewrite IH by (intros; apply H; now right).
  now rewrite <- app_assoc.
Qed.

Lemma replace_go_end b :
  match_at ic r b [] = None -> replace_go ic r t b [] 0 = [].
Proof. intros H. cbn [replace_go]. now rewrite H. Qed.

Lemma split_go_skip m rest cur : forall b,
  split_go ic r b (m ++ rest) (length m) cur = split_go ic r (rev m ++ b) rest 0 cur.
Proof.
  induction m as [|c m IH]; intros b; [reflexivity|].
  cbn [app length split_go rev]. rewrite IH. now rewrite <- app_assoc.
Qed.

Lemma split_go_prefix pre rest :
  (forall b c af, In c pre -> match_at ic r b (c :: af) = None) ->
  forall b cur,
    split_go ic r b (pre ++ rest) 0 cur =
    split_go ic r (rev pre ++ b) rest 0 (rev pre ++ cur).
Proof.
  induction pre as [|c pre IH]; intros H b cur; [reflexivity|].
  cbn [app rev split_go]. rewrite H by (now left).
  rewrite IH by (intros; apply H; now right).
  now rewrite <- !app_assoc.
Qed.

End Replace.

Lemma matches_seq_eps_r ic r x : matches ic (Seq r Eps) x = matches ic r x.
Proof.
  cbn [matches]. induction (matches ic r x) as [|y l IH]; [reflexivity|].
  cbn [flat_map app]. now rewrite IH.
Qed.

Lemma matches_seq_ext ic r1 r2 r2' x :
  (forall y, matches ic r2 y = matches ic r2' y) ->
  matches ic (Seq r1 r2) x = matches ic (Seq r1 r2') x.
Proof. intros H. cbn [matches]. apply flat_map_ext. exact H. Qed.

(** *** What [trim] keeps comes from the text *)

Lemma trimStart_incl s c : In c (trimStart s) -> In c s.
Proof.
  induction s as [|d s IH]; cbn [trimStart]; [tauto|].
  destruct (isWhiteSpace d); [|tauto]. intros H. right. now apply IH.
Qed.

Lemma trim_incl s c : In c (trim s) -> In c s.
Proof.
  unfold trim, trimEnd. intros H. apply in_rev in H.
  apply trimStart_incl in H. apply in_rev in H. now apply trimStart_incl in H.
Qed.

(** *** Plain text *)

Lemma plain_no_star s c : plain_text s -> In c s -> c <> 42.
Proof. intros H Hc. exact (proj1 (proj1 (Forall_forall _ _) H c Hc)). Qed.

Lemma plain_no_line_feed s c : plain_text s -> In c s -> c <> LF.
Proof. intros H Hc. exact (proj2 (proj1 (Forall_forall _ _) H c Hc)). Qed.

Lemma bold_no_match_end b : match_at false bold_re b [] = None.
Proof. reflexivity. Qed.

Lemma paragraph_no_match_end b : match_at false paragraph_re b [] = None.
Proof. reflexivity. Qed.

(** After the emphasis passes: text without line feeds becomes one
    paragraph container around its trimmed form. *)
Lemma one_paragraph s :
  s <> [] -> (forall c, In c s -> c <> LF) ->
  replace_all false br_re br_tpl
    (join [LF] (map paragraph (split false paragraph_re s))) =
  container (trim s).
Proof.
  intros Hne HLF.
  rewrite (split_no_match false paragraph_re s)
    by (intros; (apply paragraph_no_match; auto) || assumption).
  cbn [map join]. fold (container (trim s)).
  apply replace_all_no_match; [|apply br_no_match_end].
  intros b c af Hin. apply br_no_match.
  unfold container, p_open, p_close in Hin. cbn [app In] in Hin.
  destruct Hin as [<-|[<-|[<-|Hin]]]; try (unfold LF; discriminate).
  apply in_app_or in Hin as [Hin|Hin]; [apply HLF; now apply trim_incl|].
  cbn [In] in Hin.
  destruct Hin as [<-|[<-|[<-|[<-|[]]]]]; unfold LF; discriminate.
Qed.

(** *** Bold *)

Lemma bold_re_parts : bold_re = Seq bold_mark (Seq word_group bold_mark).
Proof. reflexivity. Qed.

Lemma bold_match b w post :
  w <> [] -> run false Dot w -> Forall (fun d => d <> 42) w ->
  match_at false bold_re b (42 :: 42 :: w ++ 42 :: 42 :: post) =
  Some (MState (42 :: 42 :: rev w ++ 42 :: 42 :: b) post [(1%nat, w)]).
Proof.
  intros Hw Hdot Hplain. unfold match_at. rewrite bold_re_parts, bold_mark_step.
  rewrite (matches_seq_ext false word_group bold_mark (Seq bold_mark Eps))
    by (intros; now rewrite matches_seq_eps_r).
  now apply (word_group_first w Hw Hdot Hplain).
Qed.

Lemma bold_pass pre w post :
  plain_text pre -> plain_text w -> plain_text post ->
  w <> [] -> Forall (fun d => isLineTerminator d = false) w ->
  replace_all false bold_re strong_tpl (pre ++ utf16 "**" ++ w ++ utf16 "**" ++ post) =
  pre ++ strong w ++ post.
Proof.
  intros Hpre Hwp Hpost Hw Hdot. unfold replace_all.
  change (utf16 "**") with [42; 42]. cbn [app].
  rewrite (replace_go_prefix false bold_re strong_tpl pre)
    by (intros; apply bold_no_match; apply (plain_no_star pre); assumption).
  assert (42 :: (42 :: w ++ [42; 42]) ++ post = 42 :: 42 :: w ++ 42 :: 42 :: post)
    as Hshape by (cbn [app]; now rewrite <- app_assoc).
  rewrite <- Hshape.
  erewrite replace_go_match; [| rewrite Hshape; apply bold_match | reflexivity].
  - rewrite (replace_go_no_match false bold_re strong_tpl post)
      by (try (intros; apply bold_no_match; apply (plain_no_star post); assumption);
          try apply bold_no_match_end; auto).
    rewrite app_nil_r. reflexivity.
  - exact Hw.
  - now apply VocabInvariant.dot_run.
  - revert Hwp. apply Forall_impl. tauto.
Qed.

Lemma plain_text_app s t : plain_text s -> plain_text t -> plain_text (s ++ t).
Proof. intros Hs Ht. apply Forall_app. now split. Qed.

Lemma plain_strong w : plain_text w -> plain_text (strong w).
Proof.
  intros H. unfold strong.
  apply plain_text_app; [|apply plain_text_app; [exact H|]];
    vm_compute; repeat constructor; discriminate.
Qed.

Lemma plain_em w : plain_text w -> plain_text (em w).
Proof.
  intros H. unfold em.
  apply plain_text_app; [|apply plain_text_app; [exact H|]];
    vm_compute; repeat constructor; discriminate.
Qed.

Lemma markdownToHtml_nonempty s :
  s <> [] ->
  markdownToHtml (Str s) =
  replace_all false br_re br_tpl
    (join [LF] (map paragraph (split false paragraph_re
       (replace_all false italic_re em_tpl
          (replace_all false bold_re strong_tpl s))))).
Proof. destruct s; [congruence|reflexivity]. Qed.

(** Without an asterisk the two emphasis passes change nothing. *)
Lemma emphasis_free s :
  (forall c, In c s -> c <> 42) ->
  replace_all false italic_re em_tpl (replace_all false bold_re strong_tpl s) = s.
Proof.
  intros H.
  rewrite (replace_all_no_match false bold_re strong_tpl s)
    by (intros; (apply bold_no_match; auto) || reflexivity).
  apply replace_all_no_match; [|apply italic_no_match_end].
  intros. apply italic_no_match. auto.
Qed.

(** *** Italic *)

Lemma star_alone b rest :
  stops false (Ch 42) rest -> match_at false bold_re b (42 :: rest) = None.
Proof.
  intros H. unfold match_at. rewrite bold_re_parts.
  destruct rest as [|c rest]; [reflexivity|].
  rewrite bold_mark_half; [reflexivity|].
  cbn in H. now apply N.eqb_neq.
Qed.

Lemma plain_stops s : plain_text s -> stops false (Ch 42) s.
Proof.
  intros H. destruct s as [|c s]; [exact I|].
  inversion H as [|? ? [Hc _] _]; subst. cbn. now apply N.eqb_neq.
Qed.

Lemma bold_pass_single pre w post :
  plain_text pre -> plain_text w -> plain_text post -> w <> [] ->
  replace_all false bold_re strong_tpl (pre ++ 42 :: w ++ 42 :: post) =
  pre ++ 42 :: w ++ 42 :: post.
Proof.
  intros Hpre Hwp Hpost Hw. unfold replace_all.
  rewrite (replace_go_prefix false bold_re strong_tpl pre)
    by (intros; apply bold_no_match; apply (plain_no_star pre); assumption).
  rewrite replace_go_keep
    by (apply star_alone; destruct w; [congruence|];
        apply (plain_stops _ (plain_text_app _ [] Hwp (Forall_nil _)))).
  rewrite (replace_go_prefix false bold_re strong_tpl w)
    by (intros; apply bold_no_match; apply (plain_no_star w); assumption).
  rewrite replace_go_keep by (apply star_alone, plain_stops, Hpost).
  rewrite (replace_go_no_match false bold_re strong_tpl post)
    by (try (intros; apply bold_no_match; apply (plain_no_star post); assumption);
        try apply bold_no_match_end; auto).
  reflexivity.
Qed.

Lemma no_star_behind pre :
  plain_text pre -> starts_with false [42] (rev pre ++ []) = false.
Proof.
  intros H. rewrite app_nil_r. destruct (rev pre) as [|c r] eqn:E; [reflexivity|].
  assert (In c pre) as Hin by (apply in_rev; rewrite E; now left).
  apply (plain_no_star _ _ H), N.eqb_neq in Hin.
  cbn [starts_with canonicalize andb]. now rewrite Hin.
Qed.

Lemma no_star_ahead post :
  plain_text post -> starts_with false [42] post = false.
Proof.
  intros H. destruct post as [|c r]; [reflexivity|].
  inversion H as [|? ? [Hc _] _]; subst. apply N.eqb_neq in Hc.
  cbn [starts_with canonicalize andb]. now rewrite Hc.
Qed.

Lemma not_star_matches c :
  c <> 42 -> atom_matches false (Cls true [CChar 42]) c = true.
Proof. intros Hc. apply N.eqb_neq in Hc. cbn. now rewrite Hc. Qed.

Lemma italic_match b w post :
  starts_with false [42] b = false ->
  w <> [] -> Forall (fun d => d <> 42) w ->
  starts_with false [42] post = false ->
  match_at false italic_re b (42 :: w ++ 42 :: post) =
  Some (MState (42 :: rev w ++ 42 :: b) post [(1%nat, w)]).
Proof.
  intros Hb Hw Hplain Hpost. unfold match_at, italic_re.
  rewrite matches_seq, matches_notbehind. cbn [before rev app]. rewrite Hb.
  cbn [flat_map]. rewrite app_nil_r.
  rewrite matches_seq_atom, atom_ch_self.
  rewrite matches_seq, matches_group, matches_rep, flat_map_map.
  destruct w as [|c0 w']; [congruence|].
  inversion Hplain as [|? ? Hc0 Hp']; subst.
  cbn [app]. rewrite rep_lazy_one by (now apply not_star_matches).
  rewrite rep_lazy_skip.
  - destruct (rep_lazy_first false (Cls true [CChar 42])
                (rev w' ++ c0 :: 42 :: b) (42 :: post) []) as [tl ->].
    rewrite hd_error_flat_map_cons. cbn [before after caps].
    change (c0 :: w' ++ 42 :: post) with ((c0 :: w') ++ 42 :: post).
    rewrite consumed_app, matches_seq_atom, atom_ch_self.
    cbn [matches after]. rewrite Hpost. cbn [hd_error rev].
    now rewrite <- app_assoc.
  - revert Hp'. apply Forall_impl. intros. now apply not_star_matches.
  - intros b' c' r' Hin. cbn [before after caps].
    rewrite matches_seq_atom.
    pose proof (proj1 (Forall_forall _ _) Hp' c' Hin) as Hc.
    apply N.eqb_neq in Hc. cbn [atom_matches canonicalize andb]. now rewrite Hc.
Qed.

Lemma italic_pass pre w post :
  plain_text pre -> plain_text w -> plain_text post -> w <> [] ->
  replace_all false italic_re em_tpl (pre ++ 42 :: w ++ 42 :: post) =
  pre ++ em w ++ post.
Proof.
  intros Hpre Hwp Hpost Hw. unfold replace_all.
  rewrite (replace_go_prefix false italic_re em_tpl pre)
    by (intros; apply italic_no_match; apply (plain_no_star pre); assumption).
  assert (42 :: (w ++ [42]) ++ post = 42 :: w ++ 42 :: post)
    as Hshape by (now rewrite <- app_assoc).
  rewrite <- Hshape.
  erewrite replace_go_match; [| rewrite Hshape; apply italic_match | reflexivity].
  - rewrite (replace_go_no_match false italic_re em_tpl post)
      by (try (intros; apply italic_no_match; apply (plain_no_star post); assumption);
          try apply italic_no_match_end; auto).
    rewrite app_nil_r. reflexivity.
  - now apply no_star_behind.
  - exact Hw.
  - revert Hwp. apply Forall_impl. tauto.
  - now apply no_star_ahead.
Qed.

(** *** Paragraphs *)

Lemma split_go_match ic r b c m rest cur y :
  match_at ic r b (c :: m ++ rest) = Some y -> after y = rest ->
  split_go ic r b (c :: m ++ rest) 0 cur =
  rev cur :: split_go ic r (rev m ++ c :: b) rest 0 [].
Proof.
  intros Hy Hafter. cbn [split_go]. rewrite Hy, Hafter.
  cbn [length]. rewrite length_app.
  replace (S (length m + length rest) - length rest)%nat with (S (length m)) by lia.
  now rewrite split_go_skip.
Qed.

Lemma split_nonempty ic r s :
  s <> [] -> split ic r s = split_go ic r [] s 0 [].
Proof. destruct s; [congruence|reflexivity]. Qed.

Lemma line_feed_run n : run false (Ch LF) (repeat LF n).
Proof. apply Forall_forall. intros c Hc. apply repeat_spec in Hc. now subst. Qed.

Lemma plain_stops_line_feed s : plain_text s -> stops false (Ch LF) s.
Proof.
  intros H. destruct s as [|c s]; [exact I|].
  inversion H as [|? ? [_ Hc] _]; subst. cbn. now apply N.eqb_neq.
Qed.

Lemma paragraph_match b0 n b :
  plain_text b -> (2 <= n)%nat ->
  match_at false paragraph_re b0 (repeat LF n ++ b) =
  Some (MState (rev (repeat LF n) ++ b0) b []).
Proof.
  intros Hb Hn. unfold match_at, paragraph_re. rewrite matches_rep.
  destruct (rep_greedy_first false (Ch LF) (repeat LF n) b [] 2 b0) as [tl ->];
    [apply line_feed_run|now apply plain_stops_line_feed
    |now rewrite repeat_length|reflexivity].
Qed.


Lemma split_blank_line a b n :
  plain_text a -> plain_text b -> (2 <= n)%nat ->
  split false paragraph_re (a ++ repeat LF n ++ b) = [a; b].
Proof.
  intros Ha Hb Hn.
  rewrite split_nonempty
    by (destruct n; [lia|]; destruct a; discriminate).
  rewrite (split_go_prefix false paragraph_re a)
    by (intros; apply paragraph_no_match; apply (plain_no_line_feed a); assumption).
  pose proof (paragraph_match (rev a ++ []) n b Hb Hn) as Hm.
  destruct n as [|n]; [lia|]. cbn [repeat app] in Hm |- *.
  rewrite (split_go_match false paragraph_re _ LF (repeat LF n) b _ _ Hm eq_refl).
  rewrite (split_go_no_match false paragraph_re b)
    by (try (intros; apply paragraph_no_match; apply (plain_no_line_feed b); assumption);
        auto).
  now rewrite app_nil_r, rev_involutive.
Qed.


(** *** Line breaks *)



Lemma replace_go_br_plain s rest b :
  (forall c, In c s -> c <> LF) ->
  replace_go false br_re br_tpl b (s ++ rest) 0 =
  s ++ replace_go false br_re br_tpl (rev s ++ b) rest 0.
Proof.
  intros H. apply replace_go_prefix. intros. apply br_no_match. auto.
Qed.

End EmphasisFacts.

(** X11: text between two pairs of asterisks is rendered as a strong
    element.  With no other asterisk and no line feed around it, and no
    line terminator inside it, the output is one paragraph container around
    the trimmed text in which the marked part is wrapped in the strong
    tags. *)
Theorem bold_is_rendered (pre w post : jsstring) :
  plain_text pre -> plain_text w -> plain_text post -> w <> [] ->
  Forall (fun d => isLineTerminator d = false) w ->
  markdownToHtml (Str (pre ++ utf16 "**" ++ w ++ utf16 "**" ++ post)) =
  container (trim (pre ++ strong w ++ post)).
Proof.
  intros Hpre Hwp Hpost Hw Hdot.
  assert (plain_text (pre ++ strong w ++ post)) as Hplain.
  { apply EmphasisFacts.plain_text_app; [exact Hpre|].
    apply EmphasisFacts.plain_text_app; [|exact Hpost].
    now apply EmphasisFacts.plain_strong. }
  rewrite EmphasisFacts.markdownToHtml_nonempty by (destruct pre; discriminate).
  rewrite EmphasisFacts.bold_pass by assumption.
  rewrite (RendererFacts.replace_all_no_match false italic_re em_tpl
             (pre ++ strong w ++ post)).
  - apply EmphasisFacts.one_paragraph; [destruct pre; discriminate|].
    intros c. now apply EmphasisFacts.plain_no_line_feed.
  - intros b c af Hin. apply RendererFacts.italic_no_match.
    exact (EmphasisFacts.plain_no_star _ _ Hplain Hin).
  - apply RendererFacts.italic_no_match_end.
Qed.

Lemma bold_is_rendered_witness :
  markdownToHtml (Str (utf16 "say **hi there** now")) =
  utf16 "<p>say <strong>hi there</strong> now</p>".
Proof.
  apply (bold_is_rendered (utf16 "say ") (utf16 "hi there") (utf16 " now"));
    vm_compute; repeat constructor; discriminate.
Defined.

(** X12: text between two single asterisks is rendered as an emphasis
    element.  With no other asterisk and no line feed in the input, the
    output is one paragraph container around the trimmed text in which the
    marked part is wrapped in the emphasis tags. *)
Theorem italic_is_rendered (pre w post : jsstring) :
  plain_text pre -> plain_text w -> plain_text post -> w <> [] ->
  markdownToHtml (Str (pre ++ utf16 "*" ++ w ++ utf16 "*" ++ post)) =
  container (trim (pre ++ em w ++ post)).
Proof.
  intros Hpre Hwp Hpost Hw.
  assert (plain_text (pre ++ em w ++ post)) as Hplain.
  { apply EmphasisFacts.plain_text_app; [exact Hpre|].
    apply EmphasisFacts.plain_text_app; [|exact Hpost].
    now apply EmphasisFacts.plain_em. }
  rewrite EmphasisFacts.markdownToHtml_nonempty by (destruct pre; discriminate).
  change (utf16 "*") with [42]. cbn [app].
  rewrite EmphasisFacts.bold_pass_single by assumption.
  rewrite EmphasisFacts.italic_pass by assumption.
  apply EmphasisFacts.one_paragraph; [destruct pre; discriminate|].
  intros c. now apply EmphasisFacts.plain_no_line_feed.
Qed.

Lemma italic_is_rendered_witness :
  markdownToHtml (Str (utf16 "a *very* old map")) =
  utf16 "<p>a <em>very</em> old map</p>".
Proof.
  apply (italic_is_rendered (utf16 "a ") (utf16 "very") (utf16 " old map"));
    vm_compute; repeat constructor; discriminate.
Defined.

(** X13: two or more consecutive line feeds separate paragraphs.  For two
    texts without asterisks and line feeds, the output is the container of
    the first, trimmed, a line feed, and the container of the second,
    trimmed; an empty text on either side gives an empty container. *)
Theorem blank_line_separates (a b : jsstring) (n : nat) :
  plain_text a -> plain_text b -> (2 <= n)%nat ->
  markdownToHtml (Str (a ++ repeat LF n ++ b)) =
  container (trim a) ++ LF :: container (trim b).
Proof.
  intros Ha Hb Hn.
  rewrite EmphasisFacts.markdownToHtml_nonempty
    by (destruct n; [lia|]; destruct a; discriminate).
  rewrite EmphasisFacts.emphasis_free.
  - rewrite EmphasisFacts.split_blank_line by assumption.
    cbn [map join]. unfold paragraph, replace_all, container.
    rewrite <- !app_assoc. cbn [app].
    rewrite RendererFacts.replace_go_br_open.
    rewrite EmphasisFacts.replace_go_br_plain
      by (intros c Hc; apply (EmphasisFacts.plain_no_line_feed a _ Ha);
          now apply EmphasisFacts.trim_incl).
    rewrite RendererFacts.replace_go_br_joint.
    rewrite RendererFacts.replace_go_br_open.
    rewrite EmphasisFacts.replace_go_br_plain
      by (intros c Hc; apply (EmphasisFacts.plain_no_line_feed b _ Hb);
          now apply EmphasisFacts.trim_incl).
    now rewrite RendererFacts.replace_go_br_close.
  - intros c Hc. apply in_app_or in Hc as [Hc|Hc];
      [exact (EmphasisFacts.plain_no_star _ _ Ha Hc)|].
    apply in_app_or in Hc as [Hc|Hc];
      [|exact (EmphasisFacts.plain_no_star _ _ Hb Hc)].
    apply repeat_spec in Hc. subst. unfold LF. discriminate.
Qed.

Lemma blank_line_separates_witness :
  markdownToHtml (Str (utf16 "one " ++ [LF; LF; LF] ++ utf16 " two")) =
  utf16 "<p>one</p>" ++ [LF] ++ utf16 "<p>two</p>".
Proof.
  apply (blank_line_separates (utf16 "one ") (utf16 " two") 3);
    vm_compute; repeat constructor; discriminate.
Defined.



(** ** The application state *)

Module AppFacts.

Import App.

Lemma same_id_push i c now s : same_id i (push_chapter c now s) = same_id i s.
Proof. reflexivity. Qed.

Lemma same_id_self s : same_id (Some (story_id s)) s = true.
Proof. unfold same_id. now destruct (list_eq_dec N.eq_dec (story_id s) (story_id s)). Qed.

Lemma same_id_true i s : same_id (Some i) s = true <-> story_id s = i.
Proof.
  unfold same_id. destruct (list_eq_dec N.eq_dec (story_id s) i);
    split; congruence.
Qed.

Lemma same_id_false i s : same_id (Some i) s = false <-> story_id s <> i.
Proof.
  unfold same_id. destruct (list_eq_dec N.eq_dec (story_id s) i);
    split; congruence.
Qed.

(** *** Lookup after the three ways the array changes *)

Lemma find_update_first (p : story -> bool) f l s :
  (forall x, p (f x) = p x) ->
  find p l = Some s -> find p (update_first p f l) = Some (f s).
Proof.
  intros Hp. induction l as [|x l IH]; cbn [find update_first]; [discriminate|].
  destruct (p x) eqn:E.
  - intros [= ->]. cbn [find]. now rewrite Hp, E.
  - intros H. cbn [find]. rewrite E. auto.
Qed.

Lemma find_app_fresh i l s :
  fresh i l -> story_id s = i -> find_story (Some i) (l ++ [s]) = Some s.
Proof.
  intros Hl Hs. unfold find_story. induction Hl as [|x l Hx _ IH]; cbn [List.app find].
  - apply same_id_true in Hs. now rewrite Hs.
  - apply same_id_false in Hx. now rewrite Hx.
Qed.

Lemma find_app_some i l s :
  story_id s = i -> exists s', find_story (Some i) (l ++ [s]) = Some s'.
Proof.
  intros Hs. unfold find_story. induction l as [|x l IH]; cbn [List.app find].
  - apply same_id_true in Hs. rewrite Hs. eauto.
  - destruct (same_id (Some i) x); eauto.
Qed.

Lemma find_filter_same i l :
  find_story i (filter (fun s => negb (same_id i s)) l) = None.
Proof.
  unfold find_story. induction l as [|x l IH]; [reflexivity|].
  cbn [filter]. destruct (same_id i x) eqn:E; cbn [negb]; [exact IH|].
  cbn [find]. now rewrite E.
Qed.

Lemma find_filter_other i j l :
  j <> i ->
  find_story (Some j) (filter (fun s => negb (same_id (Some i) s)) l) =
  find_story (Some j) l.
Proof.
  intros Hji. unfold find_story. induction l as [|x l IH]; [reflexivity|].
  cbn [filter find]. destruct (same_id (Some i) x) eqn:Ei; cbn [negb].
  - apply same_id_true in Ei.
    assert (same_id (Some j) x = false) as -> by (apply same_id_false; congruence).
    exact IH.
  - cbn [find]. now rewrite IH.
Qed.

Lemma find_story_in i l s : find_story i l = Some s -> In s l.
Proof. intros H. now apply find_some in H. Qed.

(** *** Every story keeps a chapter *)

Lemma update_first_has_chapter p f l :
  (forall s, has_chapter (f s)) ->
  Forall has_chapter l -> Forall has_chapter (update_first p f l).
Proof.
  intros Hf. induction 1 as [|x l Hx Hl IH]; cbn [update_first]; [constructor|].
  destruct (p x); constructor; auto.
Qed.

Lemma push_has_chapter c now s : has_chapter (push_chapter c now s).
Proof. unfold has_chapter, push_chapter. cbn. now destruct (chapters s). Qed.

Lemma filter_has_chapter (p : story -> bool) l :
  Forall has_chapter l -> Forall has_chapter (filter p l).
Proof.
  induction 1 as [|x l Hx Hl IH]; cbn [filter]; [constructor|].
  destruct (p x); [constructor|]; auto.
Qed.

(** *** When the reader has something to show *)

Lemma chapter_at_range s i :
  (exists c, chapter_at s i = Some c) <->
  (0 <= i < Z.of_nat (length (chapters s)))%Z.
Proof.
  unfold chapter_at. destruct (Z.ltb_spec i 0) as [Hneg|Hpos].
  - split; [intros [c Hc]; discriminate|lia].
  - split.
    + intros [c Hc].
      assert (nth_error (chapters s) (Z.to_nat i) <> None) as Hn by congruence.
      apply nth_error_Some in Hn. lia.
    + intros [_ Hi].
      destruct (nth_error (chapters s) (Z.to_nat i)) eqn:E; [eauto|].
      apply nth_error_None in E. lia.
Qed.

Lemma renderChapter_some a :
  (exists r, renderChapter a = Some r) <->
  exists s, find_story (currentStoryId a) (stories a) = Some s /\
            (0 <= currentChapterIndex a < Z.of_nat (length (chapters s)))%Z.
Proof.
  unfold renderChapter.
  destruct (find_story (currentStoryId a) (stories a)) as [s|].
  - split.
    + intros [r Hr]. exists s. split; [reflexivity|].
      apply chapter_at_range.
      destruct (chapter_at s (currentChapterIndex a)); [eauto|discriminate].
    + intros (s' & [= <-] & Hi). apply chapter_at_range in Hi as [c ->]. eauto.
  - split; [intros [r Hr]; discriminate|intros (s & Hs & _); discriminate].
Qed.

Lemma has_chapter_length s : has_chapter s -> (0 < Z.of_nat (length (chapters s)))%Z.
Proof. unfold has_chapter. destruct (chapters s); [congruence|cbn; lia]. Qed.

Lemma openReader_kept i a :
  Forall has_chapter (stories a) ->
  (find_story i (stories a) = None -> reader_shows a) ->
  kept (openReader i a).
Proof.
  intros HJ Hnone. unfold openReader.
  destruct (find_story i (stories a)) as [s|] eqn:E; [|split; auto].
  split; [exact HJ|]. intros _. apply renderChapter_some.
  exists s. cbn [navigateTo stories currentStoryId currentChapterIndex].
  split; [exact E|].
  pose proof (has_chapter_length s
                (proj1 (Forall_forall _ _) HJ s (find_story_in _ _ _ E))).
  lia.
Qed.

Lemma prevChapter_kept a : kept a -> kept (prevChapter a).
Proof.
  intros [HJ Hshow]. unfold prevChapter.
  destruct (Z.ltb_spec 0 (currentChapterIndex a)) as [Hpos|_]; [|now split].
  split; [exact HJ|]. intros Hv. cbn [active] in Hv.
  apply renderChapter_some. apply Hshow, renderChapter_some in Hv as (s & Hs & Hi).
  exists s. cbn [stories currentStoryId currentChapterIndex]. split; [exact Hs|lia].
Qed.

Lemma nextChapter_kept a : kept a -> kept (nextChapter a).
Proof.
  intros [HJ Hshow]. unfold nextChapter.
  destruct (find_story (currentStoryId a) (stories a)) as [s|] eqn:Es; [|now split].
  destruct (Z.ltb_spec (currentChapterIndex a) (Z.of_nat (length (chapters s)) - 1))
    as [Hlt|_]; [|now split].
  split; [exact HJ|]. intros Hv. cbn [active] in Hv.
  apply renderChapter_some. apply Hshow, renderChapter_some in Hv as (s' & Hs' & Hi).
  exists s. cbn [stories currentStoryId currentChapterIndex]. split; [exact Es|lia].
Qed.

Lemma leaves_reader_kept l ad cur i v :
  v <> ViewReader -> Forall has_chapter l -> kept (Make l ad cur i v).
Proof. intros Hv HJ. split; [exact HJ|]. intros H. cbn in H. congruence. Qed.

Lemma submit_kept value chapterId storyId now1 now2 now3 a :
  kept a -> kept (submit value chapterId storyId now1 now2 now3 a).
Proof.
  intros [HJ Hshow]. unfold submit.
  destruct (trim value) as [|c0 input]; [now split|].
  destruct (parseTemplate (c0 :: input)) as [p|]; [|now split].
  destruct (truthy (addingToStoryId a)).
  - destruct (find_story (addingToStoryId a) (stories a)) as [s|] eqn:Es; [|now split].
    apply openReader_kept; cbn [stories].
    + apply update_first_has_chapter; [intros; apply push_has_chapter|exact HJ].
    + unfold find_story in *.
      rewrite (find_update_first _ _ _ s (same_id_push _ _ _) Es). discriminate.
  - apply openReader_kept; cbn [stories story_id].
    + apply Forall_app. split; [exact HJ|]. repeat constructor. discriminate.
    + destruct (find_app_some storyId (stories a)
                  (Story storyId (Parsed.title p)
                     [Chapter chapterId (Parsed.english p) (Parsed.vocab p)
                              (Parsed.translation p) now1] now2 now3) eq_refl)
        as [s' ->].
      discriminate.
Qed.

Lemma handle_kept a e : sound e -> kept a -> kept (handle a e).
Proof.
  intros He Ha. pose proof Ha as [HJ Hshow].
  destruct e; cbn [handle].
  - apply openReader_kept; auto.
  - now apply prevChapter_kept.
  - now apply nextChapter_kept.
  - apply leaves_reader_kept; [discriminate|exact HJ].
  - apply leaves_reader_kept; [discriminate|exact HJ].
  - unfold deleteStory. destruct confirmed; [|exact Ha].
    apply leaves_reader_kept; [discriminate|now apply filter_has_chapter].
  - apply leaves_reader_kept; [discriminate|exact HJ].
  - unfold addBack. destruct (truthy (addingToStoryId a)).
    + apply openReader_kept; auto.
    + apply leaves_reader_kept; [discriminate|exact HJ].
  - now apply submit_kept.
  - apply leaves_reader_kept; [discriminate|exact HJ].
  - apply leaves_reader_kept; [discriminate|exact HJ].
  - unfold importBackup. destruct confirmed; [|exact Ha].
    apply leaves_reader_kept; [discriminate|exact He].
Qed.

Lemma fold_kept events : forall a,
  Forall sound events -> kept a -> kept (fold_left handle events a).
Proof.
  induction events as [|e events IH]; intros a He Ha; [exact Ha|].
  inversion He; subst. cbn [fold_left]. apply IH; [assumption|].
  now apply handle_kept.
Qed.

Lemma parseTemplate_nonempty text p : parseTemplate text = Some p -> text <> [].
Proof. intros H ->. vm_compute in H. discriminate. Qed.

End AppFacts.

(** X15: the reader always has a chapter to show.  From a page loaded
    with stories that each have a chapter, and after any sequence of clicks,
    submissions and imports of stories that each have a chapter: every
    story still has a chapter, and whenever the reader is the active view
    [renderChapter] finds the current story and its current chapter. *)
Theorem reader_always_shows (stored : list App.story) (events : list App.event) :
  Forall App.has_chapter stored -> Forall App.sound events ->
  Forall App.has_chapter (App.stories (fold_left App.handle events (App.loaded stored))) /\
  App.reader_shows (fold_left App.handle events (App.loaded stored)).
Proof.
  intros Hstored Hevents. apply AppFacts.fold_kept; [exact Hevents|].
  split; [exact Hstored|]. intros H. discriminate H.
Qed.

Lemma reader_always_shows_witness :
  Forall App.has_chapter
    (App.stories
       (fold_left App.handle
          [App.Submit scenario_A (utf16 "c1") (utf16 "s1") 1 2 3;
           App.ClickAddChapter;
           App.Submit scenario_A (utf16 "c2") (utf16 "s2") 4 5 6;
           App.ClickNext; App.ClickNext; App.ClickPrev]
          (App.loaded []))) /\
  App.reader_shows
    (fold_left App.handle
       [App.Submit scenario_A (utf16 "c1") (utf16 "s1") 1 2 3;
        App.ClickAddChapter;
        App.Submit scenario_A (utf16 "c2") (utf16 "s2") 4 5 6;
        App.ClickNext; App.ClickNext; App.ClickPrev]
       (App.loaded [])).
Proof.
  apply (reader_always_shows []); repeat constructor.
Defined.

(** X16: a chapter added to an existing story is appended to it, and the
    reader then opens the story at its first chapter: the position set to
    the new chapter is reset by [openReader]. *)
Theorem added_chapter_opens_first (a : App.app) (i value chapterId storyId : jsstring)
    (now1 now2 now3 : N) (s : App.story) (p : Parsed.t) :
  App.addingToStoryId a = Some i -> i <> [] ->
  App.find_story (Some i) (App.stories a) = Some s ->
  parseTemplate (trim value) = Some p ->
  App.find_story (Some i)
    (App.stories (App.submit value chapterId storyId now1 now2 now3 a)) =
  Some (App.push_chapter
          (App.Chapter chapterId (Parsed.english p) (Parsed.vocab p)
                       (Parsed.translation p) now1) now2 s) /\
  App.currentStoryId (App.submit value chapterId storyId now1 now2 now3 a) = Some i /\
  App.currentChapterIndex (App.submit value chapterId storyId now1 now2 now3 a) = 0%Z /\
  App.active (App.submit value chapterId storyId now1 now2 now3 a) = App.ViewReader.
Proof.
  intros Hadd Hi Hs Hp. unfold App.submit.
  pose proof (AppFacts.parseTemplate_nonempty _ _ Hp) as Hne.
  rewrite Hp. destruct (trim value) as [|c0 input]; [congruence|].
  rewrite Hadd. destruct i as [|i0 i]; [congruence|]. cbn [App.truthy].
  rewrite Hs. unfold App.openReader. cbn [App.stories].
  unfold App.find_story in *.
  rewrite (AppFacts.find_update_first _ _ _ s (AppFacts.same_id_push _ _ _) Hs).
  cbn [App.navigateTo App.stories App.currentStoryId App.currentChapterIndex App.active].
  rewrite (AppFacts.find_update_first _ _ _ s (AppFacts.same_id_push _ _ _) Hs).
  auto.
Qed.

Lemma added_chapter_opens_first_witness :
  App.currentChapterIndex
    (App.submit scenario_A (utf16 "c2") (utf16 "s2") 4 5 6
       (App.Make
          [App.Story (utf16 "s1") (utf16 "The Lost Key")
             [App.Chapter (utf16 "c1") (utf16 "Tom lost his key.") [] [] 1] 2 3]
          (Some (utf16 "s1")) (Some (utf16 "s1")) 0%Z App.ViewAdd)) = 0%Z.
Proof.
  refine (proj1 (proj2 (proj2
    (added_chapter_opens_first _ (utf16 "s1") _ _ _ _ _ _ _ _ _ _ _ _))));
    [ reflexivity
    | vm_compute; discriminate
    | vm_compute; reflexivity
    | vm_compute; reflexivity ].
Defined.

(** X17: a valid template submitted as a new story is appended to the
    stories as a story of one chapter with the parsed title, and, when the
    new identifier is not in use, the reader shows it: the parsed title, the
    rendered story text, the parsed word list and the rendered translation
    where they are not empty, no chapter line and no chapter navigation. *)
Theorem new_story_opens (a : App.app) (value chapterId storyId : jsstring)
    (now1 now2 now3 : N) (p : Parsed.t) :
  App.truthy (App.addingToStoryId a) = false ->
  parseTemplate (trim value) = Some p ->
  App.fresh storyId (App.stories a) ->
  App.stories (App.submit value chapterId storyId now1 now2 now3 a) =
  App.stories a ++
  [App.Story storyId (Parsed.title p)
     [App.Chapter chapterId (Parsed.english p) (Parsed.vocab p)
                  (Parsed.translation p) now1] now2 now3] /\
  App.active (App.submit value chapterId storyId now1 now2 now3 a) = App.ViewReader /\
  App.renderChapter (App.submit value chapterId storyId now1 now2 now3 a) =
  Some (App.Reader
          (Parsed.title p) None
          (markdownToHtml (Str (Parsed.english p)))
          (match Parsed.vocab p with [] => None | v => Some v end)
          (match Parsed.translation p with
           | [] => None
           | t => Some (markdownToHtml (Str t))
           end)
          None).
Proof.
  intros Hnew Hp Hfresh. unfold App.submit.
  pose proof (AppFacts.parseTemplate_nonempty _ _ Hp) as Hne.
  rewrite Hp. destruct (trim value) as [|c0 input]; [congruence|].
  rewrite Hnew. unfold App.openReader. cbn [App.stories App.story_id].
  rewrite AppFacts.find_app_fresh; [|exact Hfresh|reflexivity].
  unfold App.renderChapter.
  cbn [App.navigateTo App.stories App.currentStoryId App.currentChapterIndex
       App.active].
  rewrite AppFacts.find_app_fresh; [|exact Hfresh|reflexivity].
  repeat split.
Qed.

Lemma new_story_opens_witness :
  App.renderChapter
    (App.submit scenario_A (utf16 "c1") (utf16 "s1") 1 2 3 (App.loaded [])) =
  Some (App.Reader
          (utf16 "The Lost Key") None
          (utf16 "<p>She found a <strong>rusty</strong> key.</p>")
          (Some [VocabItem (utf16 "rusty") (utf16 "covered with rust")])
          (Some (utf16 "<p>彼女は錆びた鍵を見つけた。</p>"))
          None).
Proof.
  refine (proj2 (proj2
    (new_story_opens (App.loaded []) scenario_A _ _ 1 2 3
       (Parsed.Make (utf16 "The Lost Key")
                    (utf16 "She found a **rusty** key.")
                    [VocabItem (utf16 "rusty") (utf16 "covered with rust")]
                    (utf16 "彼女は錆びた鍵を見つけた。")) _ _ _)));
    [ reflexivity | vm_compute; reflexivity | constructor ].
Defined.

(** X18: after a confirmed deletion no story has the identifier of the
    story that was open, so that opening it again does nothing; the lookup
    of every other identifier gives what it gave before, and the list is the
    active view. *)
Theorem deleted_story_is_gone (a : App.app) (i : jsstring) :
  App.currentStoryId a = Some i ->
  App.find_story (Some i) (App.stories (App.deleteStory true a)) = None /\
  App.openReader (Some i) (App.deleteStory true a) = App.deleteStory true a /\
  (forall j, j <> i ->
     App.find_story (Some j) (App.stories (App.deleteStory true a)) =
     App.find_story (Some j) (App.stories a)) /\
  App.active (App.deleteStory true a) = App.ViewList.
Proof.
  intros Hcur. unfold App.deleteStory, App.openReader.
  cbn [App.navigateTo App.stories App.active]. rewrite Hcur.
  rewrite AppFacts.find_filter_same. repeat split.
  intros j Hj. now apply AppFacts.find_filter_other.
Qed.

Lemma deleted_story_is_gone_witness :
  App.find_story (Some (utf16 "s1"))
    (App.stories
       (App.deleteStory true
          (App.submit scenario_A (utf16 "c1") (utf16 "s1") 1 2 3 (App.loaded []))))
  = None.
Proof.
  refine (proj1 (deleted_story_is_gone _ (utf16 "s1") _)).
  vm_compute; reflexivity.
Defined.

(** X19: the theme chosen with the toggle survives a reload, and the
    toggle alternates between the two themes: after a toggle [initTheme]
    changes nothing, the theme is dark or light, and two more toggles give
    the same theme again. *)
Theorem theme_survives_reload (t : App.theme) :
  App.initTheme (App.toggleTheme t) = App.toggleTheme t /\
  (App.data_theme (App.toggleTheme t) = Some App.dark \/
   App.data_theme (App.toggleTheme t) = Some App.light) /\
  App.toggleTheme (App.toggleTheme (App.toggleTheme t)) = App.toggleTheme t.
Proof.
  unfold App.toggleTheme, App.initTheme.
  destruct (App.is_dark (App.data_theme t)); cbn; auto.
Qed.
